(** * SlackMeetingManager: the HTML to Slack-mrkdwn converter

    A shallow embedding of [src/utils/htmlToMrkdwn.ts]: the function
    [htmlToMrkdwn] and its helper [decodeHtmlEntities], together with the
    part of the JavaScript string library they call
    ([String.prototype.replace] with a global regular expression,
    [split]/[join], [trim], [parseInt], [String.fromCharCode]).

    A JavaScript string is a sequence of UTF-16 code units; the regular
    expressions of the source carry no [u] flag, so matching proceeds code
    unit by code unit.  The matcher follows the continuation-passing
    backtracking semantics of the ECMAScript specification. *)

From Stdlib Require Import String Ascii ZArith List Bool Lia.
Import ListNotations.
Local Open Scope Z_scope.

Set Implicit Arguments.

(** ** Strings as lists of UTF-16 code units *)

(** A UTF-16 code unit. *)
Definition char := Z.
Definition jsstring := list char.

(** An ASCII literal of the source text as code units. *)
Definition str (s : string) : jsstring :=
  List.map (fun a => Z.of_N (N_of_ascii a)) (list_ascii_of_string s).

(** A code unit has sixteen bits. *)
Definition wf_char (c : char) : Prop := 0 <= c < 65536.
Definition wf_string (s : jsstring) : Prop := Forall wf_char s.

(** A few code units the source names. *)
Definition NUL : char := 0.
Definition LF : char := 10.
Definition QUOT : char := 34.
Definition AMP : char := 38.
Definition LT : char := 60.
Definition GT : char := 62.
Definition BULLET : char := 8226.

(** ** Completions: a JavaScript call returns normally or throws *)

Inductive exn : Type :=
| TypeError.

Inductive completion (A : Type) : Type :=
| Normal (a : A)
| Throw (e : exn).
Arguments Normal {A} a.
Arguments Throw {A} e.

(** Sequencing: a throw ends the computation. *)
Definition bind {A B : Type} (c : completion A) (f : A -> completion B)
  : completion B :=
  match c with
  | Normal a => f a
  | Throw e => Throw e
  end.

Notation "x <- c ;; k" := (bind c (fun x => k))
  (at level 61, c at next level, right associativity).

(** ** Character classes *)

(** [\s] of a regular expression and the characters [trim] removes:
    WhiteSpace and LineTerminator of the ECMAScript grammar. *)
Definition is_space (c : char) : bool :=
  ((9 <=? c) && (c <=? 13))
  || (c =? 32) || (c =? 160) || (c =? 5760)
  || ((8192 <=? c) && (c <=? 8202))
  || (c =? 8232) || (c =? 8233) || (c =? 8239) || (c =? 8287)
  || (c =? 12288) || (c =? 65279).

(** [\d] *)
Definition is_digit (c : char) : bool := (48 <=? c) && (c <=? 57).

(** [[0-9a-fA-F]] *)
Definition is_hex_digit (c : char) : bool :=
  is_digit c || ((97 <=? c) && (c <=? 102)) || ((65 <=? c) && (c <=? 70)).

(** [[1-6]] *)
Definition is_1_to_6 (c : char) : bool := (49 <=? c) && (c <=? 54).

(** [[\s\S]] *)
Definition any_char (c : char) : bool := true.

(** [[^x]] *)
Definition not_char (x : char) (c : char) : bool := negb (c =? x).

(** Canonicalize of the specification for a pattern without the [u] flag:
    the upper-case form, except that a character outside ASCII is never
    mapped into ASCII.  Every literal of the patterns below is ASCII, so
    only the ASCII letters matter: a character outside ASCII canonicalizes
    to a character outside ASCII and equals no pattern literal. *)
Definition canonicalize (c : char) : char :=
  if (97 <=? c) && (c <=? 122) then c - 32 else c.

(** A character of the input against a literal character of the pattern. *)
Definition char_match (ignoreCase : bool) (x c : char) : bool :=
  if ignoreCase then canonicalize c =? canonicalize x else c =? x.

(** ** Regular expressions: the fragment the source uses *)

(** Quantifiers of the source apply to one-character classes only
    ([\s*], [[^>]*], [[\s\S]*?], [\d+], [\n{3,}] ...), or are the optional
    [?] on a group without captures.  The classes used under the [i] flag
    ([\s], [[^>]], the class excluding the double quote, [[\s\S]], [[1-6]])
    hold no cased letter, so
    canonicalization leaves their membership unchanged. *)
Inductive regex : Type :=
| Chars (cs : jsstring)
| Class (p : char -> bool)
| Rep (min : nat) (greedy : bool) (p : char -> bool)
| Opt (r : regex)
| Alt (r1 r2 : regex)
| Cat (r1 r2 : regex)
| Group (i : nat) (r : regex).

(** A pattern with its [i] flag; every pattern of the source is global. *)
Record RegExp : Type := mkRegExp {
  pattern : regex;
  ignoreCase : bool
}.

(** The number of capturing groups. *)
Fixpoint ngroups (r : regex) : nat :=
  match r with
  | Chars _ | Class _ | Rep _ _ _ => 0
  | Opt r1 => ngroups r1
  | Alt r1 r2 | Cat r1 r2 => ngroups r1 + ngroups r2
  | Group _ r1 => S (ngroups r1)
  end.

(** Captures: group number to captured text, most recent binding first. *)
Definition captures := list (nat * jsstring).

(** The text of group [i]; [None] is the [undefined] of a group that took
    no part in the match. *)
Fixpoint capture (i : nat) (cs : captures) : option jsstring :=
  match cs with
  | [] => None
  | (j, v) :: cs' => if Nat.eqb i j then Some v else capture i cs'
  end.

(** The part of [s] read to reach its suffix [s']. *)
Definition consumed (s s' : jsstring) : jsstring :=
  firstn (length s - length s') s.

Section Matcher.
Variable A : Type.
Variable ic : bool.

(** A continuation: what is left to match, given the rest of the input and
    the captures so far. *)
Definition cont := jsstring -> captures -> option A.

(** A sequence of literal characters at the head of [s]. *)
Fixpoint match_chars (cs s : jsstring) : option jsstring :=
  match cs with
  | [] => Some s
  | x :: cs' =>
      match s with
      | c :: s' => if char_match ic x c then match_chars cs' s' else None
      | [] => None
      end
  end.

(** Greedy [p*]: take one more character first, fall back to stopping. *)
Fixpoint star_greedy (p : char -> bool) (s : jsstring)
         (k : jsstring -> option A) : option A :=
  match s with
  | c :: s' =>
      if p c then
        match star_greedy p s' k with
        | Some v => Some v
        | None => k s
        end
      else k s
  | [] => k s
  end.

(** Lazy [p*?]: stop first, fall back to taking one more character. *)
Fixpoint star_lazy (p : char -> bool) (s : jsstring)
         (k : jsstring -> option A) : option A :=
  match k s with
  | Some v => Some v
  | None =>
      match s with
      | c :: s' => if p c then star_lazy p s' k else None
      | [] => None
      end
  end.

(** [p{min,}]: [min] mandatory characters, then the star. *)
Fixpoint rep (min : nat) (greedy : bool) (p : char -> bool) (s : jsstring)
         (k : jsstring -> option A) : option A :=
  match min with
  | O => if greedy then star_greedy p s k else star_lazy p s k
  | S n =>
      match s with
      | c :: s' => if p c then rep n greedy p s' k else None
      | [] => None
      end
  end.

(** The matcher: [m r s cs k] is the first success, in the order of
    backtracking, of [r] at the head of [s] followed by [k]. *)
Fixpoint m (r : regex) (s : jsstring) (cs : captures) (k : cont)
  : option A :=
  match r with
  | Chars xs =>
      match match_chars xs s with
      | Some s' => k s' cs
      | None => None
      end
  | Class p =>
      match s with
      | c :: s' => if p c then k s' cs else None
      | [] => None
      end
  | Rep min greedy p => rep min greedy p s (fun s' => k s' cs)
  | Opt r1 =>
      match m r1 s cs k with
      | Some v => Some v
      | None => k s cs
      end
  | Alt r1 r2 =>
      match m r1 s cs k with
      | Some v => Some v
      | None => m r2 s cs k
      end
  | Cat r1 r2 => m r1 s cs (fun s' cs' => m r2 s' cs' k)
  | Group i r1 =>
      m r1 s cs (fun s' cs' => k s' ((i, consumed s s') :: cs'))
  end.
End Matcher.

(** One match attempt at the head of [s]: the rest of the input after the
    match and the captures. *)
Definition exec_at (re : RegExp) (s : jsstring)
  : option (jsstring * captures) :=
  m (ignoreCase re) (pattern re) s [] (fun s' cs => Some (s', cs)).

(** ** String.prototype.replace with a global pattern *)

(** GetSubstitution for a replacement string: [$$], [$&] and [$n] with
    one digit; the remaining forms (two digits, [$`], [$'], [$<]) do not
    occur in the replacement strings of the source. *)
Fixpoint getSubstitution (matched : jsstring) (cs : captures) (n : nat)
         (tmpl : jsstring) : jsstring :=
  match tmpl with
  | [] => []
  | c :: rest =>
      if c =? 36 then
        match rest with
        | [] => [c]
        | d :: rest' =>
            if d =? 36 then 36 :: getSubstitution matched cs n rest'
            else if d =? 38 then matched ++ getSubstitution matched cs n rest'
            else if (49 <=? d) && (d <=? 57)
                    && (Nat.leb (Z.to_nat (d - 48)) n) then
              match capture (Z.to_nat (d - 48)) cs with
              | Some v => v
              | None => []
              end ++ getSubstitution matched cs n rest'
            else c :: getSubstitution matched cs n rest
        end
      else c :: getSubstitution matched cs n rest
  end.

(** The second argument of [replace]: a string with [$] patterns, or a
    function called with the match and the captures ([undefined] for a
    group that took no part in the match). *)
Inductive replaceValue : Type :=
| ReplString (tmpl : jsstring)
| ReplFn (f : jsstring -> (nat -> option jsstring) -> completion jsstring).

(** The text that replaces one match. *)
Definition replacement (re : RegExp) (rv : replaceValue)
           (matched : jsstring) (cs : captures) : completion jsstring :=
  match rv with
  | ReplString tmpl =>
      Normal (getSubstitution matched cs (ngroups (pattern re)) tmpl)
  | ReplFn f => f matched (fun i => capture i cs)
  end.

(** The scan of [replace]: at each position not inside the previous match
    the pattern is tried; [skip] counts the characters of the previous match
    still to pass.  After an empty match the scan moves on by one
    character. *)
Fixpoint replace_from (re : RegExp) (rv : replaceValue) (s : jsstring)
         (skip : nat) : completion jsstring :=
  match s with
  | [] =>
      match skip, exec_at re [] with
      | O, Some (_, cs) => replacement re rv [] cs
      | _, _ => Normal []
      end
  | c :: s' =>
      match skip with
      | S n => replace_from re rv s' n
      | O =>
          match exec_at re s with
          | Some (rest, cs) =>
              match (length s - length rest)%nat with
              | O =>
                  r <- replacement re rv [] cs ;;
                  out <- replace_from re rv s' 0 ;;
                  Normal (r ++ c :: out)
              | S n =>
                  r <- replacement re rv (consumed s rest) cs ;;
                  out <- replace_from re rv s' n ;;
                  Normal (r ++ out)
              end
          | None =>
              out <- replace_from re rv s' 0 ;;
              Normal (c :: out)
          end
      end
  end.

(** [s.replace(re, rv)] *)
Definition replace (re : RegExp) (rv : replaceValue) (s : jsstring)
  : completion jsstring :=
  replace_from re rv s 0.

(** ** split, join, trim *)

(** [sep] stands at the head of [s]. *)
Fixpoint starts_with (sep s : jsstring) : bool :=
  match sep with
  | [] => true
  | x :: sep' =>
      match s with
      | c :: s' => (c =? x) && starts_with sep' s'
      | [] => false
      end
  end.

(** [s.split(sep)] for a separator that is not empty (every entity of the
    table below): the pieces between the occurrences of [sep], found left
    to right without overlap.  The head of the result is the piece being
    read. *)
Fixpoint split_from (sep s : jsstring) (skip : nat) : list jsstring :=
  match s with
  | [] => [[]]
  | c :: s' =>
      match skip with
      | S n => split_from sep s' n
      | O =>
          if starts_with sep s then
            [] :: split_from sep s' (length sep - 1)
          else
            match split_from sep s' 0 with
            | piece :: pieces => (c :: piece) :: pieces
            | [] => [[c]]
            end
      end
  end.

(** [s.split(sep)]; the empty separator splits into code units. *)
Definition split (sep s : jsstring) : list jsstring :=
  match sep with
  | [] => List.map (fun c => [c]) s
  | _ :: _ => split_from sep s 0
  end.

(** [pieces.join(sep)] *)
Fixpoint join (sep : jsstring) (pieces : list jsstring) : jsstring :=
  match pieces with
  | [] => []
  | [p] => p
  | p :: rest => p ++ sep ++ join sep rest
  end.

(** [trimStart], [trimEnd] and [trim] remove the characters of [is_space]
    from the ends. *)
Fixpoint trimStart (s : jsstring) : jsstring :=
  match s with
  | c :: s' => if is_space c then trimStart s' else s
  | [] => []
  end.

Definition trimEnd (s : jsstring) : jsstring := rev (trimStart (rev s)).

Definition trim (s : jsstring) : jsstring := trimEnd (trimStart s).

(** ** parseInt and String.fromCharCode *)

(** The Number values [parseInt] can return: an integer-valued double, an
    infinity, or NaN.  (Negative zero is identified with zero: ToUint16
    sends both to 0.) *)
Inductive number : Type :=
| Int (z : Z)
| Inf (negative : bool)
| NaN.

(** The value of a digit or letter as [parseInt] reads it. *)
Definition digit_value (c : char) : option Z :=
  if is_digit c then Some (c - 48)
  else if (97 <=? c) && (c <=? 122) then Some (c - 87)
  else if (65 <=? c) && (c <=? 90) then Some (c - 55)
  else None.

(** The longest prefix of digits valid in [radix], as their integer value;
    [None] when that prefix is empty. *)
Fixpoint digits_value (radix : Z) (acc : option Z) (s : jsstring)
  : option Z :=
  match s with
  | [] => acc
  | c :: s' =>
      match digit_value c with
      | Some d =>
          if d <? radix then
            digits_value radix
              (Some (match acc with Some a => a | None => 0 end * radix + d))
              s'
          else acc
      | None => acc
      end
  end.

(** The Number value for a mathematical integer [n >= 0]: the nearest
    double, ties to even; infinity from 2^1024 on.  (For radix 10 the
    specification lets an implementation approximate after the 20th
    significant digit; V8 rounds correctly, which is what is modelled.) *)
Definition number_of_nat (n : Z) : number :=
  if n <? 2 ^ 53 then Int n
  else
    let e := Z.log2 n - 52 in
    let q := Z.shiftr n e in
    let r := n - Z.shiftl q e in
    let half := Z.shiftl 1 (e - 1) in
    let q' := if (half <? r) || ((r =? half) && Z.odd q) then q + 1 else q in
    let v := Z.shiftl q' e in
    if 2 ^ 1024 <=? v then Inf false else Int v.

(** The sign read by [parseInt] applied to the value. *)
Definition negate (x : number) : number :=
  match x with
  | Int z => Int (- z)
  | Inf b => Inf (negb b)
  | NaN => NaN
  end.

(** [parseInt(s, radix)] for radix 10 or 16: leading white space is
    skipped, a sign is read, for radix 16 a [0x] prefix is skipped, and the
    longest prefix of digits is the value. *)
Definition parseInt (s : jsstring) (radix : Z) : number :=
  let s := trimStart s in
  let '(neg, s) :=
    match s with
    | c :: s' => if c =? 45 then (true, s')
                 else if c =? 43 then (false, s') else (false, s)
    | [] => (false, s)
    end in
  let s :=
    match s with
    | c0 :: c1 :: s' =>
        if (radix =? 16) && (c0 =? 48) && ((c1 =? 120) || (c1 =? 88))
        then s' else s
    | _ => s
    end in
  match digits_value radix None s with
  | None => NaN
  | Some n => if neg then negate (number_of_nat n) else number_of_nat n
  end.

(** ToUint16 *)
Definition toUint16 (x : number) : char :=
  match x with
  | Int z => z mod 65536
  | Inf _ | NaN => 0
  end.

(** [String.fromCharCode] of one argument. *)
Definition fromCharCode (x : number) : jsstring := [toUint16 x].

(** ToString of an argument that may be [undefined]. *)
Definition to_string (o : option jsstring) : jsstring :=
  match o with
  | Some s => s
  | None => str "undefined"
  end.

(** A method call on a value that may be [undefined]. *)
Definition method_on {A : Type} (o : option jsstring)
           (f : jsstring -> A) : completion A :=
  match o with
  | Some s => Normal (f s)
  | None => Throw TypeError
  end.

(** ** The patterns of the source *)

Infix "@@" := Cat (at level 60, right associativity).

(** The class of one character, and the quantifiers [*], [+] and [*?] on a
    class. *)
Definition is_char (x : char) (c : char) : bool := c =? x.

Definition star (p : char -> bool) : regex := Rep 0 true p.
Definition plus (p : char -> bool) : regex := Rep 1 true p.
Definition star_lazily (p : char -> bool) : regex := Rep 0 false p.

(** The tail shared by the inline-tag patterns: an optional non-capturing
    group of [\s] followed by [[^>]*], then [>]. *)
Definition attrs_close : regex :=
  Opt (Class is_space @@ star (not_char GT)) @@ Chars [GT].

(** [/<br\s*\/?>/gi] *)
Definition re_br : RegExp :=
  mkRegExp (Chars (str "<br") @@ star is_space @@ Opt (Chars (str "/"))
            @@ Chars [GT]) true.

(** [/<\/p>\s*<p[^>]*>/gi] *)
Definition re_p_boundary : RegExp :=
  mkRegExp (Chars (str "</p>") @@ star is_space @@ Chars (str "<p")
            @@ star (not_char GT) @@ Chars [GT]) true.

(** [/<p[^>]*>/gi] *)
Definition re_p_open : RegExp :=
  mkRegExp (Chars (str "<p") @@ star (not_char GT) @@ Chars [GT]) true.

(** [/<\/p>/gi] *)
Definition re_p_close : RegExp :=
  mkRegExp (Chars (str "</p>")) true.

(** The pattern of the anchor element: [<a\s+[^>]*href=], a double quote,
    group 1 of any number of characters other than the double quote, a
    double quote, [[^>]*>([\s\S]*?)<\/a>], with flags [gi]. *)
Definition re_link : RegExp :=
  mkRegExp (Chars (str "<a") @@ plus is_space @@ star (not_char GT)
            @@ Chars (str "href=" ++ [QUOT])
            @@ Group 1 (star (not_char QUOT)) @@ Chars [QUOT]
            @@ star (not_char GT) @@ Chars [GT]
            @@ Group 2 (star_lazily any_char) @@ Chars (str "</a>")) true.

(** [<\/?(?:b|strong)] and the shared tail, flags [gi]. *)
Definition re_bold : RegExp :=
  mkRegExp (Chars [LT] @@ Opt (Chars (str "/"))
            @@ Alt (Chars (str "b")) (Chars (str "strong"))
            @@ attrs_close) true.

(** [<\/?(?:i|em)] and the shared tail, flags [gi]. *)
Definition re_italic : RegExp :=
  mkRegExp (Chars [LT] @@ Opt (Chars (str "/"))
            @@ Alt (Chars (str "i")) (Chars (str "em"))
            @@ attrs_close) true.

(** [<\/?(?:s|strike|del)] and the shared tail, flags [gi]. *)
Definition re_strike : RegExp :=
  mkRegExp (Chars [LT] @@ Opt (Chars (str "/"))
            @@ Alt (Chars (str "s"))
                   (Alt (Chars (str "strike")) (Chars (str "del")))
            @@ attrs_close) true.

(** [/<li[^>]*>([\s\S]*?)<\/li>/gi] *)
Definition re_li : RegExp :=
  mkRegExp (Chars (str "<li") @@ star (not_char GT) @@ Chars [GT]
            @@ Group 1 (star_lazily any_char) @@ Chars (str "</li>")) true.

(** [<\/?(?:ul|ol)] and the shared tail, flags [gi]. *)
Definition re_list : RegExp :=
  mkRegExp (Chars [LT] @@ Opt (Chars (str "/"))
            @@ Alt (Chars (str "ul")) (Chars (str "ol"))
            @@ attrs_close) true.

(** [/<h[1-6][^>]*>([\s\S]*?)<\/h[1-6]>/gi] *)
Definition re_heading : RegExp :=
  mkRegExp (Chars (str "<h") @@ Class is_1_to_6 @@ star (not_char GT)
            @@ Chars [GT] @@ Group 1 (star_lazily any_char)
            @@ Chars (str "</h") @@ Class is_1_to_6 @@ Chars [GT]) true.

(** [/<[^>]+>/g] *)
Definition re_tag : RegExp :=
  mkRegExp (Chars [LT] @@ plus (not_char GT) @@ Chars [GT]) false.

(** The temporary markers [\x00LINK_START] and [\x00LINK_END]. *)
Definition LINK_START : jsstring := NUL :: str "LINK_START".
Definition LINK_END : jsstring := NUL :: str "LINK_END".

(** [/\x00LINK_START/g] and [/\x00LINK_END/g] *)
Definition re_link_start : RegExp := mkRegExp (Chars LINK_START) false.
Definition re_link_end : RegExp := mkRegExp (Chars LINK_END) false.

(** [/\n{3,}/g] *)
Definition re_newlines : RegExp := mkRegExp (Rep 3 true (is_char LF)) false.

(** [/&#(\d+);/g] *)
Definition re_dec : RegExp :=
  mkRegExp (Chars (str "&#") @@ Group 1 (plus is_digit) @@ Chars (str ";"))
           false.

(** [/&#x([0-9a-fA-F]+);/g] *)
Definition re_hex : RegExp :=
  mkRegExp (Chars (str "&#x") @@ Group 1 (plus is_hex_digit)
            @@ Chars (str ";")) false.

(** ** decodeHtmlEntities *)

(** The table [entities], in the order of its keys. *)
Definition entities : list (jsstring * jsstring) :=
  [ (str "&amp;", str "&");
    (str "&lt;", str "<");
    (str "&gt;", str ">");
    (str "&nbsp;", str " ");
    (str "&quot;", [QUOT]);
    (str "&#39;", str "'");
    (str "&apos;", str "'");
    (str "&ndash;", [8211]);
    (str "&mdash;", [8212]);
    (str "&hellip;", [8230]);
    (str "&laquo;", [171]);
    (str "&raquo;", [187]);
    (str "&bull;", [BULLET]);
    (str "&copy;", [169]);
    (str "&reg;", [174]);
    (str "&trade;", [8482]) ].

(** One round of the loop over the table:
    [result.split(entity).join(replacement)]. *)
Definition replace_entity (result : jsstring) (e : jsstring * jsstring)
  : jsstring :=
  join (snd e) (split (fst e) result).

Definition decode_named (text : jsstring) : jsstring :=
  fold_left replace_entity entities text.

(** The callbacks of the two numeric patterns. *)
Definition decode_dec : replaceValue :=
  ReplFn (fun _ groups =>
            Normal (fromCharCode (parseInt (to_string (groups 1%nat)) 10))).

Definition decode_hex : replaceValue :=
  ReplFn (fun _ groups =>
            Normal (fromCharCode (parseInt (to_string (groups 1%nat)) 16))).

(** [decodeHtmlEntities]: the table, then decimal, then hexadecimal
    entities. *)
Definition decodeHtmlEntities (text : jsstring) : completion jsstring :=
  let result := decode_named text in
  result <- replace re_dec decode_dec result ;;
  result <- replace re_hex decode_hex result ;;
  Normal result.

(** ** htmlToMrkdwn *)

(** The callback of the list items: a newline, a bullet, a space, and the
    content trimmed. *)
Definition bullet_item : replaceValue :=
  ReplFn (fun _ groups =>
            content <- method_on (groups 1%nat) trim ;;
            Normal ([LF; BULLET; 32] ++ content)).

(** The callback of the headings: the content trimmed, between stars, on a
    line of its own. *)
Definition bold_line : replaceValue :=
  ReplFn (fun _ groups =>
            content <- method_on (groups 1%nat) trim ;;
            Normal ([LF; 42] ++ content ++ [42; LF])).

(** The replacement string of the link stage. *)
Definition link_placeholder : jsstring :=
  LINK_START ++ str "$1|$2" ++ LINK_END.

(** [htmlToMrkdwn]: the empty string is returned at once ([!html] holds of
    no other string); any other input passes through every stage. *)
Definition htmlToMrkdwn (html : jsstring) : completion jsstring :=
  match html with
  | [] => Normal html
  | _ :: _ =>
      let text := html in
      text <- replace re_br (ReplString [LF]) text ;;
      text <- replace re_p_boundary (ReplString [LF; LF]) text ;;
      text <- replace re_p_open (ReplString []) text ;;
      text <- replace re_p_close (ReplString [LF; LF]) text ;;
      text <- replace re_link (ReplString link_placeholder) text ;;
      text <- replace re_bold (ReplString (str "*")) text ;;
      text <- replace re_italic (ReplString (str "_")) text ;;
      text <- replace re_strike (ReplString (str "~")) text ;;
      text <- replace re_li bullet_item text ;;
      text <- replace re_list (ReplString [LF]) text ;;
      text <- replace re_heading bold_line text ;;
      text <- replace re_tag (ReplString []) text ;;
      text <- replace re_link_start (ReplString (str "<")) text ;;
      text <- replace re_link_end (ReplString (str ">")) text ;;
      text <- decodeHtmlEntities text ;;
      text <- replace re_newlines (ReplString [LF; LF]) text ;;
      Normal (trim text)
  end.

(** * Notions used in the statements *)

(** [binds i r]: every successful path through [r] passes group [i]. *)
Fixpoint binds (i : nat) (r : regex) : bool :=
  match r with
  | Chars _ | Class _ | Rep _ _ _ | Opt _ => false
  | Alt r1 r2 => binds i r1 && binds i r2
  | Cat r1 r2 => binds i r1 || binds i r2
  | Group j r1 => Nat.eqb i j || binds i r1
  end.

(** Group [i] has a text among the captures. *)
Definition bound (i : nat) (cs : captures) : Prop := capture i cs <> None.

(** Every capture satisfies an invariant of code units. *)
Definition caps_ok (P : char -> Prop) (cs : captures) : Prop :=
  Forall (fun e => Forall P (snd e)) cs.

(** [wf_char] as a test. *)
Definition wf_charb (c : char) : bool := (0 <=? c) && (c <? 65536).

(** The literal every match of the pattern must start with, when it has
    one. *)
Fixpoint head_char (r : regex) : option char :=
  match r with
  | Chars (x :: _) => Some x
  | Cat r1 _ => head_char r1
  | Group _ r1 => head_char r1
  | _ => None
  end.

(** The character [x] occurs in [s]. *)
Definition has_char (x : char) (s : jsstring) : bool :=
  existsb (fun c => c =? x) s.

(** The last stages of [htmlToMrkdwn], named: the two substitutions that
    restore the markers, the clean-up of white space, and all of them from
    the restoring on. *)
Definition restore_links (text : jsstring) : completion jsstring :=
  text <- replace re_link_start (ReplString (str "<")) text ;;
  replace re_link_end (ReplString (str ">")) text.

Definition cleanup (text : jsstring) : completion jsstring :=
  text <- replace re_newlines (ReplString [LF; LF]) text ;;
  Normal (trim text).

Definition finish (text : jsstring) : completion jsstring :=
  text <- restore_links text ;;
  text <- decodeHtmlEntities text ;;
  cleanup text.

(** What [/\n{3,}/g] with replacement of two newlines computes: of every
    run of newlines the first two are kept.  [run] counts the newlines
    kept so far in the current run. *)
Fixpoint squeeze (run : nat) (s : jsstring) : jsstring :=
  match s with
  | [] => []
  | c :: s' =>
      if c =? LF then
        if Nat.ltb run 2 then c :: squeeze (S run) s' else squeeze 2 s'
      else c :: squeeze 0 s'
  end.

(** The length of the run of newlines [s] starts with. *)
Fixpoint nl_run (s : jsstring) : nat :=
  match s with
  | c :: s' => if c =? LF then S (nl_run s') else 0
  | [] => 0
  end.

(** No run of three or more newlines anywhere in [s]. *)
Fixpoint nl_runs_ok (s : jsstring) : bool :=
  match s with
  | [] => true
  | _ :: s' => Nat.ltb (nl_run s) 3 && nl_runs_ok s'
  end.

(** The first character, if any, is not white space. *)
Definition starts_clean (s : jsstring) : bool :=
  match s with
  | c :: _ => negb (is_space c)
  | [] => true
  end.

(** No white space at either end. *)
Definition is_trimmed (s : jsstring) : bool :=
  starts_clean s && starts_clean (rev s).

(** [stops p rest]: a star over [p] cannot read into [rest]. *)
Definition stops (p : char -> bool) (rest : jsstring) : Prop :=
  match rest with
  | c :: _ => p c = false
  | [] => True
  end.

(** The same text up to the case of ASCII letters. *)
Fixpoint same_ci (xs ys : jsstring) : bool :=
  match xs, ys with
  | [], [] => true
  | x :: xs', y :: ys' => char_match true x y && same_ci xs' ys'
  | _, _ => false
  end.

(** The attributes of an inline tag as its pattern reads them: nothing, or
    a white-space character and then anything but [>]. *)
Definition tag_attrs (attrs : jsstring) : bool :=
  match attrs with
  | [] => true
  | w :: a => is_space w && negb (has_char GT a)
  end.

(** The value of a string of digits in a radix. *)
Definition radix_value (radix : Z) (ds : jsstring) : Z :=
  fold_left
    (fun a c => a * radix + match digit_value c with Some d => d | None => 0 end)
    ds 0.

(** The literal [href=] with its opening double quote. *)
Definition HREF : jsstring := str "href=" ++ [QUOT].

(** [pat] stands at the head of [s], in any case. *)
Definition starts_ci (pat s : jsstring) : bool :=
  match match_chars true pat s with
  | Some _ => true
  | None => false
  end.

(** [href_free s]: no place in [s] where [href=] and a double quote start,
    in any case. *)
Fixpoint href_free (s : jsstring) : bool :=
  match s with
  | [] => true
  | _ :: s' => negb (starts_ci HREF s) && href_free s'
  end.

(** The opening tag of an anchor, from its name to the closing bracket. *)
Definition anchor_open (w : char) (before url after : jsstring) : jsstring :=
  str "<a" ++ w :: before ++ HREF ++ url ++ QUOT :: after ++ [GT].

(** An anchor element: the opening tag, the label, the closing tag. *)
Definition anchor (w : char) (before url after label : jsstring)
  : jsstring :=
  anchor_open w before url after ++ label ++ str "</a>".

(** The text between the two [<] of an anchor, and the text from behind the
    second on. *)
Definition anchor_inner (w : char) (before url after label : jsstring)
  : jsstring :=
  str "a" ++ w :: before ++ HREF ++ url ++ QUOT :: after ++ GT :: label.

(** What follows the second [<] of an anchor, before the text [B]. *)
Definition anchor_behind (B : jsstring) : jsstring := str "/a>" ++ B.

(** Text that holds no tag, no entity and no marker character. *)
Definition plain (s : jsstring) : bool :=
  negb (has_char LT s) && negb (has_char AMP s) && negb (has_char NUL s).

(** Text of a tag: no angle bracket. *)
Definition attr_text (s : jsstring) : bool :=
  negb (has_char LT s) && negb (has_char GT s).

(** What the link stage writes for an anchor. *)
Definition placeholder (url label : jsstring) : jsstring :=
  LINK_START ++ url ++ str "|" ++ label ++ LINK_END.

(** A text between double quotes. *)
Definition quoted (s : jsstring) : jsstring := QUOT :: s ++ [QUOT].

(** The tag names of the inline styles with their delimiters. *)
Definition inline_styles : list (jsstring * char) :=
  [ (str "b", 42); (str "strong", 42);
    (str "i", 95); (str "em", 95);
    (str "s", 126); (str "strike", 126); (str "del", 126) ].

(** An element: an opening tag, a text, the closing tag. *)
Definition tag_pair (name t : jsstring) : jsstring :=
  LT :: name ++ GT :: t ++ LT :: 47 :: name ++ [GT].

(** A text that is not empty, has no white space at either end and no run
    of three or more newlines. *)
Definition tidy (s : jsstring) : bool :=
  negb (match s with [] => true | _ => false end)
  && is_trimmed s && nl_runs_ok s.

(** Two paragraphs, with white space between them. *)
Definition two_paragraphs (a ws b : jsstring) : jsstring :=
  str "<p>" ++ a ++ str "</p>" ++ ws ++ str "<p>" ++ b ++ str "</p>".

(** [matches ic r w cs cs']: the text [w] is a match of [r], and a match
    that starts with the captures [cs] ends with the captures [cs']. *)
Inductive matches (ic : bool)
  : regex -> jsstring -> captures -> captures -> Prop :=
| matches_Chars xs w cs :
    match_chars ic xs w = Some [] -> matches ic (Chars xs) w cs cs
| matches_Class (p : char -> bool) c cs :
    p c = true -> matches ic (Class p) [c] cs cs
| matches_Rep min greedy (p : char -> bool) w cs :
    forallb p w = true -> (min <= length w)%nat ->
    matches ic (Rep min greedy p) w cs cs
| matches_Opt_some r w cs cs' :
    matches ic r w cs cs' -> matches ic (Opt r) w cs cs'
| matches_Opt_none r cs : matches ic (Opt r) [] cs cs
| matches_Alt_left r1 r2 w cs cs' :
    matches ic r1 w cs cs' -> matches ic (Alt r1 r2) w cs cs'
| matches_Alt_right r1 r2 w cs cs' :
    matches ic r2 w cs cs' -> matches ic (Alt r1 r2) w cs cs'
| matches_Cat r1 r2 w1 w2 cs cs' cs'' :
    matches ic r1 w1 cs cs' -> matches ic r2 w2 cs' cs'' ->
    matches ic (Cat r1 r2) (w1 ++ w2) cs cs''
| matches_Group i r w cs cs' :
    matches ic r w cs cs' -> matches ic (Group i r) w cs ((i, w) :: cs').

(** The literal every match of the pattern ends with, when it has one. *)
Fixpoint last_char (r : regex) : option char :=
  match r with
  | Chars cs => match rev cs with x :: _ => Some x | [] => None end
  | Cat _ r2 => last_char r2
  | Group _ r1 => last_char r1
  | _ => None
  end.

(** [avoids x r]: no match of [r] holds the character [x]; for [x] that is
    no letter. *)
Fixpoint avoids (x : char) (r : regex) : bool :=
  match r with
  | Chars cs => negb (has_char x cs)
  | Class p | Rep _ _ p => negb (p x)
  | Opt r1 | Group _ r1 => avoids x r1
  | Alt r1 r2 | Cat r1 r2 => avoids x r1 && avoids x r2
  end.

(** [ends_at x r]: every match of [r] ends with [x] and holds no other
    [x]. *)
Fixpoint ends_at (x : char) (r : regex) : bool :=
  match r with
  | Chars cs =>
      match rev cs with
      | y :: pre => (y =? x) && negb (has_char x pre)
      | [] => false
      end
  | Cat r1 r2 => avoids x r1 && ends_at x r2
  | Group _ r1 => ends_at x r1
  | _ => false
  end.

(** A pattern that reads one tag: from [<] to the first [>], without
    groups. *)
Definition tag_pattern (re : RegExp) : bool :=
  match head_char (pattern re) with
  | Some x => x =? LT
  | None => false
  end
  && ends_at GT (pattern re) && Nat.eqb (ngroups (pattern re)) 0.

(** The text before the first [x] of [s], and the text behind it. *)
Fixpoint cut_at (x : char) (s : jsstring) : option (jsstring * jsstring) :=
  match s with
  | [] => None
  | c :: s' =>
      if c =? x then Some ([], s')
      else match cut_at x s' with
           | Some (g, rest) => Some (c :: g, rest)
           | None => None
           end
  end.

(** The pattern matches the tag [<g>] standing alone. *)
Definition accepts (re : RegExp) (g : jsstring) : bool :=
  match exec_at re (LT :: g ++ [GT]) with
  | Some _ => true
  | None => false
  end.

(** A tag that [ok] accepts stands at the head of [s]: what follows it. *)
Definition tag_at (ok : jsstring -> bool) (s : jsstring) : option jsstring :=
  match s with
  | c :: s' =>
      if c =? LT then
        match cut_at GT s' with
        | Some (g, rest) => if ok g then Some rest else None
        | None => None
        end
      else None
  | [] => None
  end.

(** The scan of a global replacement, for a recogniser [at_] of what is
    replaced, each time by the text [d]: [at_ s] is what follows the
    recognised text at the head of [s].  [skip] counts the characters of
    the recognised text still to pass. *)
Fixpoint scan (at_ : jsstring -> option jsstring) (d : jsstring)
         (s : jsstring) (skip : nat) : jsstring :=
  match s with
  | [] => []
  | c :: s' =>
      match skip with
      | S n => scan at_ d s' n
      | O =>
          match at_ s with
          | Some rest =>
              match (length s - length rest)%nat with
              | O => d ++ c :: scan at_ d s' 0
              | S n => d ++ scan at_ d s' n
              end
          | None => c :: scan at_ d s' 0
          end
      end
  end.

(** [determined re]: a text has at most one match of [re] at its head,
    with one set of captures. *)
Definition determined (re : RegExp) : Prop :=
  forall w1 w2 cs1 cs2 t1 t2,
    matches (ignoreCase re) (pattern re) w1 [] cs1 ->
    matches (ignoreCase re) (pattern re) w2 [] cs2 ->
    w1 ++ t1 = w2 ++ t2 -> w1 = w2 /\ cs1 = cs2.

(** [bounded re P s]: no match of [re] that starts in [P] reaches into the
    text [s] behind [P]. *)
Definition bounded (re : RegExp) (P s : jsstring) : Prop :=
  forall u v w cs t,
    P = u ++ v -> v <> [] ->
    matches (ignoreCase re) (pattern re) w [] cs ->
    v ++ s = w ++ t -> (length w <= length v)%nat.

(** [tail_lacks re c]: no match of [re] holds [c] behind its first
    character. *)
Definition tail_lacks (re : RegExp) (c : char) : Prop :=
  forall w cs,
    matches (ignoreCase re) (pattern re) w [] cs ->
    exists h w', w = h :: w' /\ has_char c w' = false.

(** [inert c]: the code unit [c] stands in no entity of the table behind
    the ampersand. *)
Definition inert (c : char) : bool :=
  forallb (fun e => negb (has_char c (tl (fst e)))) entities.

(** [unmatched X e]: the text [X], whatever follows it, does not begin
    with the entity [e]. *)
Definition unmatched (X : jsstring) (e : jsstring * jsstring) : Prop :=
  forall s, starts_with (fst e) (X ++ s) = false.

(** [outside_numeric c]: the code unit [c] stands in no numeric entity
    behind the ampersand. *)
Definition outside_numeric (c : char) : bool :=
  negb (is_hex_digit c) && negb (c =? 35) && negb (c =? 120)
  && negb (c =? 59).

(** * Properties of the matcher and of [replace] *)

(** ** Every success of the matcher is a success of its continuation *)

Section MatcherCalls.
Variable A : Type.
Variable ic : bool.
(** An invariant of the input that its suffixes and factors inherit. *)
Variable P : char -> Prop.

Lemma match_chars_suffix xs : forall s s',
  match_chars ic xs s = Some s' -> Forall P s -> Forall P s'.
Proof.
  induction xs as [|x xs IH]; intros s s' H Hs; simpl in H.
  - now inversion H; subst.
  - destruct s as [|c s]; [discriminate|].
    destruct (char_match ic x c); [|discriminate].
    inversion Hs; subst. eauto.
Qed.

Lemma star_greedy_calls p (k : jsstring -> option A) v : forall s,
  star_greedy p s k = Some v -> Forall P s ->
  exists s', k s' = Some v /\ Forall P s'.
Proof.
  induction s as [|c s IH]; simpl; intros H Hs.
  - eauto.
  - destruct (p c); [|eauto].
    destruct (star_greedy p s k) eqn:E.
    + inversion H; subst. inversion Hs; subst. eauto.
    + eauto.
Qed.

Lemma star_lazy_calls p (k : jsstring -> option A) v : forall s,
  star_lazy p s k = Some v -> Forall P s ->
  exists s', k s' = Some v /\ Forall P s'.
Proof.
  induction s as [|c s IH]; simpl; intros H Hs.
  - destruct (k []) eqn:E; [|discriminate]. inversion H; subst. eauto.
  - destruct (k (c :: s)) eqn:E.
    + inversion H; subst. eauto.
    + destruct (p c); [|discriminate]. inversion Hs; subst. eauto.
Qed.

Lemma rep_calls greedy p (k : jsstring -> option A) v : forall min s,
  rep min greedy p s k = Some v -> Forall P s ->
  exists s', k s' = Some v /\ Forall P s'.
Proof.
  induction min as [|n IH]; simpl; intros s H Hs.
  - destruct greedy; eauto using star_greedy_calls, star_lazy_calls.
  - destruct s as [|c s]; [discriminate|].
    destruct (p c); [|discriminate]. inversion Hs; subst. eauto.
Qed.

Lemma consumed_ok s s' : Forall P s -> Forall P (consumed s s').
Proof.
  intros Hs. unfold consumed.
  rewrite <- (firstn_skipn (length s - length s') s) in Hs.
  now apply Forall_app in Hs.
Qed.

Lemma m_calls : forall r s cs (k : cont A) v,
  m ic r s cs k = Some v -> Forall P s -> caps_ok P cs ->
  exists s' cs',
    k s' cs' = Some v /\ Forall P s' /\ caps_ok P cs'
    /\ (forall i, bound i cs -> bound i cs')
    /\ (forall i, binds i r = true -> bound i cs').
Proof.
  induction r as [xs|p|min greedy p|r1 IH1|r1 IH1 r2 IH2|r1 IH1 r2 IH2|j r1 IH1];
    intros s cs k v H Hs Hcs; simpl in H.
  - destruct (match_chars ic xs s) as [s'|] eqn:E; [|discriminate].
    exists s', cs. repeat split; eauto using match_chars_suffix.
    simpl; discriminate.
  - destruct s as [|c s]; [discriminate|].
    destruct (p c); [|discriminate]. inversion Hs; subst.
    exists s, cs. repeat split; auto. simpl; discriminate.
  - apply rep_calls in H; auto. destruct H as (s' & H & Hs').
    exists s', cs. repeat split; auto. simpl; discriminate.
  - destruct (m ic r1 s cs k) eqn:E.
    + inversion H; subst.
      destruct (IH1 _ _ _ _ E Hs Hcs) as (s' & cs' & ? & ? & ? & ? & ?).
      exists s', cs'. repeat split; auto. simpl; discriminate.
    + exists s, cs. repeat split; auto. simpl; discriminate.
  - destruct (m ic r1 s cs k) eqn:E.
    + inversion H; subst.
      destruct (IH1 _ _ _ _ E Hs Hcs) as (s' & cs' & ? & ? & ? & ? & Hb).
      exists s', cs'. repeat split; auto.
      simpl. intros i Hi. apply andb_prop in Hi. apply Hb, Hi.
    + destruct (IH2 _ _ _ _ H Hs Hcs) as (s' & cs' & ? & ? & ? & ? & Hb).
      exists s', cs'. repeat split; auto.
      simpl. intros i Hi. apply andb_prop in Hi. apply Hb, Hi.
  - destruct (IH1 _ _ _ _ H Hs Hcs) as (s1 & cs1 & H1 & Hs1 & Hcs1 & Hm1 & Hb1).
    destruct (IH2 _ _ _ _ H1 Hs1 Hcs1) as (s2 & cs2 & H2 & Hs2 & Hcs2 & Hm2 & Hb2).
    exists s2, cs2. repeat split; auto.
    simpl. intros i Hi. apply orb_prop in Hi. destruct Hi; auto.
  - destruct (IH1 _ _ _ _ H Hs Hcs) as (s1 & cs1 & H1 & Hs1 & Hcs1 & Hm1 & Hb1).
    exists s1, ((j, consumed s s1) :: cs1). repeat split; auto.
    + constructor; auto. simpl. now apply consumed_ok.
    + intros i Hi. unfold bound in *. simpl.
      destruct (Nat.eqb i j); [discriminate|auto].
    + simpl. intros i Hi. unfold bound in *. simpl.
      destruct (Nat.eqb i j); [discriminate|]. simpl in Hi. auto.
Qed.
End MatcherCalls.

Lemma exec_at_inv (P : char -> Prop) re s rest cs :
  exec_at re s = Some (rest, cs) -> Forall P s ->
  Forall P rest /\ caps_ok P cs
  /\ (forall i, binds i (pattern re) = true -> bound i cs).
Proof.
  intros H Hs. unfold exec_at in H.
  eapply m_calls in H; eauto; [|constructor].
  destruct H as (s' & cs' & H & ? & ? & _ & ?).
  inversion H; subst. auto.
Qed.

(** ** [replace] returns when its replacement does *)

Lemma capture_ok (P : char -> Prop) i cs v :
  caps_ok P cs -> capture i cs = Some v -> Forall P v.
Proof.
  induction cs as [|[j w] cs IH]; simpl; intros Hcs H; [discriminate|].
  inversion Hcs; subst.
  destruct (Nat.eqb i j).
  - inversion H; subst. assumption.
  - auto.
Qed.

Lemma getSubstitution_ok (P : char -> Prop) matched cs n :
  Forall P matched -> caps_ok P cs ->
  forall tmpl, Forall P tmpl -> Forall P (getSubstitution matched cs n tmpl).
Proof.
  intros Hm Hcs tmpl.
  remember (length tmpl) as len eqn:Hlen.
  assert (Hle : (length tmpl <= len)%nat) by lia. clear Hlen.
  revert tmpl Hle.
  induction len as [|len IH]; intros [|c rest] Hle Ht; simpl in *;
    try constructor; try lia.
  inversion Ht as [|? ? Hc Hrest]; subst.
  destruct (c =? 36) eqn:Ec.
  - destruct rest as [|d rest']; [auto|].
    inversion Hrest as [|? ? Hd Hrest']; subst. simpl in Hle.
    apply Z.eqb_eq in Ec. subst c.
    destruct (d =? 36); [constructor; auto; apply IH; auto; lia|].
    destruct (d =? 38); [apply Forall_app; split; auto; apply IH; auto; lia|].
    destruct ((49 <=? d) && (d <=? 57) && Nat.leb (Z.to_nat (d - 48)) n).
    + apply Forall_app; split; [|apply IH; auto; lia].
      destruct (capture (Z.to_nat (d - 48)) cs) eqn:E; [|constructor].
      eapply capture_ok; eauto.
    + constructor; auto. apply IH; auto. simpl. lia.
  - constructor; auto. apply IH; auto. lia.
Qed.

Section ReplaceReturns.
Variable P : char -> Prop.
Variable re : RegExp.
Variable rv : replaceValue.

Hypothesis rv_returns : forall matched cs,
  Forall P matched -> caps_ok P cs ->
  (forall i, binds i (pattern re) = true -> bound i cs) ->
  exists r, replacement re rv matched cs = Normal r /\ Forall P r.

Lemma replace_from_returns : forall s skip,
  Forall P s ->
  exists out, replace_from re rv s skip = Normal out /\ Forall P out.
Proof.
  induction s as [|c s IH]; intros skip Hs.
  - simpl. destruct skip; [|eauto].
    destruct (exec_at re []) as [[rest cs]|] eqn:E; [|eauto].
    destruct (@exec_at_inv P _ _ _ _ E Hs) as (_ & Hcs & Hb).
    apply rv_returns; auto.
  - inversion Hs as [|? ? Hc Hs']; subst.
    destruct skip as [|n]; [|simpl; auto].
    cbn [replace_from].
    destruct (exec_at re (c :: s)) as [[rest cs]|] eqn:E.
    + destruct (@exec_at_inv P _ _ _ _ E Hs) as (_ & Hcs & Hb).
      destruct (length (c :: s) - length rest)%nat as [|n].
      * destruct (rv_returns (matched := [])) with (cs := cs)
          as (r & -> & Hr); auto.
        destruct (IH 0%nat Hs') as (out & -> & Hout).
        simpl. eexists; split; [reflexivity|].
        apply Forall_app; auto.
      * destruct (rv_returns (matched := consumed (c :: s) rest))
          with (cs := cs) as (r & -> & Hr); auto using consumed_ok.
        destruct (IH n Hs') as (out & -> & Hout).
        simpl. eexists; split; [reflexivity|].
        apply Forall_app; auto.
    + destruct (IH 0%nat Hs') as (out & -> & Hout).
      simpl. eauto.
Qed.

Lemma replace_returns s :
  Forall P s ->
  exists out, replace re rv s = Normal out /\ Forall P out.
Proof. apply replace_from_returns. Qed.
End ReplaceReturns.

(** A replacement string never throws. *)
Lemma replace_string_returns (P : char -> Prop) re tmpl s :
  Forall P tmpl -> Forall P s ->
  exists out, replace re (ReplString tmpl) s = Normal out /\ Forall P out.
Proof.
  intros Ht. apply replace_returns. intros matched cs Hm Hcs _.
  simpl. eexists; split; [reflexivity|].
  now apply getSubstitution_ok.
Qed.

(** A callback that trims group 1 returns when the pattern binds group 1. *)
Lemma method_on_bound {A : Type} cs (f : jsstring -> A) :
  bound 1 cs -> exists v, capture 1 cs = Some v
                          /\ method_on (capture 1 cs) f = Normal (f v).
Proof.
  unfold bound. destruct (capture 1 cs) as [v|]; [eauto|congruence].
Qed.

Lemma trimStart_ok (P : char -> Prop) s : Forall P s -> Forall P (trimStart s).
Proof.
  induction s as [|c s IH]; simpl; intros H; [constructor|].
  destruct (is_space c); [inversion H; auto|assumption].
Qed.

Lemma trim_ok (P : char -> Prop) s : Forall P s -> Forall P (trim s).
Proof.
  intros H. unfold trim, trimEnd.
  apply Forall_rev, trimStart_ok, Forall_rev, trimStart_ok, H.
Qed.

Lemma toUint16_wf x : wf_char (toUint16 x).
Proof.
  unfold wf_char. destruct x; simpl; try lia.
  apply Z.mod_pos_bound. lia.
Qed.

Lemma wf_string_check s : forallb wf_charb s = true -> wf_string s.
Proof.
  intros H. apply Forall_forall. intros c Hc.
  rewrite forallb_forall in H. specialize (H c Hc).
  unfold wf_charb in H. unfold wf_char. lia.
Qed.

Section Returns.
(** An invariant of code units that every well-formed code unit has: the
    trivial one, or well-formedness itself. *)
Variable P : char -> Prop.
Hypothesis P_wf : forall c, wf_char c -> P c.

Lemma P_checked s : forallb wf_charb s = true -> Forall P s.
Proof.
  intros H. apply wf_string_check in H.
  eapply Forall_impl; [apply P_wf|exact H].
Qed.

Lemma split_from_ok sep : forall s skip,
  Forall P s -> Forall (Forall P) (split_from sep s skip).
Proof.
  induction s as [|c s IH]; intros skip Hs; simpl.
  - repeat constructor.
  - inversion Hs; subst. destruct skip; [|auto].
    destruct (starts_with sep (c :: s)).
    + constructor; auto.
    + specialize (IH 0%nat H2).
      destruct (split_from sep s 0); repeat constructor; auto;
        inversion IH; subst; auto.
Qed.

Lemma split_ok sep s : Forall P s -> Forall (Forall P) (split sep s).
Proof.
  intros Hs. destruct sep; simpl; [|now apply split_from_ok].
  induction Hs; simpl; repeat constructor; auto.
Qed.

Lemma join_ok sep : Forall P sep ->
  forall pieces, Forall (Forall P) pieces -> Forall P (join sep pieces).
Proof.
  intros Hsep. induction pieces as [|p rest IH]; intros H; simpl.
  - constructor.
  - inversion H; subst. destruct rest; [assumption|].
    apply Forall_app; split; [assumption|].
    apply Forall_app; split; auto.
Qed.

Lemma decode_named_ok : forall s, Forall P s -> Forall P (decode_named s).
Proof.
  unfold decode_named.
  assert (He : Forall (fun e => Forall P (snd e)) entities).
  { apply Forall_forall. intros e He. apply P_checked.
    revert e He. apply Forall_forall. now vm_compute; repeat constructor. }
  revert He. generalize entities.
  induction l as [|e l IH]; intros He s Hs; simpl; [assumption|].
  inversion He; subst. apply IH; auto.
  unfold replace_entity. apply join_ok; auto. now apply split_ok.
Qed.

Lemma decode_numeric_returns re radix s :
  Forall P s ->
  exists out,
    replace re
      (ReplFn (fun _ groups =>
         Normal (fromCharCode (parseInt (to_string (groups 1%nat)) radix))))
      s = Normal out /\ Forall P out.
Proof.
  apply replace_returns. intros matched cs _ _ _. simpl.
  eexists; split; [reflexivity|].
  repeat constructor. apply P_wf, toUint16_wf.
Qed.

Lemma decodeHtmlEntities_returns s :
  Forall P s ->
  exists out, decodeHtmlEntities s = Normal out /\ Forall P out.
Proof.
  intros Hs. unfold decodeHtmlEntities, decode_dec, decode_hex.
  destruct (@decode_numeric_returns re_dec 10 (decode_named s))
    as (t1 & -> & H1); [now apply decode_named_ok|].
  cbn [bind].
  destruct (@decode_numeric_returns re_hex 16 t1) as (t2 & -> & H2);
    [assumption|].
  cbn [bind]. eauto.
Qed.

(** The callbacks of the list items and of the headings call [trim] on
    group 1, which both patterns bind on every path. *)
Lemma bullet_item_returns s :
  Forall P s ->
  exists out, replace re_li bullet_item s = Normal out /\ Forall P out.
Proof.
  apply replace_returns. intros matched cs _ Hcs Hb. simpl.
  destruct (method_on_bound trim (Hb 1%nat eq_refl)) as (v & Hv & ->).
  cbn [bind]. eexists; split; [reflexivity|].
  apply (Forall_app P [LF; BULLET; 32] (trim v)).
  split; [now apply P_checked|].
  eapply trim_ok, capture_ok; eauto.
Qed.

Lemma bold_line_returns s :
  Forall P s ->
  exists out, replace re_heading bold_line s = Normal out /\ Forall P out.
Proof.
  apply replace_returns. intros matched cs _ Hcs Hb. simpl.
  destruct (method_on_bound trim (Hb 1%nat eq_refl)) as (v & Hv & ->).
  cbn [bind]. eexists; split; [reflexivity|].
  apply (Forall_app P [LF; 42] (trim v ++ [42; LF])).
  split; [now apply P_checked|].
  apply Forall_app; split; [|now apply P_checked].
  eapply trim_ok, capture_ok; eauto.
Qed.

Lemma htmlToMrkdwn_returns html :
  Forall P html ->
  exists out, htmlToMrkdwn html = Normal out /\ Forall P out.
Proof.
  intros H. unfold htmlToMrkdwn.
  destruct html as [|c0 html0]; [eauto|].
  remember (c0 :: html0) as text eqn:E. clear E.
  repeat match goal with
  | |- exists out, bind (replace ?re (ReplString ?tmpl) ?s) _ = _ /\ _ =>
      let t := fresh "text" in
      let Ht := fresh "H" in
      destruct (@replace_string_returns P re tmpl s) as (t & -> & Ht);
      [now apply P_checked|assumption|cbn [bind]]
  | |- exists out, bind (replace re_li bullet_item ?s) _ = _ /\ _ =>
      let t := fresh "text" in
      let Ht := fresh "H" in
      destruct (@bullet_item_returns s) as (t & -> & Ht);
      [assumption|cbn [bind]]
  | |- exists out, bind (replace re_heading bold_line ?s) _ = _ /\ _ =>
      let t := fresh "text" in
      let Ht := fresh "H" in
      destruct (@bold_line_returns s) as (t & -> & Ht);
      [assumption|cbn [bind]]
  | |- exists out, bind (decodeHtmlEntities ?s) _ = _ /\ _ =>
      let t := fresh "text" in
      let Ht := fresh "H" in
      destruct (@decodeHtmlEntities_returns s) as (t & -> & Ht);
      [assumption|cbn [bind]]
  end.
  eexists; split; [reflexivity|]. now apply trim_ok.
Qed.
End Returns.

(** ** Where a pattern cannot match *)

Lemma has_char_app x s t :
  has_char x (s ++ t) = has_char x s || has_char x t.
Proof. apply existsb_app. Qed.

Lemma has_char_cons x c s :
  has_char x (c :: s) = (c =? x) || has_char x s.
Proof. reflexivity. Qed.

(** A literal that is no letter matches itself only, whatever the case
    flag. *)
Lemma char_match_nonletter ic x c :
  x < 65 -> char_match ic x c = (c =? x).
Proof.
  intros Hx. unfold char_match, canonicalize. destruct ic; [|reflexivity].
  replace ((97 <=? x) && (x <=? 122)) with false by lia.
  destruct ((97 <=? c) && (c <=? 122)) eqn:E; lia.
Qed.

Lemma m_head_fail (A : Type) ic x : forall r s cs (k : cont A),
  head_char r = Some x ->
  match s with
  | [] => True
  | c :: _ => char_match ic x c = false
  end ->
  m ic r s cs k = None.
Proof.
  induction r as [xs|p|min greedy p|r1 IH1|r1 IH1 r2 IH2|r1 IH1 r2 IH2|j r1 IH1];
    intros s cs k Hh Hs; simpl in Hh; try discriminate; simpl.
  - destruct xs as [|y xs]; [discriminate|]. inversion Hh; subst.
    simpl. destruct s as [|c s]; [reflexivity|]. now rewrite Hs.
  - now apply IH1.
  - now apply IH1.
Qed.

Lemma exec_at_head_fail re x s :
  head_char (pattern re) = Some x ->
  match s with
  | [] => True
  | c :: _ => char_match (ignoreCase re) x c = false
  end ->
  exec_at re s = None.
Proof. intros. unfold exec_at. eapply m_head_fail; eauto. Qed.

Lemma bind_Normal {A : Type} (c : completion A) :
  bind c (fun a => Normal a) = c.
Proof. now destruct c. Qed.

Section Scan.
Variable re : RegExp.
Variable rv : replaceValue.

(** A position where the pattern fails is copied. *)
Lemma replace_from_miss c s :
  exec_at re (c :: s) = None ->
  replace_from re rv (c :: s) 0 =
  (out <- replace_from re rv s 0 ;; Normal (c :: out)).
Proof. intros H. cbn [replace_from]. now rewrite H. Qed.

(** A match that is not empty is replaced, and the scan goes on behind
    it. *)
Lemma replace_from_skip : forall xs ys,
  replace_from re rv (xs ++ ys) (length xs) = replace_from re rv ys 0.
Proof.
  induction xs as [|x xs IH]; intros ys; simpl; [|apply IH].
  destruct ys; reflexivity.
Qed.

Lemma replace_from_hit c xs ys cs :
  exec_at re (c :: xs ++ ys) = Some (ys, cs) ->
  replace_from re rv (c :: xs ++ ys) 0 =
  (r <- replacement re rv (c :: xs) cs ;;
   out <- replace_from re rv ys 0 ;;
   Normal (r ++ out)).
Proof.
  intros H. cbn [replace_from]. rewrite H.
  assert (Hlen : (length (c :: xs ++ ys) - length ys)%nat = S (length xs)).
  { cbn [length]. rewrite length_app. lia. }
  assert (Hcons : consumed (c :: xs ++ ys) ys = c :: xs).
  { unfold consumed. rewrite Hlen.
    change (c :: xs ++ ys) with ((c :: xs) ++ ys).
    replace (S (length xs)) with (length (c :: xs) + 0)%nat
      by (cbn [length]; lia).
    rewrite firstn_app_2. cbn [firstn]. now rewrite app_nil_r. }
  rewrite Hlen, Hcons. now rewrite replace_from_skip.
Qed.

Variable x : char.
Hypothesis re_head : head_char (pattern re) = Some x.
Hypothesis x_nonletter : x < 65.

Lemma exec_at_other c s : c <> x -> exec_at re (c :: s) = None.
Proof.
  intros Hc. apply (exec_at_head_fail re (c :: s) re_head).
  rewrite char_match_nonletter by assumption. lia.
Qed.

Lemma exec_at_nil : exec_at re [] = None.
Proof. exact (exec_at_head_fail re [] re_head I). Qed.

(** A stretch without the head character is copied. *)
Lemma replace_from_pass : forall xs ys,
  has_char x xs = false ->
  replace_from re rv (xs ++ ys) 0 =
  (out <- replace_from re rv ys 0 ;; Normal (xs ++ out)).
Proof.
  induction xs as [|c xs IH]; intros ys Hxs.
  - simpl. now rewrite bind_Normal.
  - rewrite has_char_cons in Hxs. apply orb_false_elim in Hxs.
    destruct Hxs as [Hc Hxs].
    change ((c :: xs) ++ ys) with (c :: xs ++ ys).
    rewrite replace_from_miss by (apply exec_at_other; lia).
    rewrite IH by assumption.
    destruct (replace_from re rv ys 0); reflexivity.
Qed.

Lemma replace_from_nil : replace_from re rv [] 0 = Normal [].
Proof. simpl. now rewrite exec_at_nil. Qed.

(** Without the head character nothing is replaced. *)
Lemma replace_absent s : has_char x s = false -> replace re rv s = Normal s.
Proof.
  intros H. unfold replace.
  rewrite <- (app_nil_r s) at 1.
  rewrite replace_from_pass by assumption.
  rewrite replace_from_nil. simpl. now rewrite app_nil_r.
Qed.
End Scan.

(** ** The stages after tag stripping *)

(** *** Named entities *)

Lemma starts_with_other x sep c s :
  c <> x -> starts_with (x :: sep) (c :: s) = false.
Proof. intros H. simpl. replace (c =? x) with false by lia. reflexivity. Qed.

Lemma split_from_absent x sep : forall s,
  has_char x s = false -> split_from (x :: sep) s 0 = [s].
Proof.
  induction s as [|c s IH]; intros H; [reflexivity|].
  rewrite has_char_cons in H. apply orb_false_elim in H. destruct H as [Hc H].
  cbn [split_from]. rewrite starts_with_other by lia. now rewrite IH.
Qed.

Lemma replace_entity_absent x sep r s :
  has_char x s = false -> replace_entity s (x :: sep, r) = s.
Proof.
  intros H. unfold replace_entity, split. cbn [fst snd].
  now rewrite split_from_absent.
Qed.

Lemma entities_start_with_amp :
  Forall (fun e => exists sep, fst e = AMP :: sep) entities.
Proof. repeat constructor; eexists; reflexivity. Qed.

Lemma decode_named_absent s : has_char AMP s = false -> decode_named s = s.
Proof.
  intros H. unfold decode_named.
  generalize entities_start_with_amp. generalize entities.
  induction l as [|[e r] l IH]; intros Hl; [reflexivity|].
  inversion Hl as [|? ? [sep He] Hl']; subst. simpl in He. subst e.
  cbn [fold_left]. rewrite replace_entity_absent by assumption. auto.
Qed.

Lemma decodeHtmlEntities_absent s :
  has_char AMP s = false -> decodeHtmlEntities s = Normal s.
Proof.
  intros H. unfold decodeHtmlEntities.
  rewrite decode_named_absent by assumption.
  rewrite (replace_absent re_dec decode_dec (x := AMP)) by (auto; reflexivity).
  cbn [bind].
  rewrite (replace_absent re_hex decode_hex (x := AMP)) by (auto; reflexivity).
  reflexivity.
Qed.

Lemma restore_links_absent s :
  has_char NUL s = false -> restore_links s = Normal s.
Proof.
  intros H. unfold restore_links.
  rewrite (replace_absent re_link_start _ (x := NUL)) by (auto; reflexivity).
  cbn [bind].
  now rewrite (replace_absent re_link_end _ (x := NUL)) by (auto; reflexivity).
Qed.

(** Every pattern of the stages up to tag stripping starts with [<]. *)
Lemma htmlToMrkdwn_no_tags s :
  has_char LT s = false -> htmlToMrkdwn s = finish s.
Proof.
  intros H. destruct s as [|c s]; [reflexivity|].
  unfold htmlToMrkdwn, finish, restore_links, cleanup.
  remember (c :: s) as text eqn:E. clear E.
  repeat (rewrite (replace_absent _ _ (x := LT)) by (auto; reflexivity);
          cbn [bind]).
  destruct (replace re_link_start (ReplString (str "<")) text); [|reflexivity].
  cbn [bind].
  destruct (replace re_link_end (ReplString (str ">")) a); reflexivity.
Qed.

Lemma htmlToMrkdwn_plain s :
  has_char LT s = false -> has_char NUL s = false ->
  has_char AMP s = false ->
  htmlToMrkdwn s = cleanup s.
Proof.
  intros Hlt Hnul Hamp. rewrite htmlToMrkdwn_no_tags by assumption.
  unfold finish. rewrite restore_links_absent by assumption. cbn [bind].
  now rewrite decodeHtmlEntities_absent.
Qed.

(** *** Runs of newlines *)

Lemma star_greedy_always (A : Type) p : forall s,
  exists run rest,
    s = run ++ rest /\ forallb p run = true
    /\ match rest with c :: _ => p c = false | [] => True end
    /\ forall k : jsstring -> option A,
         k rest <> None -> star_greedy p s k = k rest.
Proof.
  induction s as [|c s IH]; simpl.
  - exists [], []. auto.
  - destruct (p c) eqn:E.
    + destruct IH as (run & rest & -> & Hrun & Hrest & Hk).
      exists (c :: run), rest. simpl. rewrite E, Hrun.
      repeat split; auto. intros k Hrest'.
      rewrite Hk by assumption. destruct (k rest); congruence.
    + exists [], (c :: s). auto.
Qed.

Lemma nl_run_le s : (nl_run s <= length s)%nat.
Proof.
  induction s as [|c s IH]; simpl; [lia|]. destruct (c =? LF); lia.
Qed.

Lemma nl_run_app run rest :
  forallb (is_char LF) run = true ->
  match rest with c :: _ => is_char LF c = false | [] => True end ->
  nl_run (run ++ rest) = length run.
Proof.
  intros Hrun Hrest. induction run as [|c run IH]; simpl in *.
  - destruct rest as [|c rest]; [reflexivity|].
    simpl. unfold is_char in Hrest. now rewrite Hrest.
  - apply andb_prop in Hrun. destruct Hrun as [Hc Hrun].
    unfold is_char in Hc. rewrite Hc. now rewrite IH.
Qed.

(** The pattern [\n{3,}] matches exactly the whole run of newlines at the
    head of the input, when that run has three newlines or more. *)
Lemma exec_at_newlines s :
  exec_at re_newlines s =
  if Nat.leb 3 (nl_run s) then Some (skipn (nl_run s) s, []) else None.
Proof.
  unfold exec_at. cbn [pattern ignoreCase re_newlines m rep].
  destruct s as [|c1 s]; [reflexivity|]. cbn [nl_run]. unfold is_char at 1.
  destruct (c1 =? LF); [|reflexivity].
  destruct s as [|c2 s]; [reflexivity|]. cbn [nl_run]. unfold is_char at 1.
  destruct (c2 =? LF); [|reflexivity].
  destruct s as [|c3 s]; [reflexivity|]. cbn [nl_run]. unfold is_char at 1.
  destruct (c3 =? LF); [|reflexivity].
  destruct (star_greedy_always (jsstring * captures) (is_char LF) s)
    as (run & rest & -> & Hrun & Hrest & ->); [|discriminate].
  rewrite (nl_run_app _ _ Hrun Hrest). cbn [Nat.leb skipn].
  now rewrite skipn_app, skipn_all, Nat.sub_diag.
Qed.

Lemma squeeze_small : forall s r,
  (nl_run s + r <= 2)%nat -> squeeze r s = squeeze 0 s.
Proof.
  induction s as [|c s IH]; intros r H; [reflexivity|]. simpl in *.
  destruct (c =? LF); [|reflexivity].
  replace (Nat.ltb r 2) with true by (symmetry; apply Nat.ltb_lt; lia).
  rewrite (IH (S r)) by lia. now rewrite (IH 1%nat) by lia.
Qed.

Lemma collapse_squeeze : forall s,
  replace_from re_newlines (ReplString [LF; LF]) s 0 = Normal (squeeze 0 s)
  /\ replace_from re_newlines (ReplString [LF; LF]) s (nl_run s)
     = Normal (squeeze 2 s).
Proof.
  induction s as [|c s [IHA IHB]]; [split; reflexivity|].
  assert (A : replace_from re_newlines (ReplString [LF; LF]) (c :: s) 0
              = Normal (squeeze 0 (c :: s))).
  { cbn [replace_from]. rewrite exec_at_newlines. cbn [nl_run squeeze].
    destruct (c =? LF) eqn:Ec.
    - destruct (Nat.leb 3 (S (nl_run s))) eqn:E3.
      + apply Nat.leb_le in E3.
        cbn [skipn]. pose proof (nl_run_le s) as Hle.
        replace (length (c :: s) - length (skipn (nl_run s) s))%nat
          with (S (nl_run s))
          by (cbn [length]; rewrite length_skipn; lia).
        cbn [replacement bind]. rewrite IHB. cbn [bind].
        destruct s as [|c2 s]; [simpl in E3; lia|].
        cbn [nl_run] in E3. cbn [squeeze].
        destruct (c2 =? LF) eqn:Ec2; [|lia].
        apply Z.eqb_eq in Ec, Ec2. subst. reflexivity.
      + apply Nat.leb_gt in E3.
        rewrite IHA. cbn [bind Nat.ltb Nat.leb].
        now rewrite (squeeze_small s 1) by lia.
    - rewrite IHA. reflexivity. }
  split; [exact A|].
  cbn [nl_run]. destruct (c =? LF) eqn:Ec.
  - cbn [replace_from]. rewrite IHB. cbn [squeeze]. now rewrite Ec.
  - rewrite A. cbn [squeeze]. now rewrite Ec.
Qed.

Lemma cleanup_squeeze s : cleanup s = Normal (trim (squeeze 0 s)).
Proof.
  unfold cleanup, replace. now rewrite (proj1 (collapse_squeeze s)).
Qed.

Lemma squeeze_ok : forall s r,
  (r <= 2)%nat ->
  nl_runs_ok (squeeze r s) = true /\ (nl_run (squeeze r s) + r <= 2)%nat.
Proof.
  induction s as [|c s IH]; intros r Hr; simpl; [split; [reflexivity|lia]|].
  destruct (c =? LF) eqn:Ec.
  - destruct (Nat.ltb r 2) eqn:Er.
    + apply Nat.ltb_lt in Er.
      destruct (IH (S r)) as [H1 H2]; [lia|].
      simpl. rewrite Ec, H1.
      split; [|lia]. rewrite andb_true_r. apply Nat.ltb_lt. lia.
    + apply Nat.ltb_ge in Er. assert (r = 2)%nat by lia. subst r.
      apply IH. lia.
  - destruct (IH 0%nat) as [H1 H2]; [lia|].
    simpl. rewrite Ec, H1. split; [reflexivity|lia].
Qed.

Lemma nl_runs_ok_run s : nl_runs_ok s = true -> (nl_run s <= 2)%nat.
Proof.
  destruct s as [|c s]; simpl; [lia|]. intros H.
  apply andb_prop in H. destruct H as [H _].
  apply Nat.ltb_lt in H. lia.
Qed.

Lemma squeeze_id : forall s r,
  nl_runs_ok s = true -> (nl_run s + r <= 2)%nat -> squeeze r s = s.
Proof.
  induction s as [|c s IH]; intros r Hok Hr; [reflexivity|].
  simpl in *. apply andb_prop in Hok. destruct Hok as [_ Hok].
  destruct (c =? LF).
  - replace (Nat.ltb r 2) with true by (symmetry; apply Nat.ltb_lt; lia).
    rewrite IH; auto. lia.
  - rewrite IH; auto. apply nl_runs_ok_run in Hok. lia.
Qed.

Lemma nl_runs_ok_suffix a : forall b,
  nl_runs_ok (a ++ b) = true -> nl_runs_ok b = true.
Proof.
  induction a as [|c a IH]; intros b H; [assumption|].
  simpl in H. apply andb_prop in H. apply IH, H.
Qed.

Lemma nl_run_prefix a b : (nl_run a <= nl_run (a ++ b))%nat.
Proof.
  induction a as [|c a IH]; simpl; [lia|]. destruct (c =? LF); lia.
Qed.

Lemma nl_runs_ok_prefix a b :
  nl_runs_ok (a ++ b) = true -> nl_runs_ok a = true.
Proof.
  induction a as [|c a IH]; intros H; [reflexivity|].
  change ((c :: a) ++ b) with (c :: a ++ b) in H.
  cbn [nl_runs_ok] in *. apply andb_prop in H. destruct H as [H1 H2].
  rewrite IH by assumption. rewrite andb_true_r.
  apply Nat.ltb_lt. apply Nat.ltb_lt in H1.
  pose proof (nl_run_prefix (c :: a) b). simpl in *. lia.
Qed.

(** *** trim *)

Lemma trimStart_split s : exists a, s = a ++ trimStart s.
Proof.
  induction s as [|c s [a IH]]; simpl; [now exists []|].
  destruct (is_space c).
  - exists (c :: a). simpl. now rewrite <- IH.
  - now exists [].
Qed.

Lemma trimStart_clean s : starts_clean (trimStart s) = true.
Proof.
  induction s as [|c s IH]; simpl; [reflexivity|].
  destruct (is_space c) eqn:E; [assumption|]. simpl. now rewrite E.
Qed.

Lemma trimStart_id s : starts_clean s = true -> trimStart s = s.
Proof.
  destruct s as [|c s]; simpl; [reflexivity|].
  intros H. apply negb_true_iff in H. now rewrite H.
Qed.

Lemma trimStart_snoc c : is_space c = false ->
  forall s, trimStart (s ++ [c]) = trimStart s ++ [c].
Proof.
  intros Hc. induction s as [|d s IH]; simpl; [now rewrite Hc|].
  destruct (is_space d); auto.
Qed.

Lemma trim_trimmed s : is_trimmed (trim s) = true.
Proof.
  unfold is_trimmed, trim, trimEnd. rewrite rev_involutive, trimStart_clean.
  rewrite andb_true_r.
  pose proof (trimStart_clean s) as H.
  destruct (trimStart s) as [|c t]; [reflexivity|].
  simpl in H. apply negb_true_iff in H.
  simpl rev. rewrite trimStart_snoc by assumption.
  rewrite rev_app_distr. simpl. now rewrite H.
Qed.

Lemma trim_id s : is_trimmed s = true -> trim s = s.
Proof.
  unfold is_trimmed, trim, trimEnd. intros H.
  apply andb_prop in H. destruct H as [H1 H2].
  rewrite (trimStart_id s H1), (trimStart_id _ H2). apply rev_involutive.
Qed.

Lemma trim_factor s : exists a b, s = a ++ trim s ++ b.
Proof.
  unfold trim, trimEnd.
  destruct (trimStart_split s) as [a Ha].
  destruct (trimStart_split (rev (trimStart s))) as [b Hb].
  exists a, (rev b). rewrite <- rev_app_distr, <- Hb, rev_involutive.
  exact Ha.
Qed.

Lemma trim_runs_ok s : nl_runs_ok s = true -> nl_runs_ok (trim s) = true.
Proof.
  intros H. destruct (trim_factor s) as (a & b & E). rewrite E in H.
  apply nl_runs_ok_suffix in H. now apply nl_runs_ok_prefix in H.
Qed.

(** *** What [cleanup] returns *)

Lemma cleanup_clean s out :
  cleanup s = Normal out -> nl_runs_ok out = true /\ is_trimmed out = true.
Proof.
  rewrite cleanup_squeeze. intros H. inversion H; subst. split.
  - apply trim_runs_ok, squeeze_ok. lia.
  - apply trim_trimmed.
Qed.

Lemma cleanup_id s :
  nl_runs_ok s = true -> is_trimmed s = true -> cleanup s = Normal s.
Proof.
  intros H1 H2. rewrite cleanup_squeeze.
  rewrite squeeze_id by (auto; apply nl_runs_ok_run in H1; lia).
  now rewrite trim_id.
Qed.

Lemma bind_inv {A B : Type} (c : completion A) (f : A -> completion B) b :
  bind c f = Normal b -> exists a, c = Normal a /\ f a = Normal b.
Proof. destruct c; simpl; [eauto|discriminate]. Qed.

(** The last two steps of [htmlToMrkdwn] are those of [cleanup]. *)
Lemma htmlToMrkdwn_cleanup html out :
  htmlToMrkdwn html = Normal out -> exists text, cleanup text = Normal out.
Proof.
  destruct html as [|c html].
  - intros H. inversion H; subst. now exists [].
  - unfold htmlToMrkdwn. remember (c :: html) as text eqn:E. clear E.
    intros H.
    do 15 (apply bind_inv in H; destruct H as (? & _ & H)).
    eexists. unfold cleanup. exact H.
Qed.

Lemma htmlToMrkdwn_clean html out :
  htmlToMrkdwn html = Normal out ->
  nl_runs_ok out = true /\ is_trimmed out = true.
Proof.
  intros H. apply htmlToMrkdwn_cleanup in H. destruct H as [text H].
  eapply cleanup_clean; eauto.
Qed.

(** Text without tags, entities and marker characters, already clean, is a
    fixed point. *)
Lemma htmlToMrkdwn_fixed s :
  has_char LT s = false -> has_char AMP s = false ->
  has_char NUL s = false ->
  nl_runs_ok s = true -> is_trimmed s = true ->
  htmlToMrkdwn s = Normal s.
Proof.
  intros. rewrite htmlToMrkdwn_plain by assumption. now apply cleanup_id.
Qed.

(** * Matching a tag written with unknown parts *)

Section Stars.
Variable A : Type.
Variable p : char -> bool.

Lemma star_greedy_none (k : jsstring -> option A) rest : forall ys,
  (forall a b, ys = a ++ b -> k (b ++ rest) = None) ->
  stops p rest ->
  star_greedy p (ys ++ rest) k = None.
Proof.
  induction ys as [|c ys IH]; intros Hk Hrest.
  - simpl. specialize (Hk [] [] eq_refl). simpl in Hk.
    destruct rest as [|c rest]; [assumption|].
    simpl in *. now rewrite Hrest.
  - simpl. destruct (p c).
    + rewrite IH; auto.
      * exact (Hk [] (c :: ys) eq_refl).
      * intros a b E. apply (Hk (c :: a) b). now rewrite E.
    + exact (Hk [] (c :: ys) eq_refl).
Qed.

(** A greedy star over a stretch of [p] followed by [rest] tries the stop
    before [rest] first. *)
Lemma star_greedy_app (k : jsstring -> option A) rest : forall xs,
  forallb p xs = true -> stops p rest ->
  star_greedy p (xs ++ rest) k =
  match k rest with
  | Some v => Some v
  | None => star_greedy p xs (fun t => k (t ++ rest))
  end.
Proof.
  induction xs as [|c xs IH]; intros Hxs Hrest.
  - simpl. destruct rest as [|c rest]; simpl in *.
    + now destruct (k []).
    + rewrite Hrest. now destruct (k (c :: rest)).
  - simpl in Hxs. apply andb_prop in Hxs. destruct Hxs as [Hc Hxs].
    simpl. rewrite Hc, IH by assumption.
    destruct (k rest); [reflexivity|].
    now destruct (star_greedy p xs (fun t => k (t ++ rest))).
Qed.

(** Backtracking: the star gives back characters until the continuation
    succeeds; it settles at the last place where it does. *)
Lemma star_greedy_last (k : jsstring -> option A) v xs2 : forall xs1,
  forallb p xs1 = true ->
  k xs2 = Some v ->
  (forall a b, xs2 = a ++ b -> a <> [] -> k b = None) ->
  star_greedy p (xs1 ++ xs2) k = Some v.
Proof.
  intros xs1 H1 Hv Hnone.
  assert (H2 : star_greedy p xs2 k = Some v).
  { destruct xs2 as [|c ys]; [exact Hv|].
    simpl. destruct (p c); [|exact Hv].
    pose proof (@star_greedy_none k [] ys) as Hn.
    rewrite app_nil_r in Hn. rewrite Hn; [exact Hv| |exact I].
    intros a b E. rewrite app_nil_r. apply (Hnone (c :: a) b).
    - now rewrite E.
    - discriminate. }
  induction xs1 as [|c xs1 IH]; [exact H2|].
  simpl in H1. apply andb_prop in H1. destruct H1 as [Hc H1].
  simpl. now rewrite Hc, IH.
Qed.

(** A lazy star passes the places where the continuation fails. *)
Lemma star_lazy_app (k : jsstring -> option A) rest : forall xs,
  forallb p xs = true ->
  (forall a b, xs = a ++ b -> b <> [] -> k (b ++ rest) = None) ->
  star_lazy p (xs ++ rest) k = star_lazy p rest k.
Proof.
  induction xs as [|c xs IH]; intros Hxs Hk; [reflexivity|].
  simpl in Hxs. apply andb_prop in Hxs. destruct Hxs as [Hc Hxs].
  assert (H0 : k (c :: xs ++ rest) = None)
    by (apply (Hk [] (c :: xs)); [reflexivity|discriminate]).
  simpl. rewrite H0, Hc. apply IH; [assumption|].
  intros a b E Hb. apply (Hk (c :: a) b); [now rewrite E|assumption].
Qed.
End Stars.

Lemma match_chars_same_ci rest : forall xs ys,
  same_ci xs ys = true -> match_chars true xs (ys ++ rest) = Some rest.
Proof.
  induction xs as [|x xs IH]; intros [|y ys] H; simpl in *;
    try discriminate; [reflexivity|].
  apply andb_prop in H. destruct H as [Hx H]. rewrite Hx. auto.
Qed.

Section Hit.
Variable re : RegExp.
Variable rv : replaceValue.

(** A match that is not empty, at the head of the text. *)
Lemma replace_from_match mt ys cs :
  mt <> [] ->
  exec_at re (mt ++ ys) = Some (ys, cs) ->
  replace_from re rv (mt ++ ys) 0 =
  (r <- replacement re rv mt cs ;;
   out <- replace_from re rv ys 0 ;;
   Normal (r ++ out)).
Proof.
  destruct mt as [|c xs]; [congruence|]. intros _ H.
  now apply replace_from_hit.
Qed.
End Hit.

(** Goal-directed rules for a match along a known path. *)
Section Paths.
Variable A : Type.
Variable ic : bool.
Implicit Types (k : cont A) (v : A).

Lemma m_Cat_ok r1 r2 s cs k v :
  m ic r1 s cs (fun s' cs' => m ic r2 s' cs' k) = Some v ->
  m ic (r1 @@ r2) s cs k = Some v.
Proof. exact (fun H => H). Qed.

Lemma m_Group_ok i r s cs k v :
  m ic r s cs (fun s' cs' => k s' ((i, consumed s s') :: cs')) = Some v ->
  m ic (Group i r) s cs k = Some v.
Proof. exact (fun H => H). Qed.

Lemma m_Chars_ok xs s s' cs k v :
  match_chars ic xs s = Some s' -> k s' cs = Some v ->
  m ic (Chars xs) s cs k = Some v.
Proof. intros H Hk. simpl. now rewrite H. Qed.

Lemma m_Class_ok p c s cs k v :
  p c = true -> k s cs = Some v -> m ic (Class p) (c :: s) cs k = Some v.
Proof. intros H Hk. simpl. now rewrite H. Qed.

Lemma m_star_ok p xs rest cs k v :
  forallb p xs = true -> stops p rest -> k rest cs = Some v ->
  m ic (star p) (xs ++ rest) cs k = Some v.
Proof.
  intros Hxs Hrest Hk. cbn [star m rep].
  rewrite star_greedy_app by assumption. now rewrite Hk.
Qed.

Lemma m_plus_ok p c xs rest cs k v :
  p c = true -> forallb p xs = true -> stops p rest ->
  k rest cs = Some v ->
  m ic (plus p) (c :: xs ++ rest) cs k = Some v.
Proof.
  intros Hc Hxs Hrest Hk. cbn [plus m rep]. rewrite Hc.
  rewrite star_greedy_app by assumption. now rewrite Hk.
Qed.

Lemma m_lazy_ok p xs rest cs k v :
  forallb p xs = true ->
  (forall a b, xs = a ++ b -> b <> [] -> k (b ++ rest) cs = None) ->
  k rest cs = Some v ->
  m ic (star_lazily p) (xs ++ rest) cs k = Some v.
Proof.
  intros Hxs Hnone Hk. cbn [star_lazily m rep].
  rewrite star_lazy_app by assumption.
  destruct rest; simpl; now rewrite Hk.
Qed.

Lemma m_Opt_take r s cs k v :
  m ic r s cs k = Some v -> m ic (Opt r) s cs k = Some v.
Proof. intros H. simpl. now rewrite H. Qed.

Lemma m_Opt_skip r s cs k v :
  m ic r s cs k = None -> k s cs = Some v -> m ic (Opt r) s cs k = Some v.
Proof. intros H Hk. simpl. now rewrite H. Qed.

Lemma m_Alt_left r1 r2 s cs k v :
  m ic r1 s cs k = Some v -> m ic (Alt r1 r2) s cs k = Some v.
Proof. intros H. simpl. now rewrite H. Qed.

Lemma m_Alt_right r1 r2 s cs k v :
  m ic r1 s cs k = None -> m ic r2 s cs k = Some v ->
  m ic (Alt r1 r2) s cs k = Some v.
Proof. intros H Hk. simpl. now rewrite H. Qed.
End Paths.

Lemma consumed_app xs rest : consumed (xs ++ rest) rest = xs.
Proof.
  unfold consumed. rewrite length_app.
  replace (length xs + length rest - length rest)%nat
    with (length xs + 0)%nat by lia.
  rewrite firstn_app_2. simpl. apply app_nil_r.
Qed.

(** ** Line breaks *)

Lemma exec_at_br br ws slash post :
  same_ci (str "br") br = true -> forallb is_space ws = true ->
  slash = [] \/ slash = str "/" ->
  exec_at re_br (LT :: br ++ ws ++ slash ++ GT :: post) = Some (post, []).
Proof.
  intros Hbr Hws Hslash. unfold exec_at, re_br. cbn [pattern ignoreCase].
  apply m_Cat_ok. eapply m_Chars_ok.
  { change (str "<br") with (LT :: str "br"). cbn [match_chars].
    replace (char_match true LT LT) with true by reflexivity.
    now apply match_chars_same_ci. }
  cbv beta. apply m_Cat_ok.
  destruct Hslash; subst slash.
  - eapply m_star_ok; [assumption|reflexivity|]. cbv beta. reflexivity.
  - eapply m_star_ok; [assumption|reflexivity|]. cbv beta. reflexivity.
Qed.

Lemma replace_in_context re rv x pre mt post cs :
  head_char (pattern re) = Some x -> x < 65 ->
  has_char x pre = false -> mt <> [] ->
  exec_at re (mt ++ post) = Some (post, cs) ->
  replace re rv (pre ++ mt ++ post) =
  (r <- replacement re rv mt cs ;;
   out <- replace re rv post ;;
   Normal (pre ++ r ++ out)).
Proof.
  intros Hh Hx Hpre Hmt He. unfold replace.
  rewrite (replace_from_pass re rv Hh Hx) by assumption.
  rewrite replace_from_match with (cs := cs) by assumption.
  destruct (replacement re rv mt cs); [|reflexivity]. cbn [bind].
  destruct (replace_from re rv post 0); reflexivity.
Qed.

Lemma squeeze_pass a t : has_char LF a = false ->
  squeeze 0 (a ++ t) = a ++ squeeze 0 t.
Proof.
  induction a as [|c a IH]; intros H; [reflexivity|].
  rewrite has_char_cons in H. apply orb_false_elim in H. destruct H as [Hc H].
  simpl. rewrite Hc. now rewrite IH.
Qed.

Lemma squeeze_run b : stops (is_char LF) b ->
  forall n, squeeze 2 (repeat LF n ++ b) = squeeze 0 b.
Proof.
  intros Hb. induction n as [|n IH]; simpl.
  - apply squeeze_small. destruct b as [|c b]; simpl in *; [lia|].
    unfold is_char in Hb. rewrite Hb. lia.
  - exact IH.
Qed.

(** ** Tags with attributes *)

Lemma not_gt_forallb a :
  has_char GT a = false -> forallb (not_char GT) a = true.
Proof.
  induction a as [|c a IH]; intros H; [reflexivity|].
  rewrite has_char_cons in H. apply orb_false_elim in H. destruct H as [Hc H].
  simpl. unfold not_char at 1. rewrite Hc. auto.
Qed.

Lemma attrs_close_ok (A : Type) ic attrs post cs (k : cont A) v :
  tag_attrs attrs = true -> k post cs = Some v ->
  m ic attrs_close (attrs ++ GT :: post) cs k = Some v.
Proof.
  intros Ha Hk. unfold attrs_close. apply m_Cat_ok.
  destruct attrs as [|w a].
  - apply m_Opt_skip; [reflexivity|]. cbv beta.
    eapply m_Chars_ok; [|exact Hk].
    simpl. now rewrite char_match_nonletter by reflexivity.
  - simpl in Ha. apply andb_prop in Ha. destruct Ha as [Hw Ha].
    apply negb_true_iff in Ha.
    apply m_Opt_take, m_Cat_ok.
    change ((w :: a) ++ GT :: post) with (w :: a ++ GT :: post).
    apply m_Class_ok; [assumption|]. cbv beta.
    apply m_star_ok; [now apply not_gt_forallb|reflexivity|]. cbv beta.
    eapply m_Chars_ok; [|exact Hk].
    simpl. now rewrite char_match_nonletter by reflexivity.
Qed.

Lemma attrs_close_fail (A : Type) ic c s cs (k : cont A) :
  is_space c = false -> c <> GT ->
  m ic attrs_close (c :: s) cs k = None.
Proof.
  intros Hs Hc. unfold attrs_close. simpl. rewrite Hs.
  rewrite char_match_nonletter by reflexivity.
  now replace (c =? GT) with false by lia.
Qed.

(** A letter of a pattern under the [i] flag stands for itself and its
    upper-case form. *)
Lemma char_match_letter x c :
  97 <= x <= 122 -> char_match true x c = true -> c = x \/ c = x - 32.
Proof.
  intros Hx H. unfold char_match, canonicalize in H.
  replace ((97 <=? x) && (x <=? 122)) with true in H by lia.
  destruct ((97 <=? c) && (c <=? 122)) eqn:E; lia.
Qed.

Lemma same_ci_head x xs ys :
  same_ci (x :: xs) ys = true ->
  exists y ys', ys = y :: ys' /\ char_match true x y = true
                /\ same_ci xs ys' = true.
Proof.
  destruct ys as [|y ys']; simpl; [discriminate|]. intros H.
  apply andb_prop in H. destruct H. eauto.
Qed.

Lemma same_ci_nil ys : same_ci [] ys = true -> ys = [].
Proof. destruct ys; [reflexivity|discriminate]. Qed.

(** Splits a text equal to a pattern literal up to case into its
    characters, each a letter in one of its two cases. *)
Ltac ci_split H :=
  repeat match type of H with
  | same_ci (str _) _ = true => cbv [str list_ascii_of_string List.map] in H;
      simpl Z.of_N in H
  | same_ci (_ :: _) _ = true =>
      let y := fresh "y" in
      let Hy := fresh "Hy" in
      apply same_ci_head in H; destruct H as (y & ? & -> & Hy & H);
      first [ apply char_match_letter in Hy; [|lia]
            | rewrite char_match_nonletter in Hy by lia;
              apply Z.eqb_eq in Hy ]
  | same_ci [] _ = true => apply same_ci_nil in H; subst
  end.

Lemma m_Chars_then (A : Type) ic xs s s' cs (k : cont A) :
  match_chars ic xs s = Some s' -> k s' cs = None ->
  m ic (Chars xs) s cs k = None.
Proof. intros H Hk. simpl. now rewrite H. Qed.

(** Walks the alternatives of an inline-tag pattern for a tag name that is
    known. *)
Ltac walk_alternatives Hattrs :=
  first
    [ eapply m_Chars_ok; [reflexivity|]; cbv beta;
      apply attrs_close_ok; [exact Hattrs|reflexivity]
    | apply m_Alt_left; eapply m_Chars_ok; [reflexivity|]; cbv beta;
      apply attrs_close_ok; [exact Hattrs|reflexivity]
    | apply m_Alt_right;
      [ first [ reflexivity
              | eapply m_Chars_then; [reflexivity|]; cbv beta;
                apply attrs_close_fail; [reflexivity|discriminate] ]
      | walk_alternatives Hattrs ] ].

Ltac inline_tag Hslash Hname Hattrs :=
  repeat match type of Hname with
  | _ || _ = true => apply orb_prop in Hname; destruct Hname as [Hname|Hname]
  end;
  ci_split Hname;
  repeat match goal with H : _ \/ _ |- _ => destruct H end; subst;
  cbn [pattern ignoreCase];
  apply m_Cat_ok; (eapply m_Chars_ok; [reflexivity|]); cbv beta;
  apply m_Cat_ok;
  [> (first [ apply m_Opt_take; (eapply m_Chars_ok; [reflexivity|])
            | apply m_Opt_skip; [reflexivity|] ];
      cbv beta; apply m_Cat_ok; walk_alternatives Hattrs) .. ].

Lemma exec_at_bold slash name attrs post :
  slash = [] \/ slash = str "/" ->
  same_ci (str "b") name || same_ci (str "strong") name = true ->
  tag_attrs attrs = true ->
  exec_at re_bold (LT :: slash ++ name ++ attrs ++ GT :: post)
  = Some (post, []).
Proof.
  intros Hslash Hname Hattrs. unfold exec_at, re_bold.
  inline_tag Hslash Hname Hattrs.
Qed.

Lemma exec_at_italic slash name attrs post :
  slash = [] \/ slash = str "/" ->
  same_ci (str "i") name || same_ci (str "em") name = true ->
  tag_attrs attrs = true ->
  exec_at re_italic (LT :: slash ++ name ++ attrs ++ GT :: post)
  = Some (post, []).
Proof.
  intros Hslash Hname Hattrs. unfold exec_at, re_italic.
  inline_tag Hslash Hname Hattrs.
Qed.

Lemma exec_at_strike slash name attrs post :
  slash = [] \/ slash = str "/" ->
  same_ci (str "s") name || same_ci (str "strike") name
  || same_ci (str "del") name = true ->
  tag_attrs attrs = true ->
  exec_at re_strike (LT :: slash ++ name ++ attrs ++ GT :: post)
  = Some (post, []).
Proof.
  intros Hslash Hname Hattrs. unfold exec_at, re_strike.
  inline_tag Hslash Hname Hattrs.
Qed.

(** ** Paragraphs *)

Lemma m_Chars_ci (A : Type) xs ys rest cs (k : cont A) v :
  same_ci xs ys = true -> k rest cs = Some v ->
  m true (Chars xs) (ys ++ rest) cs k = Some v.
Proof.
  intros H Hk. eapply m_Chars_ok; [|exact Hk].
  now apply match_chars_same_ci.
Qed.

Lemma same_ci_lt xs ys :
  same_ci (LT :: xs) ys = true ->
  exists ys', ys = LT :: ys' /\ same_ci xs ys' = true.
Proof.
  intros H. apply same_ci_head in H. destruct H as (y & ys' & -> & Hy & H).
  rewrite char_match_nonletter in Hy by reflexivity.
  apply Z.eqb_eq in Hy. subst. eauto.
Qed.

Lemma exec_at_p_open open attrs post :
  same_ci (str "<p") open = true -> has_char GT attrs = false ->
  exec_at re_p_open (open ++ attrs ++ GT :: post) = Some (post, []).
Proof.
  intros Ho Ha. unfold exec_at, re_p_open. cbn [pattern ignoreCase].
  apply m_Cat_ok. apply m_Chars_ci; [assumption|]. cbv beta.
  apply m_Cat_ok. apply m_star_ok; [now apply not_gt_forallb|reflexivity|].
  reflexivity.
Qed.

Lemma exec_at_p_close close post :
  same_ci (str "</p>") close = true ->
  exec_at re_p_close (close ++ post) = Some (post, []).
Proof.
  intros Hc. unfold exec_at, re_p_close. cbn [pattern ignoreCase].
  now apply m_Chars_ci.
Qed.

Lemma exec_at_p_boundary close ws open attrs post :
  same_ci (str "</p>") close = true -> forallb is_space ws = true ->
  same_ci (str "<p") open = true -> has_char GT attrs = false ->
  exec_at re_p_boundary (close ++ ws ++ open ++ attrs ++ GT :: post)
  = Some (post, []).
Proof.
  intros Hc Hws Ho Ha. unfold exec_at, re_p_boundary.
  cbn [pattern ignoreCase].
  apply m_Cat_ok. apply m_Chars_ci; [assumption|]. cbv beta.
  apply m_Cat_ok.
  pose proof Ho as Ho'. apply same_ci_lt in Ho'.
  destruct Ho' as (open' & E & _).
  apply m_star_ok; [assumption|now rewrite E|]. cbv beta.
  apply m_Cat_ok. apply m_Chars_ci; [assumption|]. cbv beta.
  apply m_Cat_ok. apply m_star_ok; [now apply not_gt_forallb|reflexivity|].
  reflexivity.
Qed.

(** ** Numeric entities *)

Lemma digits_value_all radix valid :
  (forall c, valid c = true ->
             exists d, digit_value c = Some d /\ (d <? radix) = true) ->
  forall ds acc,
  forallb valid ds = true ->
  digits_value radix (Some acc) ds
  = Some (fold_left
            (fun a c => a * radix
                        + match digit_value c with Some d => d | None => 0 end)
            ds acc).
Proof.
  intros Hv. induction ds as [|c ds IH]; intros acc H; [reflexivity|].
  simpl in H. apply andb_prop in H. destruct H as [Hc H].
  destruct (Hv c Hc) as (d & Hd & Hlt).
  simpl. rewrite Hd, Hlt. now rewrite IH.
Qed.

Lemma digit_value_dec c :
  is_digit c = true ->
  exists d, digit_value c = Some d /\ (d <? 10) = true.
Proof.
  intros H. unfold digit_value. rewrite H. eexists; split; [reflexivity|].
  unfold is_digit in H. lia.
Qed.

Lemma digit_value_hex c :
  is_hex_digit c = true ->
  exists d, digit_value c = Some d /\ (d <? 16) = true.
Proof.
  intros H. unfold digit_value, is_hex_digit in *.
  destruct (is_digit c) eqn:E1.
  - eexists; split; [reflexivity|]. unfold is_digit in E1. lia.
  - destruct ((97 <=? c) && (c <=? 122)) eqn:E2.
    + eexists; split; [reflexivity|]. unfold is_digit in E1. lia.
    + destruct ((65 <=? c) && (c <=? 90)) eqn:E3.
      * eexists; split; [reflexivity|]. unfold is_digit in E1. lia.
      * unfold is_digit in E1. lia.
Qed.

Lemma parseInt_dec d ds :
  forallb is_digit (d :: ds) = true ->
  parseInt (d :: ds) 10 = number_of_nat (radix_value 10 (d :: ds)).
Proof.
  intros H. pose proof H as H'. simpl in H'.
  apply andb_prop in H'. destruct H' as [Hd Hds].
  unfold parseInt. cbn [trimStart].
  replace (is_space d) with false by (unfold is_digit, is_space in *; lia).
  replace (d =? 45) with false by (unfold is_digit in *; lia).
  replace (d =? 43) with false by (unfold is_digit in *; lia).
  match goal with
  | |- context [digits_value _ None ?t] =>
      replace t with (d :: ds) by (destruct ds; reflexivity)
  end.
  destruct (digit_value_dec d Hd) as (v & Hv & Hlt).
  cbn [digits_value]. rewrite Hv, Hlt.
  rewrite (digits_value_all 10 is_digit digit_value_dec) by assumption.
  unfold radix_value. cbn [fold_left]. now rewrite Hv.
Qed.

Lemma parseInt_hex d ds :
  forallb is_hex_digit (d :: ds) = true ->
  parseInt (d :: ds) 16 = number_of_nat (radix_value 16 (d :: ds)).
Proof.
  intros H. pose proof H as H'. simpl in H'.
  apply andb_prop in H'. destruct H' as [Hd Hds].
  unfold parseInt. cbn [trimStart].
  replace (is_space d) with false
    by (unfold is_hex_digit, is_digit, is_space in *; lia).
  replace (d =? 45) with false by (unfold is_hex_digit, is_digit in *; lia).
  replace (d =? 43) with false by (unfold is_hex_digit, is_digit in *; lia).
  match goal with
  | |- context [digits_value _ None ?t] => replace t with (d :: ds)
  end.
  2:{ destruct ds as [|c1 s']; [reflexivity|].
      simpl in Hds. apply andb_prop in Hds. destruct Hds as [Hc1 _].
      replace ((c1 =? 120) || (c1 =? 88)) with false
        by (unfold is_hex_digit, is_digit in *; lia).
      now rewrite andb_false_r. }
  destruct (digit_value_hex d Hd) as (v & Hv & Hlt).
  cbn [digits_value]. rewrite Hv, Hlt.
  rewrite (digits_value_all 16 is_hex_digit digit_value_hex) by assumption.
  unfold radix_value. cbn [fold_left]. now rewrite Hv.
Qed.

Lemma toUint16_small n :
  0 <= n < 2 ^ 53 -> toUint16 (number_of_nat n) = n mod 65536.
Proof.
  intros H. unfold number_of_nat.
  replace (n <? 2 ^ 53) with true by lia. reflexivity.
Qed.

Lemma replace_entity_single e r t :
  starts_with (AMP :: e) (AMP :: t) = false ->
  has_char AMP t = false ->
  replace_entity (AMP :: t) (AMP :: e, r) = AMP :: t.
Proof.
  intros Hs Ht. unfold replace_entity, split. cbn [fst snd split_from].
  rewrite Hs. now rewrite split_from_absent.
Qed.

Lemma decode_named_single t :
  Forall (fun e => starts_with (fst e) (AMP :: t) = false) entities ->
  has_char AMP t = false ->
  decode_named (AMP :: t) = AMP :: t.
Proof.
  intros Hs Ht. unfold decode_named.
  generalize entities_start_with_amp. revert Hs. generalize entities.
  induction l as [|[e r] l IH]; intros Hs Hl; [reflexivity|].
  inversion Hl as [|? ? [sep He] Hl']; subst. simpl in He. subst e.
  inversion Hs as [|? ? Hs1 Hs']; subst. simpl in Hs1.
  cbn [fold_left]. rewrite replace_entity_single by assumption. auto.
Qed.

Lemma digits_no_amp ds :
  forallb is_hex_digit ds = true -> has_char AMP (ds ++ str ";") = false.
Proof.
  induction ds as [|c ds IH]; intros H; [reflexivity|].
  simpl in H. apply andb_prop in H. destruct H as [Hc H].
  change ((c :: ds) ++ str ";") with (c :: ds ++ str ";").
  rewrite has_char_cons, IH by assumption.
  unfold is_hex_digit, is_digit, AMP in *. lia.
Qed.

Lemma is_digit_hex c : is_digit c = true -> is_hex_digit c = true.
Proof. intros H. unfold is_hex_digit. now rewrite H. Qed.

Lemma digits_are_hex ds :
  forallb is_digit ds = true -> forallb is_hex_digit ds = true.
Proof.
  induction ds as [|c ds IH]; simpl; [reflexivity|]. intros H.
  apply andb_prop in H. destruct H as [Hc H].
  now rewrite is_digit_hex, IH.
Qed.

(** The text of a decimal entity, apart from [&#39;], holds no named
    entity. *)
Lemma starts_with_39 ds :
  forallb is_digit ds = true ->
  starts_with (str "39;") (ds ++ str ";") = true -> ds = str "39".
Proof.
  intros Hd H.
  destruct ds as [|d1 ds]; [discriminate|].
  simpl in H, Hd. apply andb_prop in H. destruct H as [H1 H].
  apply andb_prop in Hd. destruct Hd as [_ Hd].
  destruct ds as [|d2 ds]; [discriminate|].
  simpl in H, Hd. apply andb_prop in H. destruct H as [H2 H].
  apply andb_prop in Hd. destruct Hd as [_ Hd].
  destruct ds as [|d3 ds].
  - apply Z.eqb_eq in H1, H2. now subst.
  - simpl in H, Hd. apply andb_prop in Hd. destruct Hd as [Hd3 _].
    unfold is_digit in Hd3. lia.
Qed.

Lemma exec_at_dec d ds :
  forallb is_digit (d :: ds) = true ->
  exec_at re_dec (str "&#" ++ (d :: ds) ++ str ";")
  = Some ([], [(1%nat, d :: ds)]).
Proof.
  intros H. simpl in H. apply andb_prop in H. destruct H as [Hd Hds].
  unfold exec_at, re_dec. cbn [pattern ignoreCase].
  apply m_Cat_ok. eapply m_Chars_ok; [reflexivity|]. cbv beta.
  apply m_Cat_ok, m_Group_ok.
  change ((d :: ds) ++ str ";") with (d :: ds ++ str ";").
  apply m_plus_ok; [assumption|assumption|reflexivity|]. cbv beta.
  eapply m_Chars_ok; [reflexivity|].
  change (d :: ds ++ str ";") with ((d :: ds) ++ str ";").
  now rewrite consumed_app.
Qed.

Lemma exec_at_hex d ds :
  forallb is_hex_digit (d :: ds) = true ->
  exec_at re_hex (str "&#x" ++ (d :: ds) ++ str ";")
  = Some ([], [(1%nat, d :: ds)]).
Proof.
  intros H. simpl in H. apply andb_prop in H. destruct H as [Hd Hds].
  unfold exec_at, re_hex. cbn [pattern ignoreCase].
  apply m_Cat_ok. eapply m_Chars_ok; [reflexivity|]. cbv beta.
  apply m_Cat_ok, m_Group_ok.
  change ((d :: ds) ++ str ";") with (d :: ds ++ str ";").
  apply m_plus_ok; [assumption|assumption|reflexivity|]. cbv beta.
  eapply m_Chars_ok; [reflexivity|].
  change (d :: ds ++ str ";") with ((d :: ds) ++ str ";").
  now rewrite consumed_app.
Qed.

(** A single character is no numeric entity. *)
Lemma replace_one re rv c :
  exec_at re [c] = None -> exec_at re [] = None ->
  replace re rv [c] = Normal [c].
Proof.
  intros H1 H0. unfold replace. rewrite replace_from_miss by assumption.
  simpl. now rewrite H0.
Qed.

Lemma exec_at_hex_one c : exec_at re_hex [c] = None.
Proof.
  unfold exec_at, re_hex. simpl. now destruct (c =? 38).
Qed.

Lemma replace_dec_entity d ds :
  forallb is_digit (d :: ds) = true ->
  replace re_dec decode_dec (str "&#" ++ (d :: ds) ++ str ";")
  = Normal [toUint16 (parseInt (d :: ds) 10)].
Proof.
  intros H. unfold replace.
  rewrite <- (app_nil_r (str "&#" ++ (d :: ds) ++ str ";")).
  rewrite replace_from_match with (cs := [(1%nat, d :: ds)]);
    [|discriminate|rewrite app_nil_r; now apply exec_at_dec].
  cbn [replacement decode_dec capture Nat.eqb to_string bind].
  now rewrite (replace_from_nil re_dec decode_dec (x := AMP)) by reflexivity.
Qed.

Lemma replace_hex_entity d ds :
  forallb is_hex_digit (d :: ds) = true ->
  replace re_hex decode_hex (str "&#x" ++ (d :: ds) ++ str ";")
  = Normal [toUint16 (parseInt (d :: ds) 16)].
Proof.
  intros H. unfold replace.
  rewrite <- (app_nil_r (str "&#x" ++ (d :: ds) ++ str ";")).
  rewrite replace_from_match with (cs := [(1%nat, d :: ds)]);
    [|discriminate|rewrite app_nil_r; now apply exec_at_hex].
  cbn [replacement decode_hex capture Nat.eqb to_string bind].
  now rewrite (replace_from_nil re_hex decode_hex (x := AMP)) by reflexivity.
Qed.

Lemma decode_dec_entity d ds :
  forallb is_digit (d :: ds) = true ->
  decodeHtmlEntities (str "&#" ++ (d :: ds) ++ str ";")
  = Normal [toUint16 (parseInt (d :: ds) 10)].
Proof.
  intros H.
  destruct (starts_with (str "39;") ((d :: ds) ++ str ";")) eqn:E.
  - apply starts_with_39 in E; [|assumption]. rewrite E. reflexivity.
  - unfold decodeHtmlEntities.
    change (str "&#" ++ (d :: ds) ++ str ";")
      with (AMP :: 35 :: (d :: ds) ++ str ";").
    rewrite decode_named_single.
    + change (AMP :: 35 :: (d :: ds) ++ str ";")
        with (str "&#" ++ (d :: ds) ++ str ";").
      rewrite replace_dec_entity by assumption. cbn [bind].
      rewrite replace_one; [reflexivity|apply exec_at_hex_one|reflexivity].
    + repeat constructor; try reflexivity. exact E.
    + rewrite has_char_cons. apply (digits_no_amp (d :: ds)).
      now apply digits_are_hex.
Qed.

Lemma decode_hex_entity d ds :
  forallb is_hex_digit (d :: ds) = true ->
  decodeHtmlEntities (str "&#x" ++ (d :: ds) ++ str ";")
  = Normal [toUint16 (parseInt (d :: ds) 16)].
Proof.
  intros H. unfold decodeHtmlEntities.
  assert (Hamp : has_char AMP (str "#x" ++ (d :: ds) ++ str ";") = false).
  { change (str "#x" ++ (d :: ds) ++ str ";")
      with (35 :: 120 :: (d :: ds) ++ str ";").
    rewrite !has_char_cons. now rewrite (digits_no_amp (d :: ds)). }
  change (str "&#x" ++ (d :: ds) ++ str ";")
    with (AMP :: str "#x" ++ (d :: ds) ++ str ";").
  rewrite decode_named_single;
    [|repeat constructor; reflexivity|assumption].
  unfold replace at 1.
  rewrite replace_from_miss by reflexivity.
  fold (replace re_dec decode_dec (str "#x" ++ (d :: ds) ++ str ";")).
  rewrite (replace_absent re_dec decode_dec (x := AMP))
    by (auto; reflexivity).
  cbn [bind].
  change (AMP :: str "#x" ++ (d :: ds) ++ str ";")
    with (str "&#x" ++ (d :: ds) ++ str ";").
  now rewrite replace_hex_entity.
Qed.

Lemma radix_value_nonneg radix ds : 0 <= radix -> 0 <= radix_value radix ds.
Proof.
  intros Hr. unfold radix_value.
  assert (H : forall acc, 0 <= acc ->
            0 <= fold_left
                   (fun a c => a * radix
                      + match digit_value c with Some d => d | None => 0 end)
                   ds acc).
  { induction ds as [|c ds IH]; intros acc Hacc; [assumption|].
    simpl. apply IH.
    assert (0 <= match digit_value c with Some d => d | None => 0 end).
    { unfold digit_value, is_digit.
      destruct ((48 <=? c) && (c <=? 57)) eqn:E1; [lia|].
      destruct ((97 <=? c) && (c <=? 122)) eqn:E2; [lia|].
      destruct ((65 <=? c) && (c <=? 90)) eqn:E3; lia. }
    nia. }
  apply H. lia.
Qed.

Lemma hex_digits_lack x ds :
  is_hex_digit x = false -> x <> 59 ->
  forallb is_hex_digit ds = true -> has_char x (ds ++ str ";") = false.
Proof.
  intros Hx Hx'. induction ds as [|c ds IH]; intros H.
  - change (has_char x ([] ++ str ";")) with ((59 =? x) || false).
    replace (59 =? x) with false by lia. reflexivity.
  - simpl in H. apply andb_prop in H. destruct H as [Hc H].
    change ((c :: ds) ++ str ";") with (c :: ds ++ str ";").
    rewrite has_char_cons, IH by assumption.
    destruct (c =? x) eqn:E; [|reflexivity].
    apply Z.eqb_eq in E. subst. congruence.
Qed.

Lemma cleanup_one c : cleanup [c] = Normal (trim [c]).
Proof.
  rewrite cleanup_squeeze. simpl. now destruct (c =? LF).
Qed.

(** Through the whole converter a numeric entity standing alone becomes
    its code unit, trimmed away when it is white space. *)
Lemma htmlToMrkdwn_entity (prefix ds : jsstring) c :
  has_char LT prefix = false -> has_char NUL prefix = false ->
  forallb is_hex_digit ds = true ->
  decodeHtmlEntities (prefix ++ ds ++ str ";") = Normal [c] ->
  htmlToMrkdwn (prefix ++ ds ++ str ";") = Normal (trim [c]).
Proof.
  intros Hlt Hnul Hds Hdec.
  rewrite htmlToMrkdwn_no_tags.
  - unfold finish. rewrite restore_links_absent.
    + cbn [bind]. rewrite Hdec. cbn [bind]. apply cleanup_one.
    + rewrite has_char_app, Hnul. now apply hex_digits_lack.
  - rewrite has_char_app, Hlt. now apply hex_digits_lack.
Qed.

(** ** Entities decoded twice *)

Lemma replace_amp_prefix t :
  has_char AMP t = false ->
  replace_entity (str "&amp;" ++ t) (str "&amp;", str "&") = AMP :: t.
Proof.
  intros H. unfold replace_entity, split.
  cbn [fst snd].
  change (split_from (str "&amp;") (str "&amp;" ++ t) 0)
    with ([] :: split_from (AMP :: str "amp;") t 0).
  rewrite split_from_absent by assumption. reflexivity.
Qed.

Lemma decode_named_amp_prefix t :
  has_char AMP t = false -> starts_with (str "amp;") t = false ->
  decode_named (str "&amp;" ++ t) = decode_named (AMP :: t).
Proof.
  intros H Hs. unfold decode_named.
  change entities with ((str "&amp;", str "&") :: tl entities).
  cbn [fold_left]. rewrite replace_amp_prefix by assumption.
  change (str "&amp;") with (AMP :: str "amp;").
  rewrite replace_entity_single; [reflexivity| |assumption].
  simpl. simpl in Hs. exact Hs.
Qed.

(** ** The markers of the link stage *)

Lemma exec_at_link_start post :
  exec_at re_link_start (LINK_START ++ post) = Some (post, []).
Proof. reflexivity. Qed.

Lemma exec_at_link_end post :
  exec_at re_link_end (LINK_END ++ post) = Some (post, []).
Proof. reflexivity. Qed.

(** Where no marker character stands before it, a start marker is rewritten
    to [<], whatever follows. *)
Lemma restore_start_in_context pre post :
  has_char NUL pre = false ->
  replace re_link_start (ReplString (str "<")) (pre ++ LINK_START ++ post)
  = (out <- replace re_link_start (ReplString (str "<")) post ;;
     Normal (pre ++ str "<" ++ out)).
Proof.
  intros H.
  rewrite replace_in_context with (x := NUL) (cs := []);
    try reflexivity; try assumption. discriminate.
Qed.

Lemma restore_end_in_context pre post :
  has_char NUL pre = false ->
  replace re_link_end (ReplString (str ">")) (pre ++ LINK_END ++ post)
  = (out <- replace re_link_end (ReplString (str ">")) post ;;
     Normal (pre ++ str ">" ++ out)).
Proof.
  intros H.
  rewrite replace_in_context with (x := NUL) (cs := []);
    try reflexivity; try assumption. discriminate.
Qed.

(** An end marker is no start marker. *)
Lemma restore_start_passes_end pre post :
  has_char NUL pre = false -> has_char NUL post = false ->
  replace re_link_start (ReplString (str "<")) (pre ++ LINK_END ++ post)
  = Normal (pre ++ LINK_END ++ post).
Proof.
  intros Hpre Hpost. unfold replace.
  rewrite (replace_from_pass re_link_start _ (x := NUL)) by
    (try reflexivity; assumption).
  change (LINK_END ++ post) with (NUL :: str "LINK_END" ++ post).
  rewrite replace_from_miss by reflexivity.
  fold (replace re_link_start (ReplString (str "<")) (str "LINK_END" ++ post)).
  rewrite (replace_absent re_link_start _ (x := NUL));
    [reflexivity|reflexivity|reflexivity|].
  now rewrite has_char_app, Hpost.
Qed.

Lemma restore_links_start pre post :
  has_char NUL pre = false -> has_char NUL post = false ->
  restore_links (pre ++ LINK_START ++ post) = Normal (pre ++ str "<" ++ post).
Proof.
  intros Hpre Hpost. unfold restore_links.
  rewrite restore_start_in_context by assumption.
  rewrite (replace_absent re_link_start _ (x := NUL))
    by (try reflexivity; assumption).
  cbn [bind].
  apply (replace_absent re_link_end _ (x := NUL)); try reflexivity.
  now rewrite !has_char_app, Hpre, Hpost.
Qed.

Lemma restore_links_end pre post :
  has_char NUL pre = false -> has_char NUL post = false ->
  restore_links (pre ++ LINK_END ++ post) = Normal (pre ++ str ">" ++ post).
Proof.
  intros Hpre Hpost. unfold restore_links.
  rewrite restore_start_passes_end by assumption. cbn [bind].
  rewrite restore_end_in_context by assumption.
  now rewrite (replace_absent re_link_end _ (x := NUL))
    by (try reflexivity; assumption).
Qed.

(** ** The anchor element *)

Lemma span p : forall s : jsstring,
  exists xs ys, s = xs ++ ys /\ forallb p xs = true /\ stops p ys.
Proof.
  induction s as [|c s (xs & ys & E & Hxs & Hys)].
  - exists [], []. repeat split.
  - destruct (p c) eqn:Hc.
    + exists (c :: xs), ys. subst. simpl. rewrite Hc. auto.
    + exists [], (c :: s). repeat split. exact Hc.
Qed.

Lemma m_star_backtrack (A : Type) ic p xs1 xs2 rest cs (k : cont A) v :
  forallb p xs1 = true -> forallb p xs2 = true -> stops p rest ->
  k (xs2 ++ rest) cs = Some v ->
  (forall a b, xs2 = a ++ b -> a <> [] -> k (b ++ rest) cs = None) ->
  m ic (star p) (xs1 ++ xs2 ++ rest) cs k = Some v.
Proof.
  intros H1 H2 Hrest Hv Hnone. cbn [star m rep].
  rewrite app_assoc.
  rewrite star_greedy_app; [|now rewrite forallb_app, H1, H2|assumption].
  destruct xs2 as [|c xs2].
  - simpl in Hv. now rewrite Hv.
  - assert (H0 : k rest cs = None)
      by (apply (Hnone (c :: xs2) []); [now rewrite app_nil_r|discriminate]).
    rewrite H0.
    apply star_greedy_last with (k := fun t => k (t ++ rest) cs);
      assumption.
Qed.

Lemma match_chars_extend ic g r : forall pat b,
  Forall (fun x => char_match ic x g = false) pat -> pat <> [] ->
  match_chars ic pat b = None ->
  match_chars ic pat (b ++ g :: r) = None.
Proof.
  induction pat as [|x pat IH]; intros b Hp Hne H; [congruence|].
  inversion Hp as [|? ? Hx Hp']; subst.
  destruct b as [|c b]; simpl in *.
  - now rewrite Hx.
  - destruct (char_match ic x c); [|reflexivity].
    destruct pat as [|y pat]; [discriminate|].
    apply IH; [assumption|discriminate|assumption].
Qed.

Lemma href_free_suffix : forall s a b r,
  href_free s = true -> s = a ++ b ->
  match_chars true HREF (b ++ GT :: r) = None.
Proof.
  intros s a. revert s.
  induction a as [|c a IH]; intros s b r H E; subst s.
  - destruct b as [|c b]; [reflexivity|].
    simpl app in H. cbn [href_free] in H.
    apply andb_prop in H. destruct H as [H _].
    apply negb_true_iff in H. unfold starts_ci in H.
    apply match_chars_extend.
    + repeat constructor.
    + discriminate.
    + destruct (match_chars true HREF (c :: b)); [discriminate|reflexivity].
  - simpl app in H. cbn [href_free] in H.
    apply andb_prop in H. destruct H as [_ H].
    eapply IH; eauto.
Qed.

Lemma has_char_forallb x s :
  has_char x s = false -> forallb (not_char x) s = true.
Proof.
  induction s as [|c s IH]; intros H; [reflexivity|].
  rewrite has_char_cons in H. apply orb_false_elim in H. destruct H as [Hc H].
  simpl. unfold not_char at 1. rewrite Hc. auto.
Qed.

Lemma has_char_suffix x a b :
  has_char x (a ++ b) = false -> has_char x b = false.
Proof.
  rewrite has_char_app. intros H. now apply orb_false_elim in H.
Qed.

(** The continuation of the link pattern from [href=] on, at the
    attribute. *)
Lemma link_from_href (A : Type) url after label rest cs (k : cont A) v :
  has_char QUOT url = false -> has_char GT after = false ->
  has_char LT label = false ->
  k rest ((2%nat, label) :: (1%nat, url) :: cs) = Some v ->
  m true
    (Chars HREF @@ Group 1 (star (not_char QUOT)) @@ Chars [QUOT]
     @@ star (not_char GT) @@ Chars [GT]
     @@ Group 2 (star_lazily any_char) @@ Chars (str "</a>"))
    (HREF ++ url ++ QUOT :: after ++ GT :: label ++ str "</a>" ++ rest)
    cs k
  = Some v.
Proof.
  intros Hurl Hafter Hlabel Hk.
  apply m_Cat_ok. eapply m_Chars_ok; [reflexivity|]. cbv beta.
  apply m_Cat_ok, m_Group_ok.
  apply m_star_ok; [now apply has_char_forallb|reflexivity|]. cbv beta.
  rewrite consumed_app.
  apply m_Cat_ok. eapply m_Chars_ok; [reflexivity|]. cbv beta.
  apply m_Cat_ok.
  apply m_star_ok; [now apply has_char_forallb|reflexivity|]. cbv beta.
  apply m_Cat_ok. eapply m_Chars_ok; [reflexivity|]. cbv beta.
  apply m_Cat_ok, m_Group_ok.
  apply m_lazy_ok.
  - clear. induction label; simpl; auto.
  - intros a b E Hb. destruct b as [|c b]; [congruence|].
    assert (Hc : (c =? LT) = false).
    { rewrite E in Hlabel. apply has_char_suffix in Hlabel.
      rewrite has_char_cons in Hlabel. now apply orb_false_elim in Hlabel. }
    cbn [m]. change (str "</a>") with (LT :: str "/a>").
    cbn [app match_chars].
    rewrite char_match_nonletter by reflexivity. now rewrite Hc.
  - cbv beta. rewrite consumed_app.
    eapply m_Chars_ok; [reflexivity|]. exact Hk.
Qed.

Lemma exec_at_link w before url after label rest :
  is_space w = true ->
  has_char GT before = false ->
  has_char QUOT url = false -> has_char GT url = false ->
  has_char GT after = false ->
  href_free (url ++ QUOT :: after) = true ->
  has_char LT label = false ->
  exec_at re_link (anchor w before url after label ++ rest)
  = Some (rest, [(2%nat, label); (1%nat, url)]).
Proof.
  intros Hw Hbefore Hurl Hurl' Hafter Hfree Hlabel.
  unfold exec_at, re_link, anchor, anchor_open.
  cbn [pattern ignoreCase].
  repeat (rewrite <- ?app_assoc; rewrite <- ?app_comm_cons).
  apply m_Cat_ok. eapply m_Chars_ok; [reflexivity|]. cbv beta.
  destruct (span is_space before) as (ws & before' & E & Hws & Hstop).
  subst before. rewrite has_char_app in Hbefore.
  apply orb_false_elim in Hbefore. destruct Hbefore as [_ Hbefore].
  rewrite <- app_assoc.
  apply m_Cat_ok. apply m_plus_ok; [assumption|assumption| |].
  { destruct before'; [reflexivity|exact Hstop]. }
  cbv beta. apply m_Cat_ok.
  match goal with
  | |- m _ _ ?s _ _ = _ =>
      replace s with (before' ++ (HREF ++ url ++ QUOT :: after)
                        ++ GT :: label ++ str "</a>" ++ rest)
        by (rewrite <- !app_assoc; reflexivity)
  end.
  apply m_star_backtrack.
  - now apply has_char_forallb.
  - apply has_char_forallb.
    rewrite !has_char_app, Hurl', has_char_cons, Hafter. reflexivity.
  - reflexivity.
  - rewrite <- !app_assoc. cbv beta.
    change ((QUOT :: after) ++ GT :: label ++ str "</a>" ++ rest)
      with (QUOT :: after ++ GT :: label ++ str "</a>" ++ rest).
    now apply link_from_href.
  - intros a b E Ha. cbv beta.
    assert (Hnone : match_chars true HREF
                      (b ++ GT :: label ++ str "</a>" ++ rest) = None).
    { (* the place is inside [href=] itself, or behind it *)
      destruct a as [|a0 a]; [congruence|].
      unfold HREF in E. simpl in E. injection E as _ E.
      do 5 (destruct a as [|? a]; simpl in E;
            [subst b; reflexivity|injection E as _ E]).
      eapply href_free_suffix; eauto. }
    cbn [m]. fold HREF. now rewrite Hnone.
Qed.

Lemma plain_inv s :
  plain s = true ->
  has_char LT s = false /\ has_char AMP s = false /\ has_char NUL s = false.
Proof.
  unfold plain. intros H.
  apply andb_prop in H. destruct H as [H H3].
  apply andb_prop in H. destruct H as [H1 H2].
  now rewrite negb_true_iff in *.
Qed.

Lemma attr_text_inv s :
  attr_text s = true -> has_char LT s = false /\ has_char GT s = false.
Proof.
  unfold attr_text. intros H.
  apply andb_prop in H. destruct H as [H1 H2].
  now rewrite negb_true_iff in *.
Qed.

(** Equations between texts written with different bracketing. *)
Ltac list_eq :=
  repeat (rewrite <- ?app_assoc; rewrite <- ?app_comm_cons; simpl);
  reflexivity.

(** A text whose only [<] are two, at places where the pattern fails, is
    left as it is. *)
Lemma replace_two_lt re rv A M N :
  head_char (pattern re) = Some LT ->
  has_char LT A = false -> has_char LT M = false -> has_char LT N = false ->
  exec_at re (LT :: M ++ LT :: N) = None ->
  exec_at re (LT :: N) = None ->
  replace re rv (A ++ LT :: M ++ LT :: N) = Normal (A ++ LT :: M ++ LT :: N).
Proof.
  intros Hh HA HM HN E1 E2. unfold replace.
  rewrite (replace_from_pass re rv Hh) by (try reflexivity; assumption).
  rewrite replace_from_miss by assumption.
  rewrite (replace_from_pass re rv Hh) by (try reflexivity; assumption).
  rewrite replace_from_miss by assumption.
  fold (replace re rv N).
  rewrite (replace_absent re rv Hh) by (try reflexivity; assumption).
  reflexivity.
Qed.

Section Anchor.
Variables (A B before url after label : jsstring) (w : char).
Hypothesis A_plain : plain A = true.
Hypothesis B_plain : plain B = true.
Hypothesis w_space : is_space w = true.
Hypothesis before_ok : attr_text before = true.
Hypothesis after_ok : attr_text after = true.
Hypothesis url_plain : plain url = true.
Hypothesis url_ok : attr_text url = true.
Hypothesis url_quote : has_char QUOT url = false.
Hypothesis one_href : href_free (url ++ QUOT :: after) = true.
Hypothesis label_plain : plain label = true.

Lemma anchor_shape :
  A ++ anchor w before url after label ++ B
  = A ++ LT :: anchor_inner w before url after label ++ LT :: anchor_behind B.
Proof.
  unfold anchor_inner, anchor_behind, anchor, anchor_open.
  list_eq.
Qed.

Lemma inner_no_lt :
  has_char LT (anchor_inner w before url after label) = false.
Proof.
  destruct (plain_inv _ url_plain) as (H1 & _).
  destruct (plain_inv _ label_plain) as (H2 & _).
  destruct (attr_text_inv _ before_ok) as (H3 & _).
  destruct (attr_text_inv _ after_ok) as (H4 & _).
  unfold anchor_inner. change (str "a" ++ w :: before ++ HREF ++ url ++ QUOT
                          :: after ++ GT :: label)
    with (97 :: w :: before ++ HREF ++ url ++ QUOT :: after ++ GT :: label).
  rewrite !has_char_cons, !has_char_app, !has_char_cons, !has_char_app.
  rewrite H1, H3, H4, !has_char_cons, H2.
  replace (w =? LT) with false; [reflexivity|].
  unfold is_space, LT in *. lia.
Qed.

Lemma behind_no_lt : has_char LT (anchor_behind B) = false.
Proof.
  destruct (plain_inv _ B_plain) as (H & _).
  unfold anchor_behind. now rewrite has_char_app, H.
Qed.

(** The stages before the link stage leave the anchor alone. *)
Lemma before_link_stage re rv :
  head_char (pattern re) = Some LT ->
  (forall M N, exec_at re (LT :: 97 :: M ++ LT :: N) = None) ->
  (forall N, exec_at re (LT :: 47 :: 97 :: N) = None) ->
  replace re rv (A ++ anchor w before url after label ++ B)
  = Normal (A ++ anchor w before url after label ++ B).
Proof.
  intros Hh E1 E2. rewrite anchor_shape.
  destruct (plain_inv _ A_plain) as (HA & _).
  apply replace_two_lt; auto using inner_no_lt, behind_no_lt.
  - apply (E1 (w :: before ++ HREF ++ url ++ QUOT :: after ++ GT :: label)).
  - apply (E2 (62 :: B)).
Qed.

Lemma link_stage rest :
  has_char LT A = false ->
  replace re_link (ReplString link_placeholder)
    (A ++ anchor w before url after label ++ rest)
  = (out <- replace re_link (ReplString link_placeholder) rest ;;
     Normal (A ++ placeholder url label ++ out)).
Proof.
  intros HA.
  destruct (plain_inv _ url_plain) as (_ & _ & _).
  destruct (plain_inv _ label_plain) as (Hl & _).
  destruct (attr_text_inv _ before_ok) as (_ & Hb).
  destruct (attr_text_inv _ after_ok) as (_ & Ha).
  destruct (attr_text_inv _ url_ok) as (_ & Hu).
  rewrite replace_in_context
    with (x := LT) (cs := [(2%nat, label); (1%nat, url)]);
    try reflexivity; try assumption.
  - discriminate.
  - now apply exec_at_link.
Qed.

Lemma placeholder_no_lt : has_char LT (A ++ placeholder url label ++ B) = false.
Proof.
  destruct (plain_inv _ A_plain) as (HA & _).
  destruct (plain_inv _ B_plain) as (HB & _).
  destruct (plain_inv _ url_plain) as (H1 & _).
  destruct (plain_inv _ label_plain) as (H2 & _).
  unfold placeholder.
  rewrite !has_char_app, HA, HB, H1, H2. reflexivity.
Qed.

Lemma restore_placeholder :
  restore_links (A ++ placeholder url label ++ B)
  = Normal (A ++ str "<" ++ url ++ str "|" ++ label ++ str ">" ++ B).
Proof.
  destruct (plain_inv _ A_plain) as (_ & _ & HA).
  destruct (plain_inv _ B_plain) as (_ & _ & HB).
  destruct (plain_inv _ url_plain) as (_ & _ & H1).
  destruct (plain_inv _ label_plain) as (_ & _ & H2).
  unfold restore_links.
  replace (A ++ placeholder url label ++ B)
    with (A ++ LINK_START ++ (url ++ str "|" ++ label) ++ LINK_END ++ B)
    by (unfold placeholder; list_eq).
  rewrite restore_start_in_context by assumption.
  rewrite restore_start_passes_end;
    [|now rewrite !has_char_app, H1, H2|assumption].
  cbn [bind].
  replace (A ++ str "<" ++ (url ++ str "|" ++ label) ++ LINK_END ++ B)
    with ((A ++ str "<" ++ url ++ str "|" ++ label) ++ LINK_END ++ B)
    by list_eq.
  rewrite restore_end_in_context
    by (now rewrite !has_char_app, HA, H1, H2).
  rewrite (replace_absent re_link_end _ (x := NUL))
    by (try reflexivity; assumption).
  cbn [bind]. f_equal. list_eq.
Qed.

Lemma anchor_pipeline :
  htmlToMrkdwn (A ++ anchor w before url after label ++ B)
  = cleanup (A ++ str "<" ++ url ++ str "|" ++ label ++ str ">" ++ B).
Proof.
  destruct (plain_inv _ A_plain) as (HA1 & HA2 & HA3).
  destruct (plain_inv _ B_plain) as (HB1 & HB2 & HB3).
  destruct (plain_inv _ url_plain) as (Hu1 & Hu2 & Hu3).
  destruct (plain_inv _ label_plain) as (Hl1 & Hl2 & Hl3).
  remember (A ++ anchor w before url after label ++ B) as s eqn:Hs.
  destruct s as [|c t].
  { rewrite anchor_shape in Hs. destruct A; discriminate. }
  unfold htmlToMrkdwn. rewrite Hs.
  rewrite (before_link_stage re_br) by reflexivity. cbn [bind].
  rewrite (before_link_stage re_p_boundary) by reflexivity. cbn [bind].
  rewrite (before_link_stage re_p_open) by reflexivity. cbn [bind].
  rewrite (before_link_stage re_p_close) by reflexivity. cbn [bind].
  rewrite link_stage by assumption.
  rewrite (replace_absent re_link _ (x := LT))
    by (try reflexivity; assumption).
  cbn [bind].
  repeat (rewrite (replace_absent _ _ (x := LT))
            by (try reflexivity; apply placeholder_no_lt);
          cbn [bind]).
  pose proof restore_placeholder as Hr. unfold restore_links in Hr.
  apply bind_inv in Hr. destruct Hr as (t1 & Hr1 & Hr2).
  rewrite Hr1. cbn [bind]. rewrite Hr2. cbn [bind].
  rewrite decodeHtmlEntities_absent
    by (now rewrite !has_char_app, HA2, HB2, Hu2, Hl2).
  reflexivity.
Qed.
End Anchor.

(** ** A pair of inline tags through the whole converter *)

Lemma replace_two_lt_nil re rv M N :
  head_char (pattern re) = Some LT ->
  has_char LT M = false -> has_char LT N = false ->
  exec_at re (LT :: M ++ LT :: N) = None ->
  exec_at re (LT :: N) = None ->
  replace re rv (LT :: M ++ LT :: N) = Normal (LT :: M ++ LT :: N).
Proof.
  intros. now apply (@replace_two_lt re rv [] M N).
Qed.

(** Both tags of a pair are replaced at the stage of their style. *)
Lemma replace_pair re tmpl (d : char) name t :
  head_char (pattern re) = Some LT ->
  has_char LT t = false ->
  (forall slash post,
     slash = [] \/ slash = str "/" ->
     exec_at re (LT :: slash ++ name ++ [] ++ GT :: post) = Some (post, [])) ->
  tmpl = [d] -> d <> 36 ->
  replace re (ReplString tmpl)
    (LT :: (name ++ GT :: t) ++ LT :: (47 :: name ++ [GT]))
  = Normal (d :: t ++ [d]).
Proof.
  intros Hh Ht He -> Hd.
  assert (Hsub : forall matched,
            replacement re (ReplString [d]) matched [] = Normal [d]).
  { intros matched. simpl. now replace (d =? 36) with false by lia. }
  replace (LT :: (name ++ GT :: t) ++ LT :: (47 :: name ++ [GT]))
    with ((LT :: name ++ [GT]) ++ t ++ (LT :: 47 :: name ++ [GT]) ++ [])
    by (rewrite app_nil_r;
        repeat (rewrite <- ?app_assoc; rewrite <- ?app_comm_cons; simpl);
        reflexivity).
  unfold replace at 1.
  rewrite replace_from_match with (cs := []); [|discriminate|].
  2:{ specialize (He [] (t ++ (LT :: 47 :: name ++ [GT]) ++ [])
                    (or_introl eq_refl)).
      simpl in He. simpl. now rewrite <- app_assoc. }
  rewrite Hsub. cbn [bind].
  fold (replace re (ReplString [d]) (t ++ (LT :: 47 :: name ++ [GT]) ++ [])).
  rewrite (@replace_in_context re (ReplString [d]) LT t
             (LT :: 47 :: name ++ [GT]) [] []);
    try reflexivity; try assumption; [|discriminate|].
  2:{ specialize (He (str "/") [] (or_intror eq_refl)).
      simpl in He. simpl. now rewrite <- app_assoc. }
  rewrite Hsub. cbn [bind].
  unfold replace at 1.
  rewrite (replace_from_nil re (ReplString [d]) Hh) by reflexivity.
  reflexivity.
Qed.

Lemma squeeze_snoc d : d <> LF ->
  forall t r, squeeze r (t ++ [d]) = squeeze r t ++ [d].
Proof.
  intros Hd. induction t as [|c t IH]; intros r; simpl.
  - now replace (d =? LF) with false by lia.
  - destruct (c =? LF); [destruct (Nat.ltb r 2)|]; simpl; now rewrite ?IH.
Qed.

Lemma cleanup_delimited d t :
  d <> LF -> is_space d = false ->
  cleanup (d :: t ++ [d]) = Normal (d :: squeeze 0 t ++ [d]).
Proof.
  intros Hd Hs. rewrite cleanup_squeeze. f_equal.
  cbn [squeeze]. replace (d =? LF) with false by lia.
  rewrite squeeze_snoc by assumption.
  apply trim_id. unfold is_trimmed. cbn [starts_clean rev].
  rewrite rev_app_distr. cbn [rev app starts_clean]. now rewrite Hs.
Qed.

Lemma plain_delimited d t :
  plain t = true -> d <> LT -> d <> AMP -> d <> NUL ->
  has_char LT (d :: t ++ [d]) = false
  /\ has_char AMP (d :: t ++ [d]) = false
  /\ has_char NUL (d :: t ++ [d]) = false.
Proof.
  intros Ht H1 H2 H3. destruct (plain_inv _ Ht) as (T1 & T2 & T3).
  rewrite !has_char_cons, !has_char_app, T1, T2, T3. simpl.
  repeat split; lia.
Qed.

(** One stage of the converter on a tag pair: the stage does not match
    the pair, or it is the stage of the pair's style, or the pair is
    gone. *)
Ltac pair_stage Ht Hclean :=
  first
    [ rewrite replace_two_lt_nil;
      [ | reflexivity
        | (rewrite ?has_char_app, ?has_char_cons, Ht; reflexivity)
        | reflexivity | reflexivity | reflexivity ]
    | erewrite replace_pair;
      [ | reflexivity | exact Ht
        | (intros slash post Hslash;
           first [ apply exec_at_bold | apply exec_at_italic
                 | apply exec_at_strike ];
           [exact Hslash|reflexivity|reflexivity])
        | reflexivity | discriminate ]
    | rewrite (replace_absent _ _ (x := LT))
        by (try reflexivity; apply Hclean) ];
  cbn [bind].

Lemma tag_pair_pipeline name d t :
  In (name, d) inline_styles -> plain t = true ->
  htmlToMrkdwn (tag_pair name t) = Normal (d :: squeeze 0 t ++ [d]).
Proof.
  intros Hin Hplain.
  destruct (plain_inv _ Hplain) as (Ht & _ & _).
  unfold inline_styles in Hin. simpl in Hin.
  repeat destruct Hin as [Hin|Hin]; try contradiction;
    injection Hin as <- <-;
    match goal with
    | |- _ = Normal (?d :: _) =>
        destruct (@plain_delimited d t Hplain) as (C1 & C2 & C3);
        [discriminate..|]
    end;
    match goal with
    | |- htmlToMrkdwn (tag_pair ?n t) = _ =>
        change (tag_pair n t)
          with (LT :: (n ++ GT :: t) ++ LT :: (47 :: n ++ [GT]))
    end;
    unfold htmlToMrkdwn;
    repeat pair_stage Ht C1;
    rewrite (replace_absent re_link_start _ (x := NUL))
      by (try reflexivity; exact C3);
    cbn [bind];
    rewrite (replace_absent re_link_end _ (x := NUL))
      by (try reflexivity; exact C3);
    cbn [bind];
    rewrite decodeHtmlEntities_absent by exact C2;
    cbn [bind];
    (apply cleanup_delimited; [discriminate|reflexivity]).
Qed.

(** ** Two paragraphs through the whole converter *)

Lemma nl_run_break c y : c <> LF ->
  forall x, nl_run (x ++ c :: y) = nl_run x.
Proof.
  intros Hc. induction x as [|d x IH]; simpl.
  - now replace (c =? LF) with false by lia.
  - destruct (d =? LF); [now rewrite IH|reflexivity].
Qed.

Lemma nl_runs_ok_break c y : c <> LF ->
  forall x, nl_runs_ok (x ++ c :: y) = nl_runs_ok x && nl_runs_ok (c :: y).
Proof.
  intros Hc. induction x as [|d x IH]; [reflexivity|].
  change ((d :: x) ++ c :: y) with (d :: x ++ c :: y).
  cbn [nl_runs_ok]. rewrite IH.
  change (d :: x ++ c :: y) with ((d :: x) ++ c :: y).
  rewrite nl_run_break by assumption. now rewrite andb_assoc.
Qed.

Lemma spaces_lack x ws :
  is_space x = false -> forallb is_space ws = true -> has_char x ws = false.
Proof.
  intros Hx. induction ws as [|c ws IH]; intros H; [reflexivity|].
  simpl in H. apply andb_prop in H. destruct H as [Hc H].
  rewrite has_char_cons, IH by assumption.
  destruct (c =? x) eqn:E; [|reflexivity].
  apply Z.eqb_eq in E. subst. congruence.
Qed.

Lemma clean_last s :
  tidy s = true ->
  exists s' z, s = s' ++ [z] /\ is_space z = false /\ nl_runs_ok s' = true.
Proof.
  unfold tidy, is_trimmed. intros H.
  apply andb_prop in H. destruct H as [H H3].
  apply andb_prop in H. destruct H as [H1 H2].
  apply andb_prop in H2. destruct H2 as [_ H2].
  destruct (rev s) as [|z r] eqn:E.
  - apply (f_equal (@rev char)) in E. rewrite rev_involutive in E.
    subst s. discriminate.
  - apply (f_equal (@rev char)) in E. rewrite rev_involutive in E.
    simpl in E. exists (rev r), z. split; [assumption|].
    simpl in H2. apply negb_true_iff in H2. split; [assumption|].
    rewrite E in H3. now apply nl_runs_ok_prefix in H3.
Qed.

Lemma clean_first s :
  tidy s = true ->
  exists y s', s = y :: s' /\ is_space y = false.
Proof.
  unfold tidy, is_trimmed. intros H.
  apply andb_prop in H. destruct H as [H H3].
  apply andb_prop in H. destruct H as [H1 H2].
  apply andb_prop in H2. destruct H2 as [H2 _].
  destruct s as [|y s']; [discriminate|].
  simpl in H2. apply negb_true_iff in H2. eauto.
Qed.

Lemma not_space_not_lf c : is_space c = false -> c <> LF.
Proof. unfold is_space, LF. lia. Qed.

Lemma nl_runs_ok_sep x t :
  x <> LF -> nl_run t = 0%nat -> nl_runs_ok t = true ->
  nl_runs_ok (x :: LF :: LF :: t) = true.
Proof.
  intros Hx Hrun Ht. cbn [nl_runs_ok nl_run].
  replace (x =? LF) with false by lia. rewrite Z.eqb_refl, Hrun, Ht.
  reflexivity.
Qed.

Lemma nl_runs_ok_end z s :
  z <> LF -> nl_runs_ok s = true -> nl_runs_ok (s ++ [z; LF; LF]) = true.
Proof.
  intros Hz Hs. rewrite nl_runs_ok_break by assumption. rewrite Hs.
  cbn [nl_runs_ok nl_run andb]. replace (z =? LF) with false by lia.
  now rewrite Z.eqb_refl.
Qed.

Lemma cleanup_paragraphs a b :
  tidy a = true -> tidy b = true ->
  cleanup (a ++ LF :: LF :: b ++ [LF; LF]) = Normal (a ++ [LF; LF] ++ b).
Proof.
  intros Ha Hb.
  destruct (clean_last _ Ha) as (a' & x & Ea & Hx & Ha').
  destruct (clean_first _ Ha) as (x0 & a0 & Ea0 & Hx0).
  destruct (clean_last _ Hb) as (b' & z & Eb & Hz & Hb').
  destruct (clean_first _ Hb) as (y & b0 & Eb0 & Hy).
  pose proof (@not_space_not_lf x Hx) as Nx.
  pose proof (@not_space_not_lf y Hy) as Ny.
  pose proof (@not_space_not_lf z Hz) as Nz.
  rewrite cleanup_squeeze. f_equal.
  assert (Hruns : nl_runs_ok (a ++ LF :: LF :: b ++ [LF; LF]) = true).
  { rewrite Ea, <- app_assoc. cbn [app].
    rewrite nl_runs_ok_break by assumption. rewrite Ha'. cbn [andb].
    apply nl_runs_ok_sep; [assumption| |].
    - rewrite Eb0. simpl. now replace (y =? LF) with false by lia.
    - rewrite Eb, <- app_assoc. cbn [app].
      apply nl_runs_ok_end; assumption. }
  rewrite squeeze_id by (auto; apply nl_runs_ok_run in Hruns; lia).
  unfold trim, trimEnd.
  rewrite (trimStart_id (a ++ LF :: LF :: b ++ [LF; LF]))
    by (rewrite Ea0; simpl; now rewrite Hx0).
  replace (a ++ LF :: LF :: b ++ [LF; LF])
    with ((a ++ LF :: LF :: b) ++ [LF; LF])
    by (rewrite <- app_assoc; reflexivity).
  rewrite rev_app_distr. cbn [rev app trimStart].
  replace (is_space LF) with true by reflexivity.
  rewrite trimStart_id.
  - rewrite rev_involutive. reflexivity.
  - rewrite rev_app_distr. rewrite Eb at 1. cbn [rev].
    rewrite rev_app_distr. simpl. now rewrite Hz.
Qed.

Lemma hit_p_boundary ws rest :
  forallb is_space ws = true ->
  replace_from re_p_boundary (ReplString [LF; LF])
    (LT :: 47 :: 112 :: 62 :: ws ++ LT :: 112 :: 62 :: rest) 0
  = (out <- replace_from re_p_boundary (ReplString [LF; LF]) rest 0 ;;
     Normal (LF :: LF :: out)).
Proof.
  intros Hws.
  replace (LT :: 47 :: 112 :: 62 :: ws ++ LT :: 112 :: 62 :: rest)
    with (LT :: (47 :: 112 :: 62 :: ws ++ [LT; 112; 62]) ++ rest)
    by list_eq.
  rewrite replace_from_hit with (cs := []).
  - cbn [replacement getSubstitution bind]. simpl.
    now destruct (replace_from re_p_boundary (ReplString [LF; LF]) rest 0).
  - pose proof (@exec_at_p_boundary (str "</p>") ws (str "<p") [] rest
                  eq_refl Hws eq_refl eq_refl) as E.
    etransitivity; [|exact E]. f_equal. list_eq.
Qed.

Lemma hit_p_open rest :
  replace_from re_p_open (ReplString []) (LT :: 112 :: 62 :: rest) 0
  = replace_from re_p_open (ReplString []) rest 0.
Proof.
  change (LT :: 112 :: 62 :: rest) with (LT :: @app char [112; 62] rest).
  rewrite (@replace_from_hit re_p_open (ReplString []) LT [112; 62] rest [])
    by reflexivity.
  cbn [replacement getSubstitution bind].
  now destruct (replace_from re_p_open (ReplString []) rest 0).
Qed.

Lemma hit_p_close rest :
  replace_from re_p_close (ReplString [LF; LF])
    (LT :: 47 :: 112 :: 62 :: rest) 0
  = (out <- replace_from re_p_close (ReplString [LF; LF]) rest 0 ;;
     Normal (LF :: LF :: out)).
Proof.
  change (LT :: 47 :: 112 :: 62 :: rest)
    with (LT :: @app char [47; 112; 62] rest).
  rewrite (@replace_from_hit re_p_close (ReplString [LF; LF]) LT
             [47; 112; 62] rest []) by reflexivity.
  cbn [replacement getSubstitution bind]. simpl.
  now destruct (replace_from re_p_close (ReplString [LF; LF]) rest 0).
Qed.

(** One step of the scan of a stage over a text made of known characters
    and of stretches without [<]. *)
Ltac scan_step :=
  first
    [ rewrite hit_p_boundary by assumption
    | rewrite hit_p_open
    | rewrite hit_p_close
    | rewrite (replace_from_pass _ _ (x := LT))
        by (try reflexivity; assumption)
    | rewrite replace_from_miss by reflexivity
    | rewrite (replace_from_nil _ _ (x := LT)) by reflexivity ].

Ltac scan := unfold replace at 1; repeat scan_step; cbn [bind app].

Lemma two_paragraphs_pipeline a ws b :
  plain a = true -> plain b = true -> forallb is_space ws = true ->
  htmlToMrkdwn (two_paragraphs a ws b)
  = cleanup (a ++ LF :: LF :: b ++ [LF; LF]).
Proof.
  intros Ha Hb Hws.
  destruct (plain_inv _ Ha) as (A1 & A2 & A3).
  destruct (plain_inv _ Hb) as (B1 & B2 & B3).
  assert (W1 : has_char LT ws = false) by (now apply spaces_lack).
  assert (C1 : has_char LT (a ++ LF :: LF :: b ++ [LF; LF]) = false)
    by (now rewrite !has_char_app, !has_char_cons, !has_char_app, A1, B1).
  assert (C2 : has_char AMP (a ++ LF :: LF :: b ++ [LF; LF]) = false)
    by (now rewrite !has_char_app, !has_char_cons, !has_char_app, A2, B2).
  assert (C3 : has_char NUL (a ++ LF :: LF :: b ++ [LF; LF]) = false)
    by (now rewrite !has_char_app, !has_char_cons, !has_char_app, A3, B3).
  unfold two_paragraphs.
  change (str "<p>" ++ a ++ str "</p>" ++ ws ++ str "<p>" ++ b ++ str "</p>")
    with (LT :: 112 :: 62 :: a ++ LT :: 47 :: 112 :: 62 :: ws
            ++ LT :: 112 :: 62 :: b ++ [LT; 47; 112; 62]).
  unfold htmlToMrkdwn.
  scan. scan. scan. scan.
  repeat (rewrite (replace_absent _ _ (x := LT))
            by (try reflexivity; exact C1);
          cbn [bind]).
  rewrite (replace_absent re_link_start _ (x := NUL))
    by (try reflexivity; exact C3).
  cbn [bind].
  rewrite (replace_absent re_link_end _ (x := NUL))
    by (try reflexivity; exact C3).
  cbn [bind].
  rewrite decodeHtmlEntities_absent by exact C2.
  reflexivity.
Qed.

(** Two paragraphs of tidy plain text come out with exactly two newlines
    between them. *)
Lemma two_paragraphs_result a ws b :
  plain a = true -> plain b = true -> forallb is_space ws = true ->
  tidy a = true -> tidy b = true ->
  htmlToMrkdwn (two_paragraphs a ws b) = Normal (a ++ [LF; LF] ++ b).
Proof.
  intros. rewrite two_paragraphs_pipeline by assumption.
  now apply cleanup_paragraphs.
Qed.

(** ** Every match the matcher finds is a match of the pattern *)

Section MatcherSound.
Variable A : Type.
Variable ic : bool.

Lemma match_chars_split xs : forall s s',
  match_chars ic xs s = Some s' ->
  exists w, s = w ++ s' /\ match_chars ic xs w = Some [].
Proof.
  induction xs as [|x xs IH]; intros s s' H; cbn [match_chars] in H.
  - inversion H; subst. now exists [].
  - destruct s as [|c s]; [discriminate|].
    destruct (char_match ic x c) eqn:E; [|discriminate].
    destruct (IH _ _ H) as (w & -> & Hw). exists (c :: w).
    split; [reflexivity|]. cbn [match_chars]. now rewrite E.
Qed.

Lemma star_greedy_split p (k : jsstring -> option A) v : forall s,
  star_greedy p s k = Some v ->
  exists w s', s = w ++ s' /\ forallb p w = true /\ k s' = Some v.
Proof.
  induction s as [|c s IH]; cbn [star_greedy]; intros H.
  - now exists [], [].
  - destruct (p c) eqn:Ep; [|now exists [], (c :: s)].
    destruct (star_greedy p s k) eqn:E.
    + inversion H; subst. destruct (IH eq_refl) as (w & s' & -> & Hw & Hk).
      exists (c :: w), s'. cbn [forallb app]. now rewrite Ep, Hw.
    + now exists [], (c :: s).
Qed.

Lemma star_lazy_split p (k : jsstring -> option A) v : forall s,
  star_lazy p s k = Some v ->
  exists w s', s = w ++ s' /\ forallb p w = true /\ k s' = Some v.
Proof.
  induction s as [|c s IH]; cbn [star_lazy]; intros H.
  - destruct (k []) eqn:E; [|discriminate]. inversion H; subst.
    now exists [], [].
  - destruct (k (c :: s)) eqn:E.
    + inversion H; subst. now exists [], (c :: s).
    + destruct (p c) eqn:Ep; [|discriminate].
      destruct (IH H) as (w & s' & -> & Hw & Hk).
      exists (c :: w), s'. cbn [forallb app]. now rewrite Ep, Hw.
Qed.

Lemma rep_split greedy p (k : jsstring -> option A) v : forall min s,
  rep min greedy p s k = Some v ->
  exists w s', s = w ++ s' /\ forallb p w = true
               /\ (min <= length w)%nat /\ k s' = Some v.
Proof.
  induction min as [|n IH]; cbn [rep]; intros s H.
  - destruct greedy;
      [apply star_greedy_split in H|apply star_lazy_split in H];
      destruct H as (w & s' & -> & Hw & Hk); exists w, s';
      repeat split; auto; lia.
  - destruct s as [|c s]; [discriminate|].
    destruct (p c) eqn:Ep; [|discriminate].
    destruct (IH _ H) as (w & s' & -> & Hw & Hn & Hk).
    exists (c :: w), s'. cbn [forallb app length]. rewrite Ep, Hw.
    repeat split; auto. lia.
Qed.

Lemma m_sound : forall r s cs (k : cont A) v,
  m ic r s cs k = Some v ->
  exists w s' cs',
    s = w ++ s' /\ matches ic r w cs cs' /\ k s' cs' = Some v.
Proof.
  induction r
    as [xs|p|min greedy p|r1 IH1|r1 IH1 r2 IH2|r1 IH1 r2 IH2|j r1 IH1];
    intros s cs k v H; cbn [m] in H.
  - destruct (match_chars ic xs s) as [s'|] eqn:E; [|discriminate].
    destruct (match_chars_split _ _ E) as (w & -> & Hw).
    exists w, s', cs. repeat split; auto. now constructor.
  - destruct s as [|c s]; [discriminate|].
    destruct (p c) eqn:Ep; [|discriminate].
    exists [c], s, cs. repeat split; auto. now constructor.
  - apply rep_split in H. destruct H as (w & s' & -> & Hw & Hn & Hk).
    exists w, s', cs. repeat split; auto. now constructor.
  - destruct (m ic r1 s cs k) eqn:E.
    + inversion H; subst.
      destruct (IH1 _ _ _ _ E) as (w & s' & cs' & -> & Hm & Hk).
      exists w, s', cs'. repeat split; auto. now apply matches_Opt_some.
    + exists [], s, cs. repeat split; auto. apply matches_Opt_none.
  - destruct (m ic r1 s cs k) eqn:E.
    + inversion H; subst.
      destruct (IH1 _ _ _ _ E) as (w & s' & cs' & -> & Hm & Hk).
      exists w, s', cs'. repeat split; auto. now apply matches_Alt_left.
    + destruct (IH2 _ _ _ _ H) as (w & s' & cs' & -> & Hm & Hk).
      exists w, s', cs'. repeat split; auto. now apply matches_Alt_right.
  - destruct (IH1 _ _ _ _ H) as (w1 & s1 & cs1 & -> & Hm1 & H1).
    destruct (IH2 _ _ _ _ H1) as (w2 & s2 & cs2 & -> & Hm2 & H2).
    exists (w1 ++ w2), s2, cs2. rewrite <- app_assoc.
    repeat split; auto. econstructor; eassumption.
  - destruct (IH1 _ _ _ _ H) as (w & s' & cs' & -> & Hm & Hk).
    rewrite consumed_app in Hk.
    exists w, s', ((j, w) :: cs'). repeat split; auto. now constructor.
Qed.
End MatcherSound.

Lemma exec_at_sound re s rest cs :
  exec_at re s = Some (rest, cs) ->
  exists w, s = w ++ rest /\ matches (ignoreCase re) (pattern re) w [] cs.
Proof.
  unfold exec_at. intros H. apply m_sound in H.
  destruct H as (w & s' & cs' & -> & Hm & Hk). inversion Hk; subst.
  now exists w.
Qed.

Lemma match_chars_head ic x xs w :
  x < 65 -> match_chars ic (x :: xs) w = Some [] -> exists w', w = x :: w'.
Proof.
  intros Hx H. destruct w as [|c w]; [discriminate|]. cbn [match_chars] in H.
  rewrite char_match_nonletter in H by exact Hx.
  destruct (c =? x) eqn:E; [|discriminate]. apply Z.eqb_eq in E. subst c.
  now exists w.
Qed.

Lemma matches_head ic x : x < 65 -> forall r w cs cs',
  matches ic r w cs cs' -> head_char r = Some x -> exists w', w = x :: w'.
Proof.
  intros Hx. induction 1; cbn [head_char]; intros Hh; try discriminate.
  - destruct xs as [|y xs]; [discriminate|]. inversion Hh; subst y.
    now apply match_chars_head with (ic := ic) (xs := xs).
  - destruct (IHmatches1 Hh) as (w' & ->). now exists (w' ++ w2).
  - auto.
Qed.

Lemma match_chars_last ic x : x < 65 -> forall xs w,
  match_chars ic (xs ++ [x]) w = Some [] -> exists w', w = w' ++ [x].
Proof.
  intros Hx. induction xs as [|y xs IH]; intros w H.
  - cbn [app] in H. destruct (match_chars_head _ _ _ Hx H) as (w' & ->).
    cbn [match_chars] in H. destruct (char_match ic x x); [|discriminate].
    destruct w'; [|discriminate]. now exists [].
  - destruct w as [|c w]; [discriminate|]. cbn [app match_chars] in H.
    destruct (char_match ic y c); [|discriminate].
    destruct (IH _ H) as (w' & ->). now exists (c :: w').
Qed.

Lemma matches_last ic x : x < 65 -> forall r w cs cs',
  matches ic r w cs cs' -> last_char r = Some x -> exists w', w = w' ++ [x].
Proof.
  intros Hx. induction 1; cbn [last_char]; intros Hl; try discriminate.
  - destruct (rev xs) as [|y ys] eqn:E; [discriminate|]. inversion Hl; subst y.
    apply (f_equal (@rev char)) in E. rewrite rev_involutive in E.
    cbn [rev] in E. subst xs. now apply match_chars_last with (ic := ic)
                                                              (xs := rev ys).
  - destruct (IHmatches2 Hl) as (w' & ->). exists (w1 ++ w').
    now rewrite app_assoc.
  - auto.
Qed.

(** ** Every match of the pattern is found by the matcher *)

Section MatcherComplete.
Variable A : Type.
Variable ic : bool.

Lemma match_chars_app xs : forall w s',
  match_chars ic xs w = Some [] -> match_chars ic xs (w ++ s') = Some s'.
Proof.
  induction xs as [|x xs IH]; intros w s' H; cbn [match_chars] in *.
  - inversion H; subst. reflexivity.
  - destruct w as [|c w]; [discriminate|]. cbn [app].
    destruct (char_match ic x c); [|discriminate]. now apply IH.
Qed.

Lemma star_greedy_finds p (k : jsstring -> option A) s' v : forall w,
  forallb p w = true -> k s' = Some v ->
  exists v', star_greedy p (w ++ s') k = Some v'.
Proof.
  induction w as [|c w IH]; intros Hw Hk.
  - cbn [app]. destruct s' as [|c s']; cbn [star_greedy]; [eauto|].
    destruct (p c); [|eauto].
    destruct (star_greedy p s' k); eauto.
  - cbn [forallb] in Hw. apply andb_prop in Hw. destruct Hw as [Hc Hw].
    cbn [app star_greedy]. rewrite Hc.
    destruct (IH Hw Hk) as (v' & ->). eauto.
Qed.

Lemma star_lazy_finds p (k : jsstring -> option A) s' v : forall w,
  forallb p w = true -> k s' = Some v ->
  exists v', star_lazy p (w ++ s') k = Some v'.
Proof.
  induction w as [|c w IH]; intros Hw Hk.
  - cbn [app]. destruct s' as [|c s']; cbn [star_lazy]; rewrite Hk; eauto.
  - cbn [forallb] in Hw. apply andb_prop in Hw. destruct Hw as [Hc Hw].
    cbn [app star_lazy]. destruct (k (c :: w ++ s')); [eauto|].
    rewrite Hc. now apply IH.
Qed.

Lemma rep_finds greedy p (k : jsstring -> option A) s' v : forall min w,
  forallb p w = true -> (min <= length w)%nat -> k s' = Some v ->
  exists v', rep min greedy p (w ++ s') k = Some v'.
Proof.
  induction min as [|n IH]; intros w Hw Hn Hk; cbn [rep].
  - destruct greedy; [eapply star_greedy_finds|eapply star_lazy_finds]; eauto.
  - destruct w as [|c w]; [cbn in Hn; lia|].
    cbn [forallb] in Hw. apply andb_prop in Hw. destruct Hw as [Hc Hw].
    cbn [app]. rewrite Hc. apply IH; auto. cbn [length] in Hn. lia.
Qed.

Lemma m_complete r w cs cs' :
  matches ic r w cs cs' ->
  forall s' (k : cont A) v,
  k s' cs' = Some v -> exists v', m ic r (w ++ s') cs k = Some v'.
Proof.
  induction 1; intros s' k v Hk; cbn [m].
  - rewrite match_chars_app by assumption. eauto.
  - cbn [app]. rewrite H. eauto.
  - eapply rep_finds with (k := fun s0 => k s0 cs); eauto.
  - destruct (IHmatches _ _ _ Hk) as (v' & ->). eauto.
  - cbn [app]. destruct (m ic r s' cs k); eauto.
  - destruct (IHmatches _ _ _ Hk) as (v' & ->). eauto.
  - destruct (m ic r1 (w ++ s') cs k); [eauto|]. eapply IHmatches; eauto.
  - rewrite <- app_assoc.
    destruct (IHmatches2 _ _ _ Hk) as (v2 & H2).
    eapply IHmatches1 with (k := fun s0 cs0 => m ic r2 s0 cs0 k). exact H2.
  - eapply IHmatches
      with (k := fun s0 cs0 => k s0 ((i, consumed (w ++ s') s0) :: cs0)).
    rewrite consumed_app. exact Hk.
Qed.
End MatcherComplete.

Lemma exec_at_complete re w cs rest :
  matches (ignoreCase re) (pattern re) w [] cs ->
  exists r' cs', exec_at re (w ++ rest) = Some (r', cs').
Proof.
  intros H. unfold exec_at.
  destruct (@m_complete _ (ignoreCase re) _ _ _ _ H rest
              (fun s' cs0 => Some (s', cs0)) (rest, cs) eq_refl)
    as ([r' cs'] & E).
  eauto.
Qed.

(** ** The patterns that read one tag *)

Lemma char_match_of_nonletter ic x c :
  c < 65 -> char_match ic x c = true -> x = c.
Proof.
  intros Hc H. unfold char_match, canonicalize in H. destruct ic; [|lia].
  destruct ((97 <=? x) && (x <=? 122)) eqn:Ex;
    destruct ((97 <=? c) && (c <=? 122)) eqn:E; lia.
Qed.

Lemma match_chars_lacks ic c : c < 65 -> forall xs w,
  has_char c xs = false -> match_chars ic xs w = Some [] ->
  has_char c w = false.
Proof.
  intros Hc. induction xs as [|x xs IH]; intros w Hx H.
  - cbn in H. now inversion H.
  - destruct w as [|d w]; [discriminate|]. cbn [match_chars] in H.
    destruct (char_match ic x d) eqn:E; [|discriminate].
    rewrite has_char_cons in Hx. apply orb_false_elim in Hx.
    destruct Hx as [Hx0 Hx]. rewrite has_char_cons, (IH w Hx H).
    apply orb_false_intro; [|reflexivity]. apply Z.eqb_neq. intros ->.
    apply char_match_of_nonletter in E; [|exact Hc].
    apply Z.eqb_neq in Hx0. congruence.
Qed.

Lemma forallb_lacks (p : char -> bool) x : p x = false -> forall w,
  forallb p w = true -> has_char x w = false.
Proof.
  intros Hp. induction w as [|c w IH]; intros H; [reflexivity|].
  cbn [forallb] in H. apply andb_prop in H. destruct H as [Hc H].
  rewrite has_char_cons, (IH H). apply orb_false_intro; [|reflexivity].
  apply Z.eqb_neq. intros ->. congruence.
Qed.

Lemma has_char_rev x : forall s, has_char x (rev s) = has_char x s.
Proof.
  induction s as [|c s IH]; [reflexivity|].
  cbn [rev]. rewrite has_char_app, has_char_cons, IH.
  unfold has_char at 2. cbn [existsb]. rewrite orb_false_r. apply orb_comm.
Qed.

Lemma avoids_ok ic x : x < 65 -> forall r w cs cs',
  matches ic r w cs cs' -> avoids x r = true -> has_char x w = false.
Proof.
  intros Hx. induction 1; cbn [avoids]; intros Ha;
    try (apply andb_prop in Ha; destruct Ha as [Ha1 Ha2]);
    try rewrite negb_true_iff in *; auto.
  - now apply match_chars_lacks with (ic := ic) (xs := xs).
  - rewrite has_char_cons. apply orb_false_intro; [|reflexivity].
    apply Z.eqb_neq. intros ->. congruence.
  - now apply forallb_lacks with (p := p).
  - rewrite has_char_app, IHmatches1, IHmatches2; auto.
Qed.

Lemma ends_at_ok ic x : x < 65 -> forall r w cs cs',
  matches ic r w cs cs' -> ends_at x r = true ->
  exists g, w = g ++ [x] /\ has_char x g = false.
Proof.
  intros Hx. induction 1; cbn [ends_at]; intros He; try discriminate.
  - destruct (rev xs) as [|y pre] eqn:E; [discriminate|].
    apply andb_prop in He. destruct He as [Hy Hpre].
    apply Z.eqb_eq in Hy. subst y. apply negb_true_iff in Hpre.
    apply (f_equal (@rev char)) in E. rewrite rev_involutive in E.
    cbn [rev] in E. subst xs.
    destruct (@match_chars_last ic x Hx (rev pre) w H) as (g & ->).
    exists g. split; [reflexivity|].
    assert (L : forall ys u v, match_chars ic (ys ++ [x]) (u ++ [v])
                                = Some [] -> match_chars ic ys u = Some []).
    { induction ys as [|y ys IH]; intros u v Hm.
      - destruct u as [|u0 u]; [reflexivity|]. cbn in Hm.
        destruct (char_match ic x u0); [|discriminate].
        destruct u; discriminate.
      - destruct u as [|u0 u].
        + cbn in Hm. destruct (char_match ic y v); [|discriminate].
          destruct ys; discriminate.
        + cbn [app match_chars] in *.
          destruct (char_match ic y u0); [|discriminate]. eauto. }
    apply match_chars_lacks with (ic := ic) (xs := rev pre); auto.
    + now rewrite has_char_rev.
    + eapply L; eauto.
  - apply andb_prop in He. destruct He as [Ha He].
    destruct (IHmatches2 He) as (g & -> & Hg). exists (w1 ++ g).
    split; [now rewrite app_assoc|].
    rewrite has_char_app, Hg, (avoids_ok Hx H Ha). reflexivity.
  - auto.
Qed.

Lemma no_groups ic : forall r w cs cs',
  matches ic r w cs cs' -> ngroups r = 0%nat -> cs' = cs.
Proof.
  induction 1; cbn [ngroups]; intros Hn; try reflexivity; try discriminate;
    try (apply IHmatches; lia).
  rewrite IHmatches2 by lia. apply IHmatches1. lia.
Qed.

Lemma first_cut (x : char) : forall g g' a b,
  g ++ x :: a = g' ++ x :: b ->
  has_char x g = false -> has_char x g' = false -> g = g' /\ a = b.
Proof.
  induction g as [|c g IH]; intros [|c' g'] a b E Hg Hg'; cbn [app] in E.
  - inversion E. auto.
  - inversion E; subst. rewrite has_char_cons, Z.eqb_refl in Hg'.
    discriminate.
  - inversion E; subst. rewrite has_char_cons, Z.eqb_refl in Hg.
    discriminate.
  - inversion E; subst. rewrite has_char_cons in Hg, Hg'.
    apply orb_false_elim in Hg, Hg'.
    destruct (IH g' a b H1) as [-> ->]; tauto.
Qed.

Lemma tag_pattern_inv re :
  tag_pattern re = true ->
  head_char (pattern re) = Some LT /\ ends_at GT (pattern re) = true
  /\ ngroups (pattern re) = 0%nat.
Proof.
  unfold tag_pattern. intros H. apply andb_prop in H. destruct H as [H H3].
  apply andb_prop in H. destruct H as [H1 H2].
  destruct (head_char (pattern re)) as [x|]; [|discriminate].
  apply Z.eqb_eq in H1. subst x. apply Nat.eqb_eq in H3. auto.
Qed.

(** A match of such a pattern is one tag. *)
Lemma tag_match re w cs :
  tag_pattern re = true ->
  matches (ignoreCase re) (pattern re) w [] cs ->
  cs = [] /\ exists g, w = LT :: g ++ [GT] /\ has_char GT g = false.
Proof.
  intros Ht Hm. apply tag_pattern_inv in Ht. destruct Ht as (Hh & He & Hn).
  split; [now apply (no_groups Hm)|].
  destruct (@matches_head _ LT eq_refl _ _ _ _ Hm Hh) as (w' & ->).
  destruct (@ends_at_ok _ GT eq_refl _ _ _ _ Hm He) as (g0 & E & Hg).
  destruct g0 as [|c g]; [discriminate|]. cbn [app] in E.
  inversion E; subst. exists g. split; [reflexivity|].
  rewrite has_char_cons in Hg. apply orb_false_elim in Hg. tauto.
Qed.

(** At a tag the pattern decides by the tag alone. *)
Lemma exec_at_unit re g rest :
  tag_pattern re = true -> has_char GT g = false ->
  exec_at re (LT :: g ++ GT :: rest)
  = if accepts re g then Some (rest, []) else None.
Proof.
  intros Ht Hg. unfold accepts.
  destruct (exec_at re (LT :: g ++ [GT])) as [[r1 c1]|] eqn:E1.
  - destruct (exec_at_sound _ _ E1) as (w & Ew & Hm).
    destruct (tag_match _ Ht Hm) as (-> & g' & -> & Hg').
    cbn [app] in Ew. inversion Ew as [Eg]. rewrite <- app_assoc in Eg.
    cbn [app] in Eg. apply first_cut in Eg; auto. destruct Eg as [<- <-].
    destruct (@exec_at_complete re _ _ rest Hm) as (r' & cs' & E2).
    cbn [app] in E2. rewrite <- app_assoc in E2. cbn [app] in E2.
    rewrite E2. destruct (exec_at_sound _ _ E2) as (w2 & Ew2 & Hm2).
    destruct (tag_match _ Ht Hm2) as (-> & g2 & -> & Hg2).
    cbn [app] in Ew2. inversion Ew2 as [Eg2]. rewrite <- app_assoc in Eg2.
    cbn [app] in Eg2. apply first_cut in Eg2; auto.
    destruct Eg2 as [_ <-]. reflexivity.
  - destruct (exec_at re (LT :: g ++ GT :: rest)) as [[r' cs']|] eqn:E2;
      [exfalso|reflexivity].
    destruct (exec_at_sound _ _ E2) as (w & Ew & Hm).
    destruct (tag_match _ Ht Hm) as (-> & g' & -> & Hg').
    cbn [app] in Ew. inversion Ew as [Eg]. rewrite <- app_assoc in Eg.
    cbn [app] in Eg. apply first_cut in Eg; auto. destruct Eg as [<- _].
    destruct (@exec_at_complete re _ _ [] Hm) as (r3 & c3 & E3).
    rewrite app_nil_r in E3. cbn [app] in E3. congruence.
Qed.

(** Without a closing bracket behind it a [<] opens no tag. *)
Lemma exec_at_unclosed re t :
  tag_pattern re = true -> has_char GT t = false ->
  exec_at re (LT :: t) = None.
Proof.
  intros Ht Hg.
  destruct (exec_at re (LT :: t)) as [[r cs]|] eqn:E; [exfalso|reflexivity].
  destruct (exec_at_sound _ _ E) as (w & Ew & Hm).
  destruct (tag_match _ Ht Hm) as (_ & g & -> & _).
  cbn [app] in Ew. inversion Ew as [Et]. rewrite Et in Hg.
  rewrite <- app_assoc in Hg. rewrite !has_char_app in Hg. cbn in Hg.
  rewrite orb_true_r in Hg. discriminate.
Qed.

Lemma cut_at_some x : forall s g rest,
  cut_at x s = Some (g, rest) -> s = g ++ x :: rest /\ has_char x g = false.
Proof.
  induction s as [|c s IH]; intros g rest H; [discriminate|].
  cbn [cut_at] in H. destruct (c =? x) eqn:E.
  - inversion H; subst. apply Z.eqb_eq in E. subst. auto.
  - destruct (cut_at x s) as [[g0 r0]|]; [|discriminate].
    inversion H; subst. destruct (IH _ _ eq_refl) as [-> Hg].
    split; [reflexivity|]. now rewrite has_char_cons, E.
Qed.

Lemma cut_at_none x : forall s, cut_at x s = None -> has_char x s = false.
Proof.
  induction s as [|c s IH]; intros H; [reflexivity|]. cbn [cut_at] in H.
  destruct (c =? x) eqn:E; [discriminate|].
  destruct (cut_at x s) as [[g0 r0]|]; [discriminate|].
  now rewrite has_char_cons, E, IH.
Qed.

Lemma cut_at_app x : forall g rest,
  has_char x g = false -> cut_at x (g ++ x :: rest) = Some (g, rest).
Proof.
  induction g as [|c g IH]; intros rest H; cbn [app cut_at].
  - now rewrite Z.eqb_refl.
  - rewrite has_char_cons in H. apply orb_false_elim in H.
    destruct H as [Hc H]. now rewrite Hc, IH.
Qed.

(** What such a pattern does at any place of any text. *)
Lemma exec_at_tag_at re s :
  tag_pattern re = true ->
  exec_at re s = match tag_at (accepts re) s with
                 | Some rest => Some (rest, [])
                 | None => None
                 end.
Proof.
  intros Ht. pose proof (tag_pattern_inv _ Ht) as (Hh & _ & _).
  destruct s as [|c s]; [now apply exec_at_nil with (x := LT)|].
  cbn [tag_at]. destruct (c =? LT) eqn:Ec.
  - apply Z.eqb_eq in Ec. subst c.
    destruct (cut_at GT s) as [[g rest]|] eqn:E.
    + apply cut_at_some in E. destruct E as [-> Hg].
      rewrite exec_at_unit by assumption. now destruct (accepts re g).
    + apply cut_at_none in E. now apply exec_at_unclosed.
  - apply exec_at_other with (x := LT); auto; [reflexivity|].
    now apply Z.eqb_neq.
Qed.

(** ** A stage on tags, on any text *)

Lemma getSubstitution_plain matched cs n : forall tmpl,
  has_char 36 tmpl = false -> getSubstitution matched cs n tmpl = tmpl.
Proof.
  induction tmpl as [|c tmpl IH]; intros H; [reflexivity|].
  rewrite has_char_cons in H. apply orb_false_elim in H.
  destruct H as [Hc H]. cbn [getSubstitution]. rewrite Hc.
  now rewrite IH.
Qed.

(** A replacement by a text without [$], for a pattern without groups
    whose matches [at_] recognises, is the scan for [at_]. *)
Lemma replace_from_scan re d (at_ : jsstring -> option jsstring) :
  has_char 36 d = false ->
  (forall s, exec_at re s = match at_ s with
                            | Some rest => Some (rest, [])
                            | None => None
                            end) ->
  at_ [] = None ->
  forall s skip,
  replace_from re (ReplString d) s skip = Normal (scan at_ d s skip).
Proof.
  intros Hd Hat Hnil. induction s as [|c s IH]; intros skip.
  - cbn [replace_from scan]. rewrite Hat, Hnil. now destruct skip.
  - cbn [replace_from scan]. destruct skip as [|n]; [|apply IH].
    rewrite Hat. destruct (at_ (c :: s)) as [rest|]; [|now rewrite IH].
    destruct (length (c :: s) - length rest)%nat as [|n];
      cbn [replacement]; rewrite getSubstitution_plain by exact Hd;
      cbn [bind]; now rewrite IH.
Qed.

Lemma replace_tag_scan re d s :
  tag_pattern re = true -> has_char 36 d = false ->
  replace re (ReplString d) s = Normal (scan (tag_at (accepts re)) d s 0).
Proof.
  intros Ht Hd. unfold replace. apply replace_from_scan; auto.
  intros s0. now apply exec_at_tag_at.
Qed.

(** ** Patterns with one match at most at a place *)

Lemma app_eq_length (A : Type) : forall (w v t s : list A),
  v ++ s = w ++ t -> (length w <= length v)%nat ->
  exists v2, v = w ++ v2 /\ t = v2 ++ s.
Proof.
  induction w as [|x w IH]; intros v t s E Hl.
  - exists v. cbn in E. auto.
  - destruct v as [|y v]; [cbn in Hl; lia|]. cbn [app] in E.
    inversion E; subst. cbn [length] in Hl.
    destruct (IH v t s H1 ltac:(lia)) as (v2 & -> & ->). now exists v2.
Qed.

Section Determined.
Variable re : RegExp.
Hypothesis re_determined : determined re.

(** The matcher finds the match. *)
Lemma exec_at_determined w cs rest :
  matches (ignoreCase re) (pattern re) w [] cs ->
  exec_at re (w ++ rest) = Some (rest, cs).
Proof.
  intros Hm. destruct (@exec_at_complete re w cs rest Hm) as (r' & cs' & E).
  rewrite E. destruct (exec_at_sound _ _ E) as (w' & Ew & Hm').
  pose proof re_determined as D. unfold determined in D.
  destruct (D w w' cs cs' rest r' Hm Hm' Ew) as [<- <-].
  apply app_inv_head in Ew. now subst.
Qed.

Variable rv : replaceValue.
Variable x : char.
Hypothesis re_head : head_char (pattern re) = Some x.
Hypothesis x_nonletter : x < 65.

(** Behind a text that bounds its matches the scan starts afresh. *)
Lemma replace_from_bounded : forall n P s,
  (length P <= n)%nat -> bounded re P s ->
  replace_from re rv (P ++ s) 0
  = (a <- replace_from re rv P 0 ;;
     b <- replace_from re rv s 0 ;;
     Normal (a ++ b)).
Proof.
  induction n as [|n IH]; intros P s Hn Hb.
  - destruct P; [|cbn in Hn; lia]. cbn [app].
    rewrite (@replace_from_nil re rv x re_head). cbn [bind].
    now destruct (replace_from re rv s 0).
  - destruct P as [|c P].
    { cbn [app]. rewrite (@replace_from_nil re rv x re_head). cbn [bind].
      now destruct (replace_from re rv s 0). }
    assert (Hb' : forall P2 u, c :: P = u ++ P2 -> bounded re P2 s).
    { intros P2 u0 E u v w cs t -> Hv Hm Ev.
      apply (Hb (u0 ++ u) v w cs t); auto. now rewrite <- app_assoc. }
    destruct (exec_at re ((c :: P) ++ s)) as [[r' cs]|] eqn:E.
    + destruct (exec_at_sound _ _ E) as (w & Ew & Hm).
      assert (Hl : (length w <= length (c :: P))%nat)
        by (apply (Hb [] (c :: P) w cs r'); auto; discriminate).
      destruct (app_eq_length _ _ _ _ Ew Hl) as (P2 & EP & ->).
      destruct (@matches_head _ x x_nonletter _ _ _ _ Hm re_head)
        as (w' & ->).
      assert (R1 := @replace_from_match re rv (x :: w') (P2 ++ s) cs
                      ltac:(discriminate) (exec_at_determined (P2 ++ s) Hm)).
      assert (R2 := @replace_from_match re rv (x :: w') P2 cs
                      ltac:(discriminate) (exec_at_determined P2 Hm)).
      match goal with
      | |- replace_from re rv ?t 0 = bind (replace_from re rv ?p 0) _ =>
          assert (G1 : t = (x :: w') ++ P2 ++ s)
            by (rewrite EP; symmetry; apply app_assoc);
          assert (G2 : p = (x :: w') ++ P2) by exact EP;
          rewrite G1, G2
      end.
      rewrite R1, R2.
      rewrite (IH P2 s).
      * destruct (replacement re rv (x :: w') cs); [|reflexivity].
        cbn [bind]. destruct (replace_from re rv P2 0); [|reflexivity].
        cbn [bind]. destruct (replace_from re rv s 0); [|reflexivity].
        cbn [bind]. now rewrite app_assoc.
      * apply (f_equal (@length char)) in EP. cbn [length app] in EP.
        rewrite length_app in EP. cbn [length] in *. lia.
      * apply (Hb' P2 (x :: w')). exact EP.
    + assert (E' : exec_at re (c :: P) = None).
      { destruct (exec_at re (c :: P)) as [[r2 cs2]|] eqn:E2; [|reflexivity].
        destruct (exec_at_sound _ _ E2) as (w & Ew & Hm).
        rewrite Ew, <- app_assoc in E.
        rewrite (exec_at_determined (r2 ++ s) Hm) in E. discriminate. }
      cbn [app] in *. rewrite !replace_from_miss by assumption.
      rewrite (IH P s);
        [|cbn [length] in Hn; lia|apply (Hb' P [c]); reflexivity].
      destruct (replace_from re rv P 0); [|reflexivity]. cbn [bind].
      now destruct (replace_from re rv s 0).
Qed.

Lemma replace_bounded P s :
  bounded re P s ->
  replace re rv (P ++ s)
  = (a <- replace re rv P ;; b <- replace re rv s ;; Normal (a ++ b)).
Proof.
  intros H. unfold replace.
  now apply (@replace_from_bounded (length P) P s (le_n _)).
Qed.

(** A match at the head of the text. *)
Lemma replace_hit w cs rest :
  matches (ignoreCase re) (pattern re) w [] cs ->
  replace re rv (w ++ rest)
  = (r <- replacement re rv w cs ;;
     out <- replace re rv rest ;;
     Normal (r ++ out)).
Proof.
  intros Hm. unfold replace.
  destruct (@matches_head _ x x_nonletter _ _ _ _ Hm re_head) as (w' & ->).
  apply replace_from_match; [discriminate|now apply exec_at_determined].
Qed.
End Determined.

(** The patterns that read one tag are determined. *)
Lemma tag_pattern_determined re : tag_pattern re = true -> determined re.
Proof.
  intros Ht w1 w2 cs1 cs2 t1 t2 H1 H2 E.
  destruct (tag_match _ Ht H1) as (-> & g1 & -> & Hg1).
  destruct (tag_match _ Ht H2) as (-> & g2 & -> & Hg2).
  cbn [app] in E. inversion E as [Eg]. rewrite <- !app_assoc in Eg.
  cbn [app] in Eg. apply first_cut in Eg; auto. destruct Eg as [-> _]. auto.
Qed.

(** ** The patterns of the entities and of the markers *)

Ltac invert_matches :=
  repeat match goal with
  | H : matches _ (Cat _ _) _ _ _ |- _ => inversion H; subst; clear H
  | H : matches _ (Group _ _) _ _ _ |- _ => inversion H; subst; clear H
  | H : matches _ (Chars _) _ _ _ |- _ => inversion H; subst; clear H
  | H : matches _ (Class _) _ _ _ |- _ => inversion H; subst; clear H
  | H : matches _ (Rep _ _ _) _ _ _ |- _ => inversion H; subst; clear H
  end.

Lemma match_chars_exact : forall xs w,
  match_chars false xs w = Some [] -> w = xs.
Proof.
  induction xs as [|x xs IH]; intros w H.
  - cbn in H. now inversion H.
  - destruct w as [|c w]; [discriminate|]. cbn [match_chars char_match] in H.
    destruct (c =? x) eqn:E; [|discriminate]. apply Z.eqb_eq in E.
    subst c. f_equal. now apply IH.
Qed.

Lemma match_chars_refl : forall xs, match_chars false xs xs = Some [].
Proof.
  induction xs as [|x xs IH]; [reflexivity|].
  cbn [match_chars char_match]. now rewrite Z.eqb_refl.
Qed.

Lemma bounded_nil re P : bounded re P [].
Proof.
  intros u v w cs t _ _ _ E. rewrite app_nil_r in E.
  apply (f_equal (@length char)) in E. rewrite length_app in E. lia.
Qed.

Lemma app_eq_longer (c : char) : forall (v w s t : jsstring),
  v ++ c :: s = w ++ t -> (length v < length w)%nat ->
  exists w2, w = v ++ c :: w2.
Proof.
  induction v as [|y v IH]; intros w s t E Hl.
  - destruct w as [|x w]; [cbn in Hl; lia|]. cbn [app] in E.
    inversion E; subst. now exists w.
  - destruct w as [|x w]; [cbn in Hl; lia|]. cbn [app] in E.
    inversion E; subst. cbn [length] in Hl.
    destruct (IH w s t H1 ltac:(lia)) as (w2 & ->). now exists w2.
Qed.

(** A character that no match holds behind its head bounds the matches
    before it. *)
Lemma bounded_at re c P s : tail_lacks re c -> bounded re P (c :: s).
Proof.
  intros Ht u v w cs t _ Hv Hm E.
  destruct (Nat.le_gt_cases (length w) (length v)) as [|Hl]; [assumption|].
  exfalso. destruct (@app_eq_longer c v w s t E Hl) as (w2 & Ew).
  destruct (Ht w cs Hm) as (h & w' & -> & Hc).
  destruct v as [|y v]; [congruence|]. cbn [app] in Ew. inversion Ew; subst.
  rewrite has_char_app, has_char_cons, Z.eqb_refl, orb_true_r in Hc.
  discriminate.
Qed.

(** *** The decimal entities *)

Lemma dec_match w cs :
  matches (ignoreCase re_dec) (pattern re_dec) w [] cs ->
  exists ds, w = str "&#" ++ ds ++ str ";" /\ forallb is_digit ds = true
             /\ ds <> [] /\ cs = [(1%nat, ds)].
Proof.
  intros H. unfold re_dec, plus in H. cbn [pattern ignoreCase] in H.
  invert_matches.
  repeat match goal with H : match_chars false _ _ = Some [] |- _ =>
    apply match_chars_exact in H; subst end.
  match goal with H : forallb is_digit ?w = true |- _ => exists w end.
  repeat split; auto. intros ->.
  match goal with H : (1 <= length [])%nat |- _ => cbn in H; lia end.
Qed.

Lemma dec_matches ds :
  forallb is_digit ds = true -> ds <> [] ->
  matches (ignoreCase re_dec) (pattern re_dec) (str "&#" ++ ds ++ str ";")
    [] [(1%nat, ds)].
Proof.
  intros Hd Hn. unfold re_dec, plus. cbn [pattern ignoreCase].
  apply matches_Cat with (cs' := []);
    [apply matches_Chars, match_chars_refl|].
  apply matches_Cat with (cs' := [(1%nat, ds)]);
    [|apply matches_Chars, match_chars_refl].
  apply matches_Group. apply matches_Rep; [assumption|].
  destruct ds; [congruence|cbn [length]; lia].
Qed.

Lemma digits_lack x : is_digit x = false -> forall ds,
  forallb is_digit ds = true -> has_char x ds = false.
Proof. intros Hx ds. now apply forallb_lacks. Qed.

Lemma dec_determined : determined re_dec.
Proof.
  intros w1 w2 cs1 cs2 t1 t2 H1 H2 E.
  destruct (dec_match H1) as (d1 & -> & Hd1 & _ & ->).
  destruct (dec_match H2) as (d2 & -> & Hd2 & _ & ->).
  cbn [app] in E. inversion E as [Ed]. rewrite <- !app_assoc in Ed.
  cbn [app] in Ed. apply first_cut in Ed; try (now apply digits_lack).
  destruct Ed as [-> _]. auto.
Qed.

Lemma outside_numeric_inv c :
  outside_numeric c = true ->
  is_hex_digit c = false /\ is_digit c = false
  /\ c <> 35 /\ c <> 120 /\ c <> 59.
Proof.
  unfold outside_numeric, is_hex_digit. intros H.
  destruct (is_digit c); [discriminate|]. cbn [orb] in *.
  repeat (apply andb_prop in H; destruct H as [H ?]).
  apply negb_true_iff in H. repeat split; try assumption; lia.
Qed.

Lemma dec_tail_lacks c : outside_numeric c = true -> tail_lacks re_dec c.
Proof.
  intros Hc w cs H. destruct (dec_match H) as (ds & -> & Hd & _ & _).
  destruct (outside_numeric_inv _ Hc) as (_ & Hc1 & Hc2 & _ & Hc3).
  exists AMP, (35 :: ds ++ [59]). split; [reflexivity|].
  rewrite has_char_cons, has_char_app, (digits_lack c Hc1 ds Hd).
  rewrite has_char_cons. cbn [has_char existsb orb]. lia.
Qed.

(** *** The hexadecimal entities *)

Lemma hex_match w cs :
  matches (ignoreCase re_hex) (pattern re_hex) w [] cs ->
  exists hs, w = str "&#x" ++ hs ++ str ";" /\ forallb is_hex_digit hs = true
             /\ hs <> [] /\ cs = [(1%nat, hs)].
Proof.
  intros H. unfold re_hex, plus in H. cbn [pattern ignoreCase] in H.
  invert_matches.
  repeat match goal with H : match_chars false _ _ = Some [] |- _ =>
    apply match_chars_exact in H; subst end.
  match goal with H : forallb is_hex_digit ?w = true |- _ => exists w end.
  repeat split; auto. intros ->.
  match goal with H : (1 <= length [])%nat |- _ => cbn in H; lia end.
Qed.

Lemma hex_matches hs :
  forallb is_hex_digit hs = true -> hs <> [] ->
  matches (ignoreCase re_hex) (pattern re_hex) (str "&#x" ++ hs ++ str ";")
    [] [(1%nat, hs)].
Proof.
  intros Hd Hn. unfold re_hex, plus. cbn [pattern ignoreCase].
  apply matches_Cat with (cs' := []);
    [apply matches_Chars, match_chars_refl|].
  apply matches_Cat with (cs' := [(1%nat, hs)]);
    [|apply matches_Chars, match_chars_refl].
  apply matches_Group. apply matches_Rep; [assumption|].
  destruct hs; [congruence|cbn [length]; lia].
Qed.

Lemma hex_determined : determined re_hex.
Proof.
  intros w1 w2 cs1 cs2 t1 t2 H1 H2 E.
  destruct (hex_match H1) as (d1 & -> & Hd1 & _ & ->).
  destruct (hex_match H2) as (d2 & -> & Hd2 & _ & ->).
  cbn [app] in E. inversion E as [Ed]. rewrite <- !app_assoc in Ed.
  cbn [app] in Ed.
  apply first_cut in Ed; try (now apply forallb_lacks with (p := is_hex_digit)).
  destruct Ed as [-> _]. auto.
Qed.

Lemma hex_tail_lacks c : outside_numeric c = true -> tail_lacks re_hex c.
Proof.
  intros Hc w cs H. destruct (hex_match H) as (hs & -> & Hd & _ & _).
  destruct (outside_numeric_inv _ Hc) as (Hc0 & _ & Hc2 & Hc4 & Hc3).
  exists AMP, (35 :: 120 :: hs ++ [59]). split; [reflexivity|].
  rewrite !has_char_cons, has_char_app.
  rewrite (@forallb_lacks is_hex_digit c Hc0 hs Hd).
  rewrite has_char_cons. cbn [has_char existsb orb]. lia.
Qed.

(** *** A numeric entity in any text *)

(** A text in which the pattern matches at no place is copied. *)
Lemma replace_from_copy re rv s : forall P,
  (forall u v, P = u ++ v -> v <> [] -> exec_at re (v ++ s) = None) ->
  replace_from re rv (P ++ s) 0
  = (b <- replace_from re rv s 0 ;; Normal (P ++ b)).
Proof.
  induction P as [|c P IH]; intros H.
  - cbn [app]. now destruct (replace_from re rv s 0).
  - cbn [app]. rewrite replace_from_miss
      by (apply (H [] (c :: P)); [reflexivity|discriminate]).
    rewrite IH by (intros u v -> Hv; now apply (H (c :: u) v)).
    now destruct (replace_from re rv s 0).
Qed.

Lemma replace_dec_in_text pre ds post :
  forallb is_digit ds = true -> ds <> [] ->
  replace re_dec decode_dec (pre ++ (str "&#" ++ ds ++ str ";") ++ post)
  = (a <- replace re_dec decode_dec pre ;;
     b <- replace re_dec decode_dec post ;;
     Normal (a ++ fromCharCode (parseInt ds 10) ++ b)).
Proof.
  intros Hd Hn.
  rewrite (@replace_bounded re_dec dec_determined decode_dec AMP eq_refl eq_refl)
    by (apply bounded_at, (@dec_tail_lacks AMP eq_refl)).
  rewrite (@replace_hit re_dec dec_determined decode_dec AMP eq_refl eq_refl
             _ _ post (dec_matches Hd Hn)).
  cbn [replacement decode_dec capture Nat.eqb to_string bind].
  destruct (replace re_dec decode_dec pre); [|reflexivity]. cbn [bind].
  now destruct (replace re_dec decode_dec post).
Qed.

Lemma replace_hex_in_text pre hs post :
  forallb is_hex_digit hs = true -> hs <> [] ->
  replace re_hex decode_hex (pre ++ (str "&#x" ++ hs ++ str ";") ++ post)
  = (a <- replace re_hex decode_hex pre ;;
     b <- replace re_hex decode_hex post ;;
     Normal (a ++ fromCharCode (parseInt hs 16) ++ b)).
Proof.
  intros Hd Hn.
  rewrite (@replace_bounded re_hex hex_determined decode_hex AMP eq_refl eq_refl)
    by (apply bounded_at, (@hex_tail_lacks AMP eq_refl)).
  rewrite (@replace_hit re_hex hex_determined decode_hex AMP eq_refl eq_refl
             _ _ post (hex_matches Hd Hn)).
  cbn [replacement decode_hex capture Nat.eqb to_string bind].
  destruct (replace re_hex decode_hex pre); [|reflexivity]. cbn [bind].
  now destruct (replace re_hex decode_hex post).
Qed.

(** *** [split] and [join] on a text in two parts *)

Lemma split_from_cons sep : forall s k,
  exists p ps, split_from sep s k = p :: ps.
Proof.
  induction s as [|c s IH]; intros k; [now eexists _, _|].
  destruct k as [|k]; cbn [split_from]; [|apply IH].
  destruct (starts_with sep (c :: s)); [now eexists _, _|].
  destruct (IH 0%nat) as (p & ps & ->). now eexists _, _.
Qed.

Section SplitJoin.
Variables (a : char) (t r : jsstring).

Lemma join_split_hit c s :
  starts_with (a :: t) (c :: s) = true ->
  join r (split_from (a :: t) (c :: s) 0)
  = r ++ join r (split_from (a :: t) s (length t)).
Proof.
  intros H. cbn [split_from]. rewrite H.
  replace (length (a :: t) - 1)%nat with (length t) by (cbn [length]; lia).
  destruct (split_from_cons (a :: t) s (length t)) as (p & ps & ->).
  reflexivity.
Qed.

Lemma join_split_miss c s :
  starts_with (a :: t) (c :: s) = false ->
  join r (split_from (a :: t) (c :: s) 0)
  = c :: join r (split_from (a :: t) s 0).
Proof.
  intros H. cbn [split_from]. rewrite H.
  destruct (split_from_cons (a :: t) s 0) as (p & ps & ->).
  now destruct ps.
Qed.

Lemma starts_with_app sep : forall P s,
  starts_with sep P = true -> starts_with sep (P ++ s) = true.
Proof.
  induction sep as [|y sep IH]; intros P s H; [reflexivity|].
  destruct P as [|p P]; [discriminate|]. cbn [starts_with app] in *.
  apply andb_prop in H. destruct H as [-> H]. now apply IH.
Qed.

Lemma starts_with_bound c sep : forall P s,
  has_char c sep = false -> starts_with sep (P ++ c :: s) = true ->
  starts_with sep P = true /\ (length sep <= length P)%nat.
Proof.
  induction sep as [|y sep IH]; intros P s Hc H; [split; [reflexivity|]|].
  - cbn. lia.
  - rewrite has_char_cons in Hc. apply orb_false_elim in Hc.
    destruct Hc as [Hy Hc]. destruct P as [|p P]; cbn [starts_with app] in *.
    + apply andb_prop in H. destruct H as [H _]. lia.
    + apply andb_prop in H. destruct H as [-> H].
      destruct (IH P s Hc H) as [E0 Hl]. rewrite E0. split; [reflexivity|].
      cbn [length]. lia.
Qed.

Lemma starts_with_refl sep : forall s, starts_with sep (sep ++ s) = true.
Proof.
  induction sep as [|y sep IH]; intros s; [reflexivity|].
  cbn [starts_with app]. now rewrite Z.eqb_refl, IH.
Qed.

(** A separator that does not hold [c] behind its head does not reach over
    a [c]: the text is split on both sides of it. *)
Lemma join_split_app c s : has_char c t = false -> forall P k,
  (k <= length P)%nat ->
  join r (split_from (a :: t) (P ++ c :: s) k)
  = join r (split_from (a :: t) P k)
    ++ join r (split_from (a :: t) (c :: s) 0).
Proof.
  intros Hc. induction P as [|p P IH]; intros k Hk.
  - cbn [length] in Hk. replace k with 0%nat by lia. reflexivity.
  - destruct k as [|k].
    + change ((p :: P) ++ c :: s) with (p :: P ++ c :: s).
      destruct (starts_with (a :: t) (p :: P ++ c :: s)) eqn:E.
      * assert (E' := E). cbn [starts_with] in E'.
        apply andb_prop in E'. destruct E' as [Ep E'].
        destruct (@starts_with_bound c t P s Hc E') as [Et Hl].
        rewrite join_split_hit by assumption.
        rewrite join_split_hit
          by (cbn [starts_with]; now rewrite Ep, Et).
        rewrite IH by assumption. now rewrite app_assoc.
      * rewrite join_split_miss by assumption.
        rewrite join_split_miss.
        -- rewrite IH by (cbn; lia). reflexivity.
        -- destruct (starts_with (a :: t) (p :: P)) eqn:E2; [|reflexivity].
           apply (@starts_with_app (a :: t) (p :: P) (c :: s)) in E2.
           cbn [app] in E2. congruence.
    + cbn [app split_from]. apply IH. cbn [length] in Hk. lia.
Qed.

Lemma join_split_pass s : forall X,
  has_char a X = false ->
  join r (split_from (a :: t) (X ++ s) 0)
  = X ++ join r (split_from (a :: t) s 0).
Proof.
  induction X as [|x X IH]; intros H; [reflexivity|].
  rewrite has_char_cons in H. apply orb_false_elim in H.
  destruct H as [Hx H]. cbn [app].
  rewrite join_split_miss by (apply starts_with_other; lia).
  now rewrite IH.
Qed.

(** A text that does not begin with the separator and does not hold its
    first code unit further on is copied. *)
Lemma join_split_copy X s :
  starts_with (a :: t) (X ++ s) = false -> has_char a (tl X) = false ->
  join r (split_from (a :: t) (X ++ s) 0)
  = X ++ join r (split_from (a :: t) s 0).
Proof.
  destruct X as [|x X]; intros H Ha; [reflexivity|].
  cbn [app tl] in *. rewrite join_split_miss by assumption.
  now rewrite join_split_pass.
Qed.

Lemma join_split_skip s : forall X,
  join r (split_from (a :: t) (X ++ s) (length X))
  = join r (split_from (a :: t) s 0).
Proof.
  induction X as [|x X IH]; [reflexivity|].
  cbn [app length split_from]. exact IH.
Qed.

(** The separator at the head of the text is replaced, and the rest is
    split afresh. *)
Lemma join_split_take s :
  join r (split_from (a :: t) ((a :: t) ++ s) 0)
  = r ++ join r (split_from (a :: t) s 0).
Proof.
  change ((a :: t) ++ s) with (a :: t ++ s).
  rewrite join_split_hit by (apply (starts_with_refl (a :: t))).
  now rewrite join_split_skip.
Qed.

End SplitJoin.

(** *** One round of the table on a text in parts *)

Lemma replace_entity_app a t r c P s :
  has_char c t = false ->
  replace_entity (P ++ c :: s) (a :: t, r)
  = replace_entity P (a :: t, r) ++ replace_entity (c :: s) (a :: t, r).
Proof.
  intros H. unfold replace_entity, split. cbn [fst snd].
  apply join_split_app; [assumption|lia].
Qed.

Lemma replace_entity_copy a t r X s :
  starts_with (a :: t) (X ++ s) = false -> has_char a (tl X) = false ->
  replace_entity (X ++ s) (a :: t, r) = X ++ replace_entity s (a :: t, r).
Proof.
  intros H1 H2. unfold replace_entity, split. cbn [fst snd].
  now apply join_split_copy.
Qed.

Lemma replace_entity_take a t r s :
  replace_entity ((a :: t) ++ s) (a :: t, r)
  = r ++ replace_entity s (a :: t, r).
Proof.
  unfold replace_entity, split. cbn [fst snd]. apply join_split_take.
Qed.

(** *** The table on a text in parts *)

Lemma entities_shape :
  Forall (fun e => exists t c r,
            fst e = AMP :: t /\ snd e = c :: r /\ inert c = true) entities.
Proof. repeat constructor; eexists _, _, _; repeat split. Qed.

Lemma inert_lacks c e :
  inert c = true -> In e entities -> has_char c (tl (fst e)) = false.
Proof.
  unfold inert. intros H Hin. rewrite forallb_forall in H.
  apply H in Hin. now apply negb_true_iff in Hin.
Qed.

Lemma entity_shape e :
  In e entities ->
  exists t c r, e = (AMP :: t, c :: r) /\ inert c = true.
Proof.
  intros Hin. pose proof entities_shape as Hs. rewrite Forall_forall in Hs.
  destruct (Hs e Hin) as (t & c & r & Ef & Es & Hc).
  destruct e as [f v]; cbn in Ef, Es; subst. now eexists _, _, _.
Qed.

Lemma replace_entity_head c s e :
  In e entities -> inert c = true ->
  exists c' s', replace_entity (c :: s) e = c' :: s' /\ inert c' = true.
Proof.
  intros Hin Hc. destruct (entity_shape Hin) as (t & c0 & r & -> & Hc0).
  unfold replace_entity, split; cbn [fst snd].
  destruct (starts_with (AMP :: t) (c :: s)) eqn:E.
  - rewrite join_split_hit by assumption. now eexists _, _.
  - rewrite join_split_miss by assumption. now eexists _, _.
Qed.

(** The table does not reach over an inert code unit: the text is decoded
    on both sides of it. *)
Lemma fold_entities_app : forall L, incl L entities ->
  forall P c s, inert c = true ->
  fold_left replace_entity L (P ++ c :: s)
  = fold_left replace_entity L P ++ fold_left replace_entity L (c :: s).
Proof.
  induction L as [|e L IH]; intros Hin P c s Hc; [reflexivity|].
  cbn [fold_left].
  assert (He : In e entities) by (apply Hin; now left).
  destruct (@replace_entity_head c s e He Hc) as (c' & s' & E & Hc').
  pose proof (inert_lacks c Hc He) as Hl.
  destruct (entity_shape He) as (t & c0 & r & -> & Hc0). cbn [fst tl] in Hl.
  assert (G : replace_entity (P ++ c :: s) (AMP :: t, c0 :: r)
              = replace_entity P (AMP :: t, c0 :: r) ++ c' :: s')
    by (rewrite replace_entity_app by assumption; now f_equal).
  rewrite G, E. apply IH; [|assumption]. intros y Hy. apply Hin. now right.
Qed.

Lemma decode_named_app P c s :
  inert c = true ->
  decode_named (P ++ c :: s) = decode_named P ++ decode_named (c :: s).
Proof. apply fold_entities_app. apply incl_refl. Qed.

(** A text that no entity of the list matches is copied. *)
Lemma fold_entities_copy X :
  has_char AMP (tl X) = false ->
  forall L, incl L entities -> Forall (unmatched X) L ->
  forall s, fold_left replace_entity L (X ++ s)
            = X ++ fold_left replace_entity L s.
Proof.
  intros Ha. induction L as [|e L IH]; intros Hin Hu s; [reflexivity|].
  cbn [fold_left]. inversion Hu as [|? ? Hu1 Hu2]; subst.
  assert (He : In e entities) by (apply Hin; now left).
  destruct (entity_shape He) as (t & c0 & r & -> & Hc0).
  rewrite replace_entity_copy by (try apply Hu1; assumption).
  apply IH; [|assumption]. intros y Hy. apply Hin. now right.
Qed.

Lemma unmatched_unit c L :
  c <> AMP -> incl L entities -> Forall (unmatched [c]) L.
Proof.
  intros Hc Hin. apply Forall_forall. intros e He s.
  destruct (entity_shape (Hin e He)) as (t & c0 & r & -> & Hc0).
  cbn [fst app]. now apply starts_with_other.
Qed.

Lemma fold_entities_unit c L s :
  c <> AMP -> incl L entities ->
  fold_left replace_entity L (c :: s) = c :: fold_left replace_entity L s.
Proof.
  intros Hc Hin. apply (@fold_entities_copy [c] eq_refl L Hin).
  now apply unmatched_unit.
Qed.

(** An entity of the list that no earlier one matches, and whose
    replacement is one code unit other than the ampersand, is replaced by
    it, in front of any text. *)
Lemma fold_entities_take L1 e L2 c s :
  incl (L1 ++ e :: L2) entities -> Forall (unmatched (fst e)) L1 ->
  snd e = [c] -> c <> AMP ->
  fold_left replace_entity (L1 ++ e :: L2) (fst e ++ s)
  = c :: fold_left replace_entity (L1 ++ e :: L2) s.
Proof.
  intros Hin Hu Es Hc. rewrite !fold_left_app. cbn [fold_left].
  assert (He : In e entities)
    by (apply Hin, in_or_app; right; now left).
  assert (H1 : incl L1 entities)
    by (intros y Hy; apply Hin, in_or_app; now left).
  assert (H2 : incl L2 entities)
    by (intros y Hy; apply Hin, in_or_app; right; now right).
  rewrite fold_entities_copy; try assumption.
  - destruct (entity_shape He) as (t & c0 & r & -> & Hc0).
    cbn [fst snd] in *. rewrite replace_entity_take. inversion Es; subst.
    cbn [app]. now apply fold_entities_unit.
  - apply (@inert_lacks AMP e eq_refl He).
Qed.

(** *** Entities in any text *)

Lemma replace_dec_total s : exists out, replace re_dec decode_dec s = Normal out.
Proof.
  destruct (@decode_numeric_returns (fun _ => True) (fun _ _ => I)
              re_dec 10 s) as (out & E & _); [apply Forall_forall; trivial|].
  now exists out.
Qed.

Lemma replace_hex_total s : exists out, replace re_hex decode_hex s = Normal out.
Proof.
  destruct (@decode_numeric_returns (fun _ => True) (fun _ _ => I)
              re_hex 16 s) as (out & E & _); [apply Forall_forall; trivial|].
  now exists out.
Qed.

Lemma replace_copy re rv x X s :
  head_char (pattern re) = Some x -> x < 65 ->
  exec_at re (X ++ s) = None -> has_char x (tl X) = false ->
  replace re rv (X ++ s) = (b <- replace re rv s ;; Normal (X ++ b)).
Proof.
  intros Hh Hx He Ht. unfold replace.
  destruct X as [|c X]; [cbn [app]; now rewrite bind_Normal|].
  cbn [app tl] in *. rewrite replace_from_miss by assumption.
  rewrite (replace_from_pass re rv Hh Hx) by assumption.
  destruct (replace_from re rv s 0); reflexivity.
Qed.

Lemma replace_entity_pass a t r X s :
  has_char a X = false ->
  replace_entity (X ++ s) (a :: t, r) = X ++ replace_entity s (a :: t, r).
Proof.
  intros H. unfold replace_entity, split. cbn [fst snd].
  now apply join_split_pass.
Qed.

(** The numeric stages do not reach over a code unit that stands in no
    numeric entity. *)
Lemma replace_dec_around c A B :
  outside_numeric c = true -> c <> AMP ->
  replace re_dec decode_dec (A ++ c :: B)
  = (a <- replace re_dec decode_dec A ;;
     b <- replace re_dec decode_dec B ;; Normal (a ++ c :: b)).
Proof.
  intros Hc Ha.
  rewrite (@replace_bounded re_dec dec_determined decode_dec AMP eq_refl eq_refl)
    by (apply bounded_at, (@dec_tail_lacks c Hc)).
  change (c :: B) with ([c] ++ B).
  rewrite (@replace_copy re_dec decode_dec AMP [c] B eq_refl eq_refl);
    [|apply (@exec_at_other re_dec AMP eq_refl eq_refl); assumption
     |reflexivity].
  destruct (replace re_dec decode_dec A); [|reflexivity]. cbn [bind].
  now destruct (replace re_dec decode_dec B).
Qed.

Lemma replace_hex_around c A B :
  outside_numeric c = true -> c <> AMP ->
  replace re_hex decode_hex (A ++ c :: B)
  = (a <- replace re_hex decode_hex A ;;
     b <- replace re_hex decode_hex B ;; Normal (a ++ c :: b)).
Proof.
  intros Hc Ha.
  rewrite (@replace_bounded re_hex hex_determined decode_hex AMP eq_refl eq_refl)
    by (apply bounded_at, (@hex_tail_lacks c Hc)).
  change (c :: B) with ([c] ++ B).
  rewrite (@replace_copy re_hex decode_hex AMP [c] B eq_refl eq_refl);
    [|apply (@exec_at_other re_hex AMP eq_refl eq_refl); assumption
     |reflexivity].
  destruct (replace re_hex decode_hex A); [|reflexivity]. cbn [bind].
  now destruct (replace re_hex decode_hex B).
Qed.

(** Decoding distributes over a code unit that is no part of the syntax
    of an entity. *)
Lemma decode_around c A B :
  inert c = true -> outside_numeric c = true -> c <> AMP ->
  decodeHtmlEntities (A ++ c :: B)
  = (a <- decodeHtmlEntities A ;; b <- decodeHtmlEntities B ;;
     Normal (a ++ c :: b)).
Proof.
  intros Hi Hc Ha. unfold decodeHtmlEntities.
  rewrite decode_named_app by assumption.
  unfold decode_named at 2.
  rewrite fold_entities_unit by (try assumption; apply incl_refl).
  fold (decode_named B).
  rewrite replace_dec_around by assumption.
  destruct (replace_dec_total (decode_named A)) as (a1 & ->).
  destruct (replace_dec_total (decode_named B)) as (b1 & ->).
  cbn [bind]. rewrite replace_hex_around by assumption.
  destruct (replace_hex_total a1) as (a2 & ->).
  destruct (replace_hex_total b1) as (b2 & ->).
  reflexivity.
Qed.

(** *** An ampersand written as an entity *)

(** The first entry of the table rewrites [&amp;] to [&], and the entries
    after it read the result: the text is decoded as if the ampersand had
    been written plainly. *)
Lemma decode_named_twice pre post :
  starts_with (str "amp;") post = false ->
  decode_named (pre ++ str "&amp;" ++ post) = decode_named (pre ++ AMP :: post).
Proof.
  intros H. unfold decode_named.
  change entities with ((str "&amp;", str "&") :: tl entities).
  cbn [fold_left]. f_equal.
  change (str "&amp;" ++ post) with (AMP :: str "amp;" ++ post).
  change (str "&amp;") with (AMP :: str "amp;").
  rewrite !replace_entity_app by reflexivity. f_equal.
  change (AMP :: str "amp;" ++ post) with ((AMP :: str "amp;") ++ post).
  rewrite replace_entity_take.
  unfold replace_entity, split; cbn [fst snd].
  rewrite join_split_miss; [reflexivity|].
  cbn [starts_with]. rewrite H. apply andb_false_r.
Qed.

Lemma decode_twice pre post :
  starts_with (str "amp;") post = false ->
  decodeHtmlEntities (pre ++ str "&amp;" ++ post)
  = decodeHtmlEntities (pre ++ AMP :: post).
Proof.
  intros H. unfold decodeHtmlEntities. now rewrite decode_named_twice.
Qed.

(** *** A named entity in any text *)

Lemma decode_named_take_at n e :
  entities = firstn n entities ++ e :: skipn (S n) entities ->
  (exists c, snd e = [c] /\ c <> AMP) ->
  Forall (unmatched (fst e)) (firstn n entities) ->
  forall pre post,
    decode_named (pre ++ fst e ++ post)
    = decode_named pre ++ snd e ++ decode_named post.
Proof.
  intros H (c & Es & Hc) Hu pre post.
  pose proof (@fold_entities_take (firstn n entities) e
                (skipn (S n) entities) c post) as G.
  rewrite <- H in G. specialize (G (incl_refl _) Hu Es Hc).
  assert (He : In e entities)
    by (rewrite H; apply in_or_app; right; now left).
  destruct (entity_shape He) as (t & c0 & r & -> & Hc0).
  cbn [fst snd] in *. change ((AMP :: t) ++ post) with (AMP :: t ++ post).
  rewrite decode_named_app by reflexivity. f_equal.
  rewrite Es. exact G.
Qed.

Ltac take_entity n :=
  apply (@decode_named_take_at n);
  [reflexivity
  |eexists; split; [reflexivity|discriminate]
  |repeat constructor; intros s; reflexivity].

Lemma decode_named_entity :
  Forall (fun e => forall pre post,
            decode_named (pre ++ fst e ++ post)
            = decode_named pre ++ snd e ++ decode_named post)
         (tl entities).
Proof.
  repeat constructor;
    first [take_entity 1%nat|take_entity 2%nat|take_entity 3%nat
          |take_entity 4%nat|take_entity 5%nat|take_entity 6%nat
          |take_entity 7%nat|take_entity 8%nat|take_entity 9%nat
          |take_entity 10%nat|take_entity 11%nat|take_entity 12%nat
          |take_entity 13%nat|take_entity 14%nat|take_entity 15%nat].
Qed.

Lemma replacements_inert :
  Forall (fun e => exists c, snd e = [c] /\ inert c = true
                             /\ outside_numeric c = true /\ c <> AMP)
         (tl entities).
Proof.
  repeat constructor; eexists; repeat split; discriminate.
Qed.

Lemma entities_not_amp :
  Forall (fun e => forall post,
            starts_with (str "amp;") (tl (fst e) ++ post) = false)
         (tl entities).
Proof. repeat constructor. Qed.

Lemma decode_entity_in_text :
  Forall (fun e => forall pre post,
            decodeHtmlEntities (pre ++ fst e ++ post)
            = (a <- decodeHtmlEntities pre ;; b <- decodeHtmlEntities post ;;
               Normal (a ++ snd e ++ b)))
         (tl entities).
Proof.
  pose proof decode_named_entity as H1. pose proof replacements_inert as H2.
  rewrite Forall_forall in *. intros e He pre post.
  destruct (H2 e He) as (c & Es & Hi & Ho & Hc).
  assert (E : decode_named (pre ++ fst e ++ post)
              = decode_named (pre ++ c :: post)).
  { pose proof (H1 e He pre post) as G. cbn beta in G. rewrite G.
    replace (snd e) with [c] by (symmetry; exact Es).
    rewrite decode_named_app by assumption. f_equal.
    cbn [app]. symmetry.
    apply fold_entities_unit; [assumption|apply incl_refl]. }
  replace (snd e) with [c] by (symmetry; exact Es).
  cbn [app]. rewrite <- decode_around by assumption.
  unfold decodeHtmlEntities. now rewrite E.
Qed.

Lemma decode_entity_twice :
  Forall (fun e => forall pre post,
            decodeHtmlEntities (pre ++ str "&amp;" ++ tl (fst e) ++ post)
            = (a <- decodeHtmlEntities pre ;; b <- decodeHtmlEntities post ;;
               Normal (a ++ snd e ++ b)))
         (tl entities).
Proof.
  pose proof decode_entity_in_text as H1.
  pose proof entities_not_amp as H3.
  rewrite Forall_forall in *. intros e He pre post.
  pose proof (H3 e He post) as Hs.
  assert (Hin : In e entities) by (now right).
  destruct (entity_shape Hin) as (t & c0 & r & -> & Hc0).
  cbn [fst snd tl] in *.
  rewrite decode_twice by assumption. exact (H1 _ He pre post).
Qed.

(** *** A numeric entity in any text, through [decodeHtmlEntities] *)

Lemma hex_unmatched hs :
  Forall (unmatched (str "&#x" ++ hs ++ str ";")) entities.
Proof. repeat constructor; intros s; reflexivity. Qed.

Lemma hex_digits_no_amp hs :
  forallb is_hex_digit hs = true -> has_char AMP hs = false.
Proof. now apply forallb_lacks. Qed.

Lemma decode_named_hex pre hs post :
  forallb is_hex_digit hs = true ->
  decode_named (pre ++ (str "&#x" ++ hs ++ str ";") ++ post)
  = decode_named pre ++ (str "&#x" ++ hs ++ str ";") ++ decode_named post.
Proof.
  intros Hd.
  change (pre ++ (str "&#x" ++ hs ++ str ";") ++ post)
    with (pre ++ AMP :: (str "#x" ++ hs ++ str ";") ++ post).
  rewrite decode_named_app by reflexivity. f_equal.
  apply (@fold_entities_copy (str "&#x" ++ hs ++ str ";")).
  - change (tl (str "&#x" ++ hs ++ str ";")) with (35 :: 120 :: hs ++ [59]).
    rewrite !has_char_cons, has_char_app, hex_digits_no_amp by assumption.
    reflexivity.
  - apply incl_refl.
  - apply hex_unmatched.
Qed.

Lemma exec_dec_on_hex hs s :
  exec_at re_dec ((str "&#x" ++ hs ++ str ";") ++ s) = None.
Proof.
  destruct (exec_at re_dec _) as [[r cs]|] eqn:E; [exfalso|reflexivity].
  apply exec_at_sound in E. destruct E as (w & E & Hm).
  destruct (dec_match Hm) as (ds & -> & Hd & Hn & _).
  destruct ds as [|d ds]; [congruence|].
  cbn in E. inversion E; subst. discriminate.
Qed.

(** A hexadecimal entity is decoded where it stands, and the text before
    and behind it as if it stood alone. *)
Lemma decode_hex_in_text pre hs post :
  forallb is_hex_digit hs = true -> hs <> [] ->
  decodeHtmlEntities (pre ++ (str "&#x" ++ hs ++ str ";") ++ post)
  = (a <- decodeHtmlEntities pre ;; b <- decodeHtmlEntities post ;;
     Normal (a ++ fromCharCode (parseInt hs 16) ++ b)).
Proof.
  intros Hd Hn. unfold decodeHtmlEntities.
  rewrite decode_named_hex by assumption.
  rewrite (@replace_bounded re_dec dec_determined decode_dec AMP eq_refl eq_refl)
    by (apply bounded_at, (@dec_tail_lacks AMP eq_refl)).
  rewrite (@replace_copy re_dec decode_dec AMP _ _ eq_refl eq_refl
             (exec_dec_on_hex hs (decode_named post))).
  2:{ change (tl (str "&#x" ++ hs ++ str ";")) with (35 :: 120 :: hs ++ [59]).
      rewrite !has_char_cons, has_char_app, hex_digits_no_amp by assumption.
      reflexivity. }
  destruct (replace_dec_total (decode_named pre)) as (a1 & ->).
  destruct (replace_dec_total (decode_named post)) as (b1 & ->).
  cbn [bind]. rewrite replace_hex_in_text by assumption.
  destruct (replace_hex_total a1) as (a2 & ->).
  destruct (replace_hex_total b1) as (b2 & ->).
  reflexivity.
Qed.

Lemma starts_with_39_then ds s :
  forallb is_digit ds = true -> ds <> str "39" ->
  starts_with (str "39;") (ds ++ 59 :: s) = false.
Proof.
  intros Hd Hn.
  destruct (starts_with (str "39;") (ds ++ 59 :: s)) eqn:H; [exfalso|easy].
  apply Hn. clear Hn.
  destruct ds as [|d1 ds]; [discriminate|].
  cbn [app] in H. cbn [starts_with str] in H. simpl in Hd.
  apply andb_prop in H. destruct H as [H1 H].
  apply andb_prop in Hd. destruct Hd as [_ Hd].
  destruct ds as [|d2 ds]; [discriminate|].
  simpl in H, Hd. apply andb_prop in H. destruct H as [H2 H].
  apply andb_prop in Hd. destruct Hd as [_ Hd].
  destruct ds as [|d3 ds].
  - apply Z.eqb_eq in H1, H2. now subst.
  - simpl in H, Hd. apply andb_prop in Hd. destruct Hd as [Hd3 _].
    unfold is_digit in Hd3. lia.
Qed.

Lemma dec_unmatched ds :
  forallb is_digit ds = true -> ds <> str "39" ->
  Forall (unmatched (str "&#" ++ ds ++ str ";")) entities.
Proof.
  intros Hd Hn.
  repeat constructor; intros s; try reflexivity.
  cbn [fst]. change ((str "&#" ++ ds ++ str ";") ++ s)
    with (38 :: 35 :: (ds ++ [59]) ++ s).
  rewrite <- app_assoc. cbn [app].
  change (str "&#39;") with (38 :: 35 :: str "39;").
  cbn [starts_with]. rewrite starts_with_39_then by assumption.
  reflexivity.
Qed.

Lemma decode_named_dec pre ds post :
  forallb is_digit ds = true -> ds <> str "39" ->
  decode_named (pre ++ (str "&#" ++ ds ++ str ";") ++ post)
  = decode_named pre ++ (str "&#" ++ ds ++ str ";") ++ decode_named post.
Proof.
  intros Hd Hn.
  change (pre ++ (str "&#" ++ ds ++ str ";") ++ post)
    with (pre ++ AMP :: (str "#" ++ ds ++ str ";") ++ post).
  rewrite decode_named_app by reflexivity. f_equal.
  apply (@fold_entities_copy (str "&#" ++ ds ++ str ";")).
  - change (tl (str "&#" ++ ds ++ str ";")) with (35 :: ds ++ [59]).
    rewrite !has_char_cons, has_char_app.
    rewrite (digits_lack AMP eq_refl ds Hd). reflexivity.
  - apply incl_refl.
  - now apply dec_unmatched.
Qed.

(** A decimal entity is decoded where it stands; the hexadecimal stage
    then reads the whole text, the decoded code unit included. *)
Lemma decode_dec_in_text pre ds post :
  forallb is_digit ds = true -> ds <> [] ->
  decodeHtmlEntities (pre ++ (str "&#" ++ ds ++ str ";") ++ post)
  = (a <- replace re_dec decode_dec (decode_named pre) ;;
     b <- replace re_dec decode_dec (decode_named post) ;;
     replace re_hex decode_hex (a ++ fromCharCode (parseInt ds 10) ++ b)).
Proof.
  intros Hd Hn. unfold decodeHtmlEntities.
  assert (G : replace re_dec decode_dec
                (decode_named (pre ++ (str "&#" ++ ds ++ str ";") ++ post))
              = (a <- replace re_dec decode_dec (decode_named pre) ;;
                 b <- replace re_dec decode_dec (decode_named post) ;;
                 Normal (a ++ fromCharCode (parseInt ds 10) ++ b))).
  { destruct (list_eq_dec Z.eq_dec ds (str "39")) as [->|Hne].
    - pose proof decode_named_entity as H1. rewrite Forall_forall in H1.
      rewrite (H1 (str "&#39;", str "'")) by (cbn; tauto).
      apply (@replace_dec_around 39); [reflexivity|discriminate].
    - rewrite decode_named_dec by assumption.
      now apply replace_dec_in_text. }
  rewrite G.
  destruct (replace_dec_total (decode_named pre)) as (a1 & ->).
  destruct (replace_dec_total (decode_named post)) as (b1 & ->).
  cbn [bind]. now rewrite bind_Normal.
Qed.

(** Between texts without an ampersand the decoded code unit is all that
    changes, unless it is an ampersand itself. *)
Lemma decode_dec_between pre ds post :
  forallb is_digit ds = true -> ds <> [] ->
  has_char AMP pre = false -> has_char AMP post = false ->
  fromCharCode (parseInt ds 10) <> [AMP] ->
  decodeHtmlEntities (pre ++ (str "&#" ++ ds ++ str ";") ++ post)
  = Normal (pre ++ fromCharCode (parseInt ds 10) ++ post).
Proof.
  intros Hd Hn H1 H2 Hc. rewrite decode_dec_in_text by assumption.
  rewrite !decode_named_absent by assumption.
  rewrite !(replace_absent re_dec decode_dec (x := AMP))
    by (auto; reflexivity).
  cbn [bind]. apply (replace_absent re_hex decode_hex (x := AMP));
    try reflexivity.
  rewrite !has_char_app, H1, H2. unfold fromCharCode in *.
  rewrite has_char_cons. cbn [has_char existsb orb].
  destruct (toUint16 (parseInt ds 10) =? AMP) eqn:E; [|reflexivity].
  apply Z.eqb_eq in E. rewrite E in Hc. congruence.
Qed.

(** *** Entities through the whole converter *)

Lemma htmlToMrkdwn_text s :
  has_char LT s = false -> has_char NUL s = false ->
  htmlToMrkdwn s = (t <- decodeHtmlEntities s ;; cleanup t).
Proof.
  intros H1 H2. rewrite htmlToMrkdwn_no_tags by assumption.
  unfold finish. now rewrite restore_links_absent by assumption.
Qed.

Lemma decode_amp_hex_in_text pre hs post :
  forallb is_hex_digit hs = true -> hs <> [] ->
  decodeHtmlEntities
    (pre ++ str "&amp;" ++ (str "#x" ++ hs ++ str ";") ++ post)
  = (a <- decodeHtmlEntities pre ;; b <- decodeHtmlEntities post ;;
     Normal (a ++ fromCharCode (parseInt hs 16) ++ b)).
Proof.
  intros Hd Hn. rewrite decode_twice by reflexivity.
  now apply decode_hex_in_text.
Qed.

Lemma decode_amp_dec_in_text pre ds post :
  forallb is_digit ds = true -> ds <> [] ->
  decodeHtmlEntities
    (pre ++ str "&amp;" ++ (str "#" ++ ds ++ str ";") ++ post)
  = (a <- replace re_dec decode_dec (decode_named pre) ;;
     b <- replace re_dec decode_dec (decode_named post) ;;
     replace re_hex decode_hex (a ++ fromCharCode (parseInt ds 10) ++ b)).
Proof.
  intros Hd Hn. rewrite decode_twice by reflexivity.
  now apply decode_dec_in_text.
Qed.

Lemma decode_amp_hex_entity h hs :
  forallb is_hex_digit (h :: hs) = true ->
  decodeHtmlEntities (str "&amp;#x" ++ (h :: hs) ++ str ";")
  = Normal (fromCharCode (parseInt (h :: hs) 16)).
Proof.
  intros Hd.
  pose proof (@decode_twice [] (str "#x" ++ (h :: hs) ++ str ";") eq_refl)
    as G.
  cbn [app] in G. etransitivity; [exact G|].
  now apply decode_hex_entity.
Qed.

(** * The claims *)

(** C1: the converter is total.  For every input, well-formed HTML or not,
    [htmlToMrkdwn] returns normally -- no path throws, although the
    callbacks of the list and heading stages call a method on a capture
    that JavaScript leaves undefined when its group takes no part in the
    match -- and what it returns is a string of UTF-16 code units whenever
    the input is one.  The same holds of [decodeHtmlEntities]. *)
Theorem htmlToMrkdwn_total : forall html : jsstring,
  (exists out, htmlToMrkdwn html = Normal out
               /\ (wf_string html -> wf_string out))
  /\ (exists out, decodeHtmlEntities html = Normal out
                  /\ (wf_string html -> wf_string out)).
Proof.
  intros html. split.
  - destruct (@htmlToMrkdwn_returns (fun _ => True) (fun _ _ => I) html)
      as (out & E & _); [apply Forall_forall; trivial|].
    exists out. split; [exact E|]. intros Hwf.
    destruct (@htmlToMrkdwn_returns wf_char (fun _ H => H) html Hwf)
      as (out' & E' & H').
    rewrite E in E'. inversion E'; subst. exact H'.
  - destruct (@decodeHtmlEntities_returns (fun _ => True) (fun _ _ => I) html)
      as (out & E & _); [apply Forall_forall; trivial|].
    exists out. split; [exact E|]. intros Hwf.
    destruct (@decodeHtmlEntities_returns wf_char (fun _ H => H) html Hwf)
      as (out' & E' & H').
    rewrite E in E'. inversion E'; subst. exact H'.
Qed.

(** C2: an input without any markup is not always returned unchanged,
    although the documentation of [htmlToMrkdwn] says that the original
    string is returned unchanged if it contains no HTML.  Only the empty
    string is returned at once; any other input passes through the last
    stages, and the trimming takes the space at the end of this one. *)
Theorem plain_text_not_echoed :
  has_char LT (str "plain text ") = false
  /\ has_char AMP (str "plain text ") = false
  /\ htmlToMrkdwn (str "plain text ") = Normal (str "plain text")
  /\ htmlToMrkdwn (str "plain text ") <> Normal (str "plain text ").
Proof. repeat split; try reflexivity. vm_compute. discriminate. Qed.

(** The inputs without markup that are returned unchanged: those without
    [<], [&] and the character U+0000 that have no run of three or more
    newlines and no white space at either end.  The empty string and the
    text [plain text] are such inputs. *)
Theorem htmlToMrkdwn_plain_unchanged (s : jsstring) :
  has_char LT s = false -> has_char AMP s = false ->
  has_char NUL s = false ->
  nl_runs_ok s = true -> is_trimmed s = true ->
  htmlToMrkdwn s = Normal s.
Proof. apply htmlToMrkdwn_fixed. Qed.

Lemma htmlToMrkdwn_plain_unchanged_witness :
  htmlToMrkdwn (str "") = Normal (str "")
  /\ htmlToMrkdwn (str "plain text") = Normal (str "plain text").
Proof.
  split; apply htmlToMrkdwn_plain_unchanged; reflexivity.
Defined.

(** C3, as stated, fails: the output of the converter may hold an entity,
    which a second application decodes. *)
Lemma htmlToMrkdwn_not_idempotent :
  htmlToMrkdwn (str "&amp;amp;") = Normal (str "&amp;")
  /\ has_char LT (str "&amp;") = false
  /\ has_char GT (str "&amp;") = false
  /\ htmlToMrkdwn (str "&amp;") = Normal (str "&")
  /\ str "&" <> str "&amp;".
Proof. repeat split; try reflexivity. vm_compute. discriminate. Qed.

(** C3, amended: when the output of the converter holds no [<], no [&] and
    no character U+0000, converting it again changes nothing. *)
Theorem htmlToMrkdwn_idempotent (x y : jsstring) :
  htmlToMrkdwn x = Normal y ->
  has_char LT y = false -> has_char AMP y = false ->
  has_char NUL y = false ->
  htmlToMrkdwn y = Normal y.
Proof.
  intros Hx Hlt Hamp Hnul.
  destruct (htmlToMrkdwn_clean _ Hx) as [Hruns Htrim].
  now apply htmlToMrkdwn_fixed.
Qed.

Lemma htmlToMrkdwn_idempotent_witness :
  htmlToMrkdwn (str "<p>One</p><p>Two</p>") = Normal (str "One" ++ [LF; LF] ++ str "Two")
  /\ htmlToMrkdwn (str "One" ++ [LF; LF] ++ str "Two")
     = Normal (str "One" ++ [LF; LF] ++ str "Two").
Proof.
  split; [reflexivity|].
  apply (@htmlToMrkdwn_idempotent (str "<p>One</p><p>Two</p>")); reflexivity.
Defined.










(** C8: a decimal entity [&#N;] and a hexadecimal entity [&#xH;] are each
    decoded to one UTF-16 code unit, ToUint16 of the integer that
    [parseInt] reads -- the value of the digits modulo 65536 as long as
    that value is below 2^53 -- so a code point above U+FFFF gives one code
    unit and no surrogate pair.  This holds of each entity of a text: at
    its stage an entity is replaced wherever it stands, and the text
    before and behind it is decoded in the same way; through
    [decodeHtmlEntities] a hexadecimal entity becomes its code unit between
    the decoded texts around it, and a decimal entity its code unit in the
    text that the hexadecimal stage then reads.  Through the whole
    converter the code unit of an entity standing alone is the result,
    unless it is white space, which the last stage trims.  Decoding
    returns normally on every text, and leaves a malformed numeric entity
    as it is. *)
Theorem numeric_entities (d h : char) (ds hs : jsstring) :
  forallb is_digit (d :: ds) = true ->
  forallb is_hex_digit (h :: hs) = true ->
  let n := radix_value 10 (d :: ds) in
  let x := radix_value 16 (h :: hs) in
  let dec := str "&#" ++ (d :: ds) ++ str ";" in
  let hex := str "&#x" ++ (h :: hs) ++ str ";" in
  let unit_dec := fromCharCode (parseInt (d :: ds) 10) in
  let unit_hex := fromCharCode (parseInt (h :: hs) 16) in
  decodeHtmlEntities dec = Normal unit_dec
  /\ decodeHtmlEntities hex = Normal unit_hex
  /\ parseInt (d :: ds) 10 = number_of_nat n
  /\ parseInt (h :: hs) 16 = number_of_nat x
  /\ (n < 2 ^ 53 -> unit_dec = [n mod 65536])
  /\ (x < 2 ^ 53 -> unit_hex = [x mod 65536])
  /\ (forall pre post,
        replace re_dec decode_dec (pre ++ dec ++ post)
        = (a <- replace re_dec decode_dec pre ;;
           b <- replace re_dec decode_dec post ;;
           Normal (a ++ unit_dec ++ b)))
  /\ (forall pre post,
        replace re_hex decode_hex (pre ++ hex ++ post)
        = (a <- replace re_hex decode_hex pre ;;
           b <- replace re_hex decode_hex post ;;
           Normal (a ++ unit_hex ++ b)))
  /\ (forall pre post,
        decodeHtmlEntities (pre ++ hex ++ post)
        = (a <- decodeHtmlEntities pre ;;
           b <- decodeHtmlEntities post ;;
           Normal (a ++ unit_hex ++ b)))
  /\ (forall pre post,
        decodeHtmlEntities (pre ++ dec ++ post)
        = (a <- replace re_dec decode_dec (decode_named pre) ;;
           b <- replace re_dec decode_dec (decode_named post) ;;
           replace re_hex decode_hex (a ++ unit_dec ++ b)))
  /\ (forall pre post,
        has_char AMP pre = false -> has_char AMP post = false ->
        unit_dec <> [AMP] ->
        decodeHtmlEntities (pre ++ dec ++ post)
        = Normal (pre ++ unit_dec ++ post))
  /\ (forall pre post,
        has_char LT (pre ++ post) = false ->
        has_char NUL (pre ++ post) = false ->
        htmlToMrkdwn (pre ++ hex ++ post)
        = (a <- decodeHtmlEntities pre ;;
           b <- decodeHtmlEntities post ;;
           cleanup (a ++ unit_hex ++ b)))
  /\ htmlToMrkdwn dec = Normal (trim unit_dec)
  /\ htmlToMrkdwn hex = Normal (trim unit_hex)
  /\ (forall text, exists out, decodeHtmlEntities text = Normal out)
  /\ decodeHtmlEntities (str "&#65;&#66;&#67;") = Normal (str "ABC")
  /\ htmlToMrkdwn (str "x&#65;&#x42;&#67;y") = Normal (str "xABCy")
  /\ decodeHtmlEntities (str "&#128512;") = Normal [62976]
  /\ decodeHtmlEntities (str "&#;") = Normal (str "&#;")
  /\ decodeHtmlEntities (str "&#xZZ;") = Normal (str "&#xZZ;")
  /\ decodeHtmlEntities (str "&#65") = Normal (str "&#65")
  /\ htmlToMrkdwn (str "&#65;") = Normal (str "A")
  /\ htmlToMrkdwn (str "&#x41;") = Normal (str "A").
Proof.
  intros Hd Hh n x dec hex unit_dec unit_hex.
  pose proof (decode_dec_entity d ds Hd) as Hdec.
  pose proof (decode_hex_entity h hs Hh) as Hhex.
  pose proof (parseInt_dec d ds Hd) as Pd.
  pose proof (parseInt_hex h hs Hh) as Ph.
  assert (Hn : 0 <= n) by (apply radix_value_nonneg; lia).
  assert (Hx : 0 <= x) by (apply radix_value_nonneg; lia).
  assert (Nd : d :: ds <> []) by discriminate.
  assert (Nh : h :: hs <> []) by discriminate.
  split; [exact Hdec|]. split; [exact Hhex|].
  split; [exact Pd|]. split; [exact Ph|].
  split; [intros Hlt; unfold unit_dec, fromCharCode; rewrite Pd;
          now rewrite toUint16_small by (fold n; lia)|].
  split; [intros Hlt; unfold unit_hex, fromCharCode; rewrite Ph;
          now rewrite toUint16_small by (fold x; lia)|].
  split; [intros pre post; now apply replace_dec_in_text|].
  split; [intros pre post; now apply replace_hex_in_text|].
  split; [intros pre post; now apply decode_hex_in_text|].
  split; [intros pre post; now apply decode_dec_in_text|].
  split; [intros pre post H1 H2 H3; now apply decode_dec_between|].
  split.
  { intros pre post H1 H2. rewrite has_char_app in H1, H2.
    apply orb_false_elim in H1, H2. destruct H1 as [L1 L2], H2 as [N1 N2].
    assert (HL : forall c, is_hex_digit c = false -> c <> 59 -> c <> 38 ->
                 c <> 35 -> c <> 120 -> has_char c hex = false).
    { intros c C1 C2 C3 C4 C5. unfold hex.
      change (str "&#x" ++ (h :: hs) ++ str ";")
        with (38 :: 35 :: 120 :: (h :: hs) ++ str ";").
      rewrite !has_char_cons, hex_digits_lack by assumption.
      cbn [orb]. lia. }
    rewrite htmlToMrkdwn_text.
    - unfold hex. rewrite decode_hex_in_text by assumption.
      destruct (decodeHtmlEntities pre); [|reflexivity]. cbn [bind].
      now destruct (decodeHtmlEntities post).
    - rewrite has_char_app, L1. rewrite has_char_app, L2.
      rewrite HL by (reflexivity || discriminate). reflexivity.
    - rewrite has_char_app, N1. rewrite has_char_app, N2.
      rewrite HL by (reflexivity || discriminate). reflexivity. }
  split.
  { apply (htmlToMrkdwn_entity (str "&#") (d :: ds)); try reflexivity.
    - now apply digits_are_hex.
    - exact Hdec. }
  split.
  { apply (htmlToMrkdwn_entity (str "&#x") (h :: hs)); try reflexivity.
    - assumption.
    - exact Hhex. }
  split.
  { intros text.
    destruct (@decodeHtmlEntities_returns (fun _ => True) (fun _ _ => I) text)
      as (out & E & _); [apply Forall_forall; trivial|eauto]. }
  repeat split.
Qed.

Lemma numeric_entities_witness :
  decodeHtmlEntities (str "&#65;") = Normal (str "A")
  /\ decodeHtmlEntities (str "&#x41;") = Normal (str "A").
Proof.
  destruct (@numeric_entities 54 52 (str "5") (str "1"))
    as (H1 & H2 & _); try reflexivity.
  split; [exact H1|exact H2].
Defined.




(** C10: the table is applied entry by entry with [&amp;] first, and the
    numeric entities are decoded on what the table leaves.  So an
    ampersand written [&amp;] is decoded as if it had been written plainly
    (unless [amp;] follows once more), in any text; and an entity whose
    ampersand was itself written [&amp;] is decoded in the same call,
    wherever it stands: every other named entity of the table, every
    hexadecimal entity and every decimal entity. *)
Theorem entities_decoded_twice (d h : char) (ds hs : jsstring) :
  forallb is_digit (d :: ds) = true ->
  forallb is_hex_digit (h :: hs) = true ->
  let unit_dec := fromCharCode (parseInt (d :: ds) 10) in
  let unit_hex := fromCharCode (parseInt (h :: hs) 16) in
  (forall pre post,
     starts_with (str "amp;") post = false ->
     decodeHtmlEntities (pre ++ str "&amp;" ++ post)
     = decodeHtmlEntities (pre ++ str "&" ++ post))
  /\ Forall (fun e => forall pre post,
               decodeHtmlEntities (pre ++ str "&amp;" ++ tl (fst e) ++ post)
               = (a <- decodeHtmlEntities pre ;;
                  b <- decodeHtmlEntities post ;;
                  Normal (a ++ snd e ++ b)))
            (tl entities)
  /\ (forall pre post,
        decodeHtmlEntities
          (pre ++ str "&amp;" ++ (str "#x" ++ (h :: hs) ++ str ";") ++ post)
        = (a <- decodeHtmlEntities pre ;;
           b <- decodeHtmlEntities post ;;
           Normal (a ++ unit_hex ++ b)))
  /\ (forall pre post,
        decodeHtmlEntities
          (pre ++ str "&amp;" ++ (str "#" ++ (d :: ds) ++ str ";") ++ post)
        = (a <- replace re_dec decode_dec (decode_named pre) ;;
           b <- replace re_dec decode_dec (decode_named post) ;;
           replace re_hex decode_hex (a ++ unit_dec ++ b)))
  /\ decodeHtmlEntities (str "&amp;#" ++ (d :: ds) ++ str ";")
     = Normal unit_dec
  /\ decodeHtmlEntities (str "&amp;#x" ++ (h :: hs) ++ str ";")
     = Normal unit_hex
  /\ htmlToMrkdwn (str "&amp;#" ++ (d :: ds) ++ str ";")
     = Normal (trim unit_dec)
  /\ htmlToMrkdwn (str "&amp;#x" ++ (h :: hs) ++ str ";")
     = Normal (trim unit_hex)
  /\ (forall pre post,
        has_char LT (pre ++ post) = false ->
        has_char NUL (pre ++ post) = false ->
        starts_with (str "amp;") post = false ->
        htmlToMrkdwn (pre ++ str "&amp;" ++ post)
        = htmlToMrkdwn (pre ++ str "&" ++ post))
  /\ Forall (fun e => htmlToMrkdwn (str "&amp;" ++ tl (fst e))
                      = Normal (trim (snd e))) (tl entities)
  /\ htmlToMrkdwn (str "&amp;lt;") = Normal (str "<")
  /\ htmlToMrkdwn (str "&amp;lt;") <> Normal (str "&lt;")
  /\ htmlToMrkdwn (str "&amp;#65;") = Normal (str "A")
  /\ htmlToMrkdwn (str "&amp;#65;") <> Normal (str "&#65;")
  /\ htmlToMrkdwn (str "&amp;#x41;") = Normal (str "A")
  /\ htmlToMrkdwn (str "a &amp;lt; b &amp;#x26;amp; c")
     = Normal (str "a < b &amp; c").
Proof.
  intros Hd Hh unit_dec unit_hex.
  assert (Nd : d :: ds <> []) by discriminate.
  assert (Nh : h :: hs <> []) by discriminate.
  assert (Hdec : decodeHtmlEntities (str "&amp;#" ++ (d :: ds) ++ str ";")
                 = Normal unit_dec).
  { pose proof (decode_dec_entity d ds Hd) as Hdec.
    unfold decodeHtmlEntities in *.
    change (str "&amp;#" ++ (d :: ds) ++ str ";")
      with (str "&amp;" ++ 35 :: (d :: ds) ++ str ";").
    rewrite decode_named_amp_prefix; [exact Hdec| |reflexivity].
    rewrite has_char_cons. apply (digits_no_amp (d :: ds)).
    now apply digits_are_hex. }
  pose proof (decode_amp_hex_entity h hs Hh) as Hhex.
  split; [intros pre post H; now apply decode_twice|].
  split; [exact decode_entity_twice|].
  split; [intros pre post; now apply decode_amp_hex_in_text|].
  split; [intros pre post; now apply decode_amp_dec_in_text|].
  split; [exact Hdec|]. split; [exact Hhex|].
  split.
  { apply (htmlToMrkdwn_entity (str "&amp;#") (d :: ds)); try reflexivity.
    - now apply digits_are_hex.
    - exact Hdec. }
  split.
  { apply (htmlToMrkdwn_entity (str "&amp;#x") (h :: hs)); try reflexivity.
    - assumption.
    - exact Hhex. }
  split.
  { intros pre post H1 H2 H3. rewrite has_char_app in H1, H2.
    apply orb_false_elim in H1, H2. destruct H1 as [L1 L2], H2 as [N1 N2].
    rewrite !htmlToMrkdwn_text;
      try (rewrite has_char_app, ?L1, ?N1; rewrite has_char_app, ?L2, ?N2;
           reflexivity).
    now rewrite decode_twice. }
  split; [repeat constructor|].
  repeat split; vm_compute; discriminate.
Qed.

Lemma entities_decoded_twice_witness :
  decodeHtmlEntities (str "&amp;#65;") = Normal (str "A")
  /\ decodeHtmlEntities (str "&amp;#x41;") = Normal (str "A").
Proof.
  destruct (@entities_decoded_twice 54 52 (str "5") (str "1"))
    as (_ & _ & _ & _ & H1 & H2 & _); try reflexivity.
  split; [exact H1|exact H2].
Defined.

(** * Further properties *)

(** Text without tags, entities and marker characters is returned with
    its runs of three or more newlines cut to two and without the white
    space at its ends, and otherwise as it is. *)
Theorem plain_text_normal_form (s : jsstring) :
  plain s = true -> htmlToMrkdwn s = Normal (trim (squeeze 0 s)).
Proof.
  intros H. destruct (plain_inv _ H) as (H1 & H2 & H3).
  rewrite htmlToMrkdwn_plain by assumption. apply cleanup_squeeze.
Qed.

Lemma plain_text_normal_form_witness :
  htmlToMrkdwn (str " a" ++ [LF; LF; LF; LF] ++ str "b ")
  = Normal (str "a" ++ [LF; LF] ++ str "b").
Proof.
  exact (@plain_text_normal_form
           (str " a" ++ [LF; LF; LF; LF] ++ str "b ") eq_refl).
Defined.

(** The remaining examples of the specification: line breaks, an unknown
    tag, list items on lines of their own, the named entity of the
    ampersand, and the composite scenario. *)
Theorem specification_examples :
  htmlToMrkdwn (str "a<br>b") = Normal (str "a" ++ [LF] ++ str "b")
  /\ htmlToMrkdwn (str "a<br/>b<br />c")
     = Normal (str "a" ++ [LF] ++ str "b" ++ [LF] ++ str "c")
  /\ htmlToMrkdwn (str "<span class=" ++ quoted (str "x") ++ str ">t</span>")
     = Normal (str "t")
  /\ htmlToMrkdwn (str "<ul><li>A</li><li>B</li>")
     = Normal ([BULLET] ++ str " A" ++ [LF; BULLET] ++ str " B")
  /\ htmlToMrkdwn (str "&amp;") = Normal (str "&")
  /\ htmlToMrkdwn
       (str "<b>Agenda</b><br><ul><li>Item1</li></ul><p>Contact <a href="
        ++ quoted (str "mailto:x@y.com") ++ str ">lead</a>.</p>")
     = Normal (str "*Agenda*" ++ [LF; LF; BULLET] ++ str " Item1" ++ [LF]
               ++ str "Contact <mailto:x@y.com|lead>.").
Proof. repeat split. Qed.
